(** * OVM_ETH balance migration (op-chain-ops/ether/migrate.go)

    A shallow embedding of [PartitionKeyspace], [MigrateBalances] and
    [doMigration], and the properties of the migration that follow from the
    code.  Go's [int] is the 64-bit two's complement integer, [*big.Int] is
    [Z], [common.Hash] is the 256-bit big-endian number its 32 bytes spell,
    [common.Address] the 160-bit one, byte slices are [list byte]. *)

From Stdlib Require Import ZArith Lia Bool Strings.Byte Sorting.Sorted.
From stdpp Require Import base numbers list strings pretty gmap sets.

Local Open Scope Z_scope.
Set Warnings "-clear-no-such-hyp".

(** ** Machine integers, hashes and addresses *)

Abbreviation Hash := Z.
Abbreviation Address := Z.

Definition int_min : Z := - 2 ^ 63.
Definition int_max : Z := 2 ^ 63 - 1.

Definition is_int (x : Z) : Prop := int_min <= x <= int_max.

(** Wrap-around of Go's [int] arithmetic. *)
Definition wrap_int (x : Z) : Z := (x + 2 ^ 63) mod 2 ^ 64 - 2 ^ 63.

Definition int_add (x y : Z) : Z := wrap_int (x + y).
Definition int_sub (x y : Z) : Z := wrap_int (x - y).

Definition hash_modulus : Z := 2 ^ 256.

(** [common.BigToHash]: the big-endian bytes of the absolute value, cropped
    from the left to 32 bytes. *)
Definition BigToHash (b : Z) : Hash := Z.abs b mod hash_modulus.

(** [Hash.Big]. *)
Definition Hash_Big (h : Hash) : Z := h.

(** [big.Int.Div] is Euclidean division and panics on a zero divisor. *)
Definition big_Div (x y : Z) : option Z :=
  if y =? 0 then None
  else if 0 <? y then Some (x / y)
  else Some (- (x / - y)).

(** A call either returns or panics. *)
Inductive outcome (A : Type) : Type :=
| Returns (a : A)
| Panics (msg : string).
Arguments Returns {A} a.
Arguments Panics {A} msg.

(** ** Constants of the package *)

Definition checkJobs : Z := 64.
Definition BalanceSlot : Z := 1.
Definition AllowanceSlot : Z := 2.

Definition OVMETHAddress : Address :=
  0xDeadDeAddeAddEAddeadDEaDDEAdDeaDDeAD0000.

Definition ignoredSlots : gset Z := {[ 2; 3; 4; 5; 6 ]}.

Definition maxSlot : Hash :=
  0xffffffffffffffffffffffffffffffffffffffffffffffffffffffffffffffff.

Definition sequencerEntrypointAddr : Address :=
  0x4200000000000000000000000000000000000005.

(** ** PartitionKeyspace *)

Definition PartitionKeyspace (i count : Z) : outcome (Hash * Hash) :=
  if (i <? 0) || (count <? 0) then
    Panics "i and count must be greater than 0"
  else if i >? int_sub count 1 then
    Panics "i must be less than count - 1"
  else
    match big_Div (Hash_Big maxSlot) count with
    | None => Panics "division by zero"
    | Some partSize =>
        let start := BigToHash (i * partSize) in
        let end_ :=
          if i <? int_sub count 1
          then BigToHash (int_add i 1 * partSize)
          else maxSlot in
        Returns (start, end_)
    end.

(** The range of partition [i], where the call returns. *)
Definition partition_range (i count : Z) : option (Hash * Hash) :=
  match PartitionKeyspace i count with
  | Returns r => Some r
  | Panics _ => None
  end.

Definition in_range (k : Hash) (r : Hash * Hash) : Prop :=
  r.1 <= k <= r.2.


(** ** Byte slices *)

(** [new(big.Int).SetBytes]: the big-endian unsigned number. *)
Definition SetBytes (bs : list byte) : Z :=
  fold_left (fun acc b => acc * 256 + Z.of_N (Byte.to_N b)) bs 0.

(** [common.BytesToHash]: right-aligned, cropped from the left to 32 bytes. *)
Definition BytesToHash (bs : list byte) : Hash := SetBytes bs mod hash_modulus.

(** ** The state database *)

(** One leaf of a storage trie as the iterator shows it: the secure (hashed)
    key, the stored value, and what [GetKey] answers for the hashed key. *)
Record trie_entry : Type := mkEntry {
  it_Key : list byte;
  it_Value : list byte;
  it_preimage : option (list byte)
}.

(** The three answers of [StateDB.StorageTrie]: an error, a nil trie, or a
    trie, given by its leaves in iteration order. *)
Inductive trie_result : Type :=
| TrieError
| TrieNil
| TrieOk (leaves : list trie_entry).

Record StateDB : Type := mkStateDB {
  db_balance : gmap Z Z;
  db_state : gmap (Z * Z) Z;
  db_trie : gmap Z trie_result
}.

Definition GetBalance (db : StateDB) (addr : Address) : Z :=
  default 0 (db_balance db !! addr).

Definition GetState (db : StateDB) (addr : Address) (key : Hash) : Hash :=
  default 0 (db_state db !! (addr, key)).

Definition StorageTrie (db : StateDB) (addr : Address) : trie_result :=
  default TrieNil (db_trie db !! addr).

Definition SetBalance (db : StateDB) (addr : Address) (amount : Z) : StateDB :=
  mkStateDB (<[addr := amount]> (db_balance db)) (db_state db) (db_trie db).

Definition SetState (db : StateDB) (addr : Address) (key value : Hash) : StateDB :=
  mkStateDB (db_balance db) (<[(addr, key) := value]> (db_state db)) (db_trie db).

(** [NodeIterator(start)]: the leaves from the first key not below [start].
    The keys of a secure trie are hashes of one length, so that the order of
    the paths is the order of the numbers [SetBytes] reads. *)
Fixpoint NodeIterator (leaves : list trie_entry) (start : Hash) : list trie_entry :=
  match leaves with
  | [] => []
  | e :: rest =>
      if SetBytes (it_Key e) <? Hash_Big start then NodeIterator rest start
      else leaves
  end.

(** [DBFactory]: a fresh handle on the committed state, or an error; the
    migration runs against one snapshot, and every call answers alike. *)
Abbreviation DBFactory := (option StateDB).

(** ** Collaborators outside this file *)

Record Params : Type := mkParams { ExpectedSupplyDelta : Z }.

Record Allowance : Type := mkAllowance { From : Address; To : Address }.

(** The storage-key derivations, the total-supply slot and the chain
    parameter table are declared in other files of the repository;
    [rlp.Split] and the [String] methods belong to go-ethereum.  The
    migration is stated over any of them. *)
Class Externals : Type := mkExternals {
  CalcOVMETHStorageKey : Address -> Hash;
  CalcAllowanceStorageKey : Address -> Address -> Hash;
  getOVMETHTotalSupplySlot : Hash;
  ParamsByChainID : gmap Z Params;
  rlp_Split : list byte -> option (list byte);
  Hash_String : Hash -> string;
  Address_String : Address -> string
}.

(** Modelled from the spec: [predeploys.LegacyERC20ETHAddr], the legacy
    ledger contract, is declared in another package; it is the contract
    whose storage is migrated, the one at [OVMETHAddress]. *)
Definition LegacyERC20ETHAddr : Address := OVMETHAddress.

(** Modelled from the spec: [getOVMETHTotalSupply] is declared in another
    file; it reads the legacy recorded total supply, the value stored in the
    contract's total-supply slot. *)
Definition getOVMETHTotalSupply `{Externals} (db : StateDB) : Z :=
  Hash_Big (GetState db OVMETHAddress getOVMETHTotalSupplySlot).

(** ** Logging *)

Inductive log_level : Type := LvlCrit | LvlError | LvlInfo.

Definition log_record : Type := log_level * string.

(** ** The expectation index *)

Section Index.
Context `{Externals}.

Definition add_address (acc : gmap Z Z * gmap Z Z) (addr : Address) :
    gmap Z Z * gmap Z Z :=
  let sk := CalcOVMETHStorageKey addr in
  (<[sk := addr]> acc.1, <[sk := BalanceSlot]> acc.2).

Definition add_allowance (acc : gmap Z Z * gmap Z Z) (allowance : Allowance) :
    gmap Z Z * gmap Z Z :=
  let sk := CalcAllowanceStorageKey (From allowance) (To allowance) in
  (<[sk := From allowance]> acc.1, <[sk := AllowanceSlot]> acc.2).

(** The maps [slotsAddrs] and [slotsInp] as [doMigration] fills them. *)
Definition build_index (addresses : list Address) (allowances : list Allowance) :
    gmap Z Z * gmap Z Z :=
  let acc := fold_left add_address addresses (∅, ∅) in
  let acc := fold_left add_allowance allowances acc in
  add_address acc sequencerEntrypointAddr.
End Index.

(** ** The scan worker *)

Record accountData : Type := mkAccountData {
  balance : Z;
  legacySlot : Hash;
  address : Address
}.

(** How the body of the worker's loop ends for one leaf. *)
Inductive entry_result : Type :=
| EReturn                   (* return: the leaf lies beyond the partition *)
| EContinue                 (* on to the next leaf *)
| ECrit (msg : string)      (* log.Crit: the process exits *)
| EError (err : string)     (* errCh <- err; return *)
| ESend (c : accountData).  (* outCh <- c, then on to the next leaf *)

Section Worker.
Context `{Externals}.
Variable noCheck : bool.
Variables slotsAddrs slotsInp : gmap Z Z.

(** The [switch slotType] that closes the loop body. *)
Definition classify (slotType : Z) (key : Hash) (addr : Address)
    (content : list byte) : list log_record * entry_result :=
  if slotType =? BalanceSlot then
    let value := BytesToHash content in
    ([], ESend (mkAccountData (Hash_Big value) key addr))
  else if slotType =? AllowanceSlot then
    ([], EContinue)
  else if noCheck then
    ([(LvlError, "unknown slot type")], EContinue)
  else
    ([(LvlCrit, "unknown slot type %d, should never happen")],
     ECrit "unknown slot type %d, should never happen").

(** The loop body from the balance check on. *)
Definition check_balance (db : StateDB) (slotType : Z) (key : Hash)
    (addr : Address) (content : list byte) : list log_record * entry_result :=
  let bal := GetBalance db addr in
  if negb (Z.sgn bal =? 0) then
    let logs := [(LvlError, "account has non-zero balance in state - should never happen")] in
    if negb noCheck then
      (logs, EError ("account has non-zero balance in state - should never happen: "
                       +:+ Address_String addr))
    else
      let r := classify slotType key addr content in (logs ++ r.1, r.2)
  else classify slotType key addr content.

(** The loop body from the lookup in [slotsAddrs] on. *)
Definition lookup_address (db : StateDB) (slotType : Z) (key : Hash)
    (content : list byte) : list log_record * entry_result :=
  match slotsAddrs !! key with
  | None =>
      ([(LvlCrit, "could not find address in map - should never happen")],
       ECrit "could not find address in map - should never happen")
  | Some addr => check_balance db slotType key addr content
  end.

(** The body of [for it.Next()] after the cancellation check, for the leaf
    [e] of a worker whose partition ends at [end_]. *)
Definition scan_entry (db : StateDB) (end_ : Hash) (e : trie_entry) :
    list log_record * entry_result :=
  if SetBytes (it_Key e) >? Hash_Big end_ then ([], EReturn)
  else
    let rawValue := it_Value e in
    if (length rawValue =? 0)%nat then ([], EContinue)
    else
      match it_preimage e with
      | None =>
          ([(LvlCrit, "cannot get preimage for storage key")],
           ECrit "cannot get preimage for storage key")
      | Some rawKey =>
          let key := BytesToHash rawKey in
          match rlp_Split rawValue with
          | None =>
              ([(LvlCrit, "mal-formed data in state: %v")],
               ECrit "mal-formed data in state: %v")
          | Some content =>
              if bool_decide (key ∈ ignoredSlots) then ([], EContinue)
              else
                match slotsInp !! key with
                | None =>
                    if noCheck then
                      let r := lookup_address db 0 key content in
                      ((LvlError, "ignoring unknown storage slot in state") :: r.1, r.2)
                    else
                      ([], EError ("unknown storage slot in state: " +:+ Hash_String key))
                | Some slotType => lookup_address db slotType key content
                end
          end
      end.
End Worker.

(** ** The collector *)

(** What the collector goroutine owns: the accounts seen, the total migrated,
    the count, and the database it writes to. *)
Record collector : Type := mkCollector {
  seenAccounts : gset Z;
  totalFound : Z;
  count : Z;
  mutableDB : StateDB
}.

(** [case account := <-outCh]. *)
Definition collect (st : collector) (account : accountData) : collector :=
  if bool_decide (address account ∈ seenAccounts st) then st
  else
    let db := SetBalance (mutableDB st) (address account) (balance account) in
    let db := SetState db LegacyERC20ETHAddr (legacySlot account) 0 in
    mkCollector ({[address account]} ∪ seenAccounts st)
                (totalFound st + balance account)
                (int_add (count st) 1)
                db.

Definition collect_logs (st : collector) (account : accountData) : list log_record :=
  if bool_decide (address account ∈ seenAccounts st)
  then [(LvlInfo, "skipping duplicate account during iteration")]
  else [].

Definition new_collector (mutableDB : StateDB) : collector :=
  mkCollector ∅ 0 0 mutableDB.

(** The collector after the candidates of [accounts] arrived in that order. *)
Definition collect_all (st : collector) (accounts : list accountData) : collector :=
  fold_left collect accounts st.
Arguments collect_all : simpl never.

(** ** The goroutines of doMigration *)

(** The goroutines meet at three channels and one [sync.Once]; between two
    of these meetings a worker reads only its own database handle and the
    index, which nobody writes, and the collector alone writes what it owns.
    A move of the model is therefore one goroutine running from one meeting
    to the next.  The progress logger of the collector is left out.

    A worker: not yet started, at the head of its loop with the leaves still
    to visit, blocked sending a candidate, or returned. *)
Inductive wstate : Type :=
| WStart (start end_ : Hash)
| WLoop (end_ : Hash) (db : StateDB) (it : list trie_entry)
| WSend (end_ : Hash) (db : StateDB) (c : accountData) (it : list trie_entry)
| WDone.

(** The calling goroutine: in [wg.Wait()], in [<-collectorCloseCh], or
    returned from [doMigration]. *)
Inductive mstate : Type :=
| MWait
| MJoin
| MReturned (err : option string).

Record config : Type := mkConfig {
  cfg_noCheck : bool;
  cfg_slotsAddrs : gmap Z Z;
  cfg_slotsInp : gmap Z Z;
  cfg_dbFactory : DBFactory;
  cfg_expDiff : Z
}.

Record state : Type := mkState {
  workers : list wstate;
  errCh : list string;        (* buffered, one place per worker *)
  cancelCh : bool;            (* closed *)
  cancelOnce : bool;          (* done *)
  lastErr : option string;
  coll : collector;
  collecting : bool;          (* the collector is in its loop *)
  main : mstate;
  crashed : option string;    (* log.Crit ended the process *)
  logs : list log_record
}.

Definition set_worker (s : state) (i : nat) (w : wstate) : state :=
  mkState (<[i := w]> (workers s)) (errCh s) (cancelCh s) (cancelOnce s)
          (lastErr s) (coll s) (collecting s) (main s) (crashed s) (logs s).

Definition set_errCh (s : state) (ch : list string) : state :=
  mkState (workers s) ch (cancelCh s) (cancelOnce s)
          (lastErr s) (coll s) (collecting s) (main s) (crashed s) (logs s).

Definition set_coll (s : state) (c : collector) : state :=
  mkState (workers s) (errCh s) (cancelCh s) (cancelOnce s)
          (lastErr s) c (collecting s) (main s) (crashed s) (logs s).

Definition set_collecting (s : state) (b : bool) : state :=
  mkState (workers s) (errCh s) (cancelCh s) (cancelOnce s)
          (lastErr s) (coll s) b (main s) (crashed s) (logs s).

Definition set_main (s : state) (m : mstate) : state :=
  mkState (workers s) (errCh s) (cancelCh s) (cancelOnce s)
          (lastErr s) (coll s) (collecting s) m (crashed s) (logs s).

Definition add_logs (s : state) (l : list log_record) : state :=
  mkState (workers s) (errCh s) (cancelCh s) (cancelOnce s)
          (lastErr s) (coll s) (collecting s) (main s) (crashed s) (logs s ++ l).

(** [log.Crit] of go-ethereum writes the record and exits the process
    ("should never happen, so explode if it does"). *)
Definition crash (s : state) (msg : string) : state :=
  mkState (workers s) (errCh s) (cancelCh s) (cancelOnce s)
          (lastErr s) (coll s) (collecting s) (main s) (Some msg)
          (logs s ++ [(LvlCrit, msg)]).

(** The same from inside the loop body, whose records [logged] end with the
    one of [log.Crit]. *)
Definition crash_logged (s : state) (logged : list log_record) (msg : string) : state :=
  mkState (workers s) (errCh s) (cancelCh s) (cancelOnce s)
          (lastErr s) (coll s) (collecting s) (main s) (Some msg)
          (logs s ++ logged).

(** [cancelOnce.Do(f)] where [f] closes [cancelCh] and, in the collector,
    first keeps the error. *)
Definition once_cancel (s : state) (err : option string) : state :=
  if cancelOnce s then s
  else
    mkState (workers s) (errCh s) true true
            (match err with Some e => Some e | None => lastErr s end)
            (coll s) (collecting s) (main s) (crashed s) (logs s).

Section Migration.
Context `{Externals}.

(** One turn of worker [i]: opening its database and trie, or one pass of
    the loop up to the next leaf or channel operation. *)
Definition worker_step (cfg : config) (s : state) (i : nat) : option state :=
  match workers s !! i with
  | Some (WStart start end_) =>
      match cfg_dbFactory cfg with
      | None => Some (crash s "cannot get database")
      | Some db =>
          match StorageTrie db LegacyERC20ETHAddr with
          | TrieError =>
              Some (crash s "cannot get storage trie for LegacyERC20ETHAddr")
          | TrieNil => Some (crash s "nil storage trie for LegacyERC20ETHAddr")
          | TrieOk leaves =>
              Some (set_worker s i (WLoop end_ db (NodeIterator leaves start)))
          end
      end
  | Some (WLoop end_ db it) =>
      match it with
      | [] => Some (set_worker s i WDone)
      | e :: rest =>
          if cancelCh s then Some (set_worker s i WDone)
          else
            let r := scan_entry (cfg_noCheck cfg) (cfg_slotsAddrs cfg)
                       (cfg_slotsInp cfg) db end_ e in
            match r.2 with
            | EReturn => Some (set_worker (add_logs s r.1) i WDone)
            | EContinue => Some (set_worker (add_logs s r.1) i (WLoop end_ db rest))
            | ECrit msg => Some (crash_logged s r.1 msg)
            | EError err =>
                Some (set_worker (set_errCh (add_logs s r.1) (errCh s ++ [err])) i WDone)
            | ESend c => Some (set_worker (add_logs s r.1) i (WSend end_ db c rest))
            end
      end
  | _ => None
  end.

(** The collector's [case account := <-outCh], served to worker [i]. *)
Definition recv_step (s : state) (i : nat) : option state :=
  if collecting s then
    match workers s !! i with
    | Some (WSend end_ db c rest) =>
        let s := add_logs s (collect_logs (coll s) c) in
        Some (set_worker (set_coll s (collect (coll s) c)) i (WLoop end_ db rest))
    | _ => None
    end
  else None.

(** The collector's [case err := <-errCh]. *)
Definition err_step (s : state) : option state :=
  if collecting s then
    match errCh s with
    | err :: rest => Some (once_cancel (set_errCh s rest) (Some err))
    | [] => None
    end
  else None.

(** The collector's [case <-cancelCh]. *)
Definition cancel_step (s : state) : option state :=
  if collecting s && cancelCh s then Some (set_collecting s false) else None.

Definition is_done (w : wstate) : bool :=
  match w with WDone => true | _ => false end.

(** [wg.Wait()] returns and the caller closes [cancelCh]. *)
Definition close_step (s : state) : option state :=
  match main s with
  | MWait =>
      if forallb is_done (workers s)
      then Some (set_main (once_cancel s None) MJoin)
      else None
  | _ => None
  end.

(** The comparison of the supply delta: the records logged and the error
    returned, if any. *)
Definition supply_check (noCheck : bool) (totalSupply totalFound expDiff : Z) :
    list log_record * option string :=
  let delta := totalSupply - totalFound in
  if negb (delta =? expDiff) then
    if negb noCheck
    then ([(LvlError, "supply mismatch")],
          Some ("supply mismatch: " +:+ pretty delta))
    else ([(LvlError, "supply mismatch")], None)
  else ([], None).

(** [doMigration] from [<-collectorCloseCh] to its return. *)
Definition finish_step (cfg : config) (s : state) : option state :=
  match main s with
  | MJoin =>
      if collecting s then None
      else
        match lastErr s with
        | Some err => Some (set_main s (MReturned (Some err)))
        | None =>
            let s := add_logs s [(LvlInfo, "Iterated legacy balances")] in
            match cfg_dbFactory cfg with
            | None => Some (crash s "cannot get database")
            | Some db =>
                let totalSupply := getOVMETHTotalSupply db in
                let r := supply_check (cfg_noCheck cfg) totalSupply
                           (totalFound (coll s)) (cfg_expDiff cfg) in
                let s := add_logs s r.1 in
                match r.2 with
                | Some err => Some (set_main s (MReturned (Some err)))
                | None =>
                    let s := add_logs s [(LvlInfo, "supply verified OK")] in
                    let db := SetState (mutableDB (coll s)) LegacyERC20ETHAddr
                                getOVMETHTotalSupplySlot 0 in
                    let s := set_coll s (mkCollector (seenAccounts (coll s))
                               (totalFound (coll s)) (count (coll s)) db) in
                    let s := add_logs s [(LvlInfo, "Set the totalSupply to 0")] in
                    Some (set_main s (MReturned None))
                end
            end
        end
  | _ => None
  end.

(** Which goroutine moves next. *)
Inductive label : Type :=
| LWorker (i : nat)
| LRecv (i : nat)
| LErr
| LCancel
| LClose
| LFinish.

Definition step (cfg : config) (l : label) (s : state) : option state :=
  match crashed s with
  | Some _ => None
  | None =>
      match l with
      | LWorker i => worker_step cfg s i
      | LRecv i => recv_step s i
      | LErr => err_step s
      | LCancel => cancel_step s
      | LClose => close_step s
      | LFinish => finish_step cfg s
      end
  end.

(** The state after the schedule [ls], when each of its moves is enabled. *)
Fixpoint exec (cfg : config) (ls : list label) (s : state) : option state :=
  match ls with
  | [] => Some s
  | l :: ls' =>
      match step cfg l s with
      | Some s' => exec cfg ls' s'
      | None => None
      end
  end.

(** The workers [doMigration] starts, one per partition. *)
Fixpoint spawn (js : list Z) : outcome (list wstate) :=
  match js with
  | [] => Returns []
  | i :: rest =>
      match PartitionKeyspace i checkJobs with
      | Panics msg => Panics msg
      | Returns (start, end_) =>
          match spawn rest with
          | Panics msg => Panics msg
          | Returns ws => Returns (WStart start end_ :: ws)
          end
      end
  end.

(** [doMigration] up to the point where every goroutine is started. *)
Definition doMigration (mutableDB : StateDB) (dbFactory : DBFactory)
    (addresses : list Address) (allowances : list Allowance)
    (expDiff : Z) (noCheck : bool) : outcome (config * state) :=
  let idx := build_index addresses allowances in
  match spawn (seqZ 0 checkJobs) with
  | Panics msg => Panics msg
  | Returns ws =>
      Returns (mkConfig noCheck idx.1 idx.2 dbFactory expDiff,
               mkState ws [] false false None (new_collector mutableDB)
                       true MWait None [])
  end.

(** A call of [MigrateBalances]: returned with its error and the database
    it was given to write to, panicked, ended with the process by
    [log.Crit], or still inside [doMigration]. *)
Inductive call : Type :=
| Returned (err : option string) (db : StateDB)
| Panicked (msg : string)
| Exited (msg : string)
| Running (cfg : config) (s : state).

Definition MigrateBalances (mutableDB : StateDB) (dbFactory : DBFactory)
    (addresses : list Address) (allowances : list Allowance)
    (chainID : Z) (noCheck : bool) : call :=
  match ParamsByChainID !! chainID with
  | None => Returned (Some ("no chain params for " +:+ pretty chainID)) mutableDB
  | Some params =>
      match doMigration mutableDB dbFactory addresses allowances
              (ExpectedSupplyDelta params) noCheck with
      | Panics msg => Panicked msg
      | Returns (cfg, s) => Running cfg s
      end
  end.

(** A call of [doMigration] itself, as the tests make it. *)
Definition start_doMigration (mutableDB : StateDB) (dbFactory : DBFactory)
    (addresses : list Address) (allowances : list Allowance)
    (expDiff : Z) (noCheck : bool) : call :=
  match doMigration mutableDB dbFactory addresses allowances expDiff noCheck with
  | Panics msg => Panicked msg
  | Returns (cfg, s) => Running cfg s
  end.

(** Where a call stands after the schedule [ls]. *)
Definition after (c : call) (ls : list label) : option call :=
  match c with
  | Running cfg s =>
      match exec cfg ls s with
      | Some s' =>
          match crashed s', main s' with
          | Some msg, _ => Some (Exited msg)
          | None, MReturned err => Some (Returned err (mutableDB (coll s')))
          | None, _ => Some (Running cfg s')
          end
      | None => None
      end
  | _ => match ls with [] => Some c | _ => None end
  end.
End Migration.

(** ** Schedules *)

Section Scheduler.
Context `{Externals}.

(** The first move of [ls] that is enabled, with the state it leads to. *)
Fixpoint pick (ls : list label) (cfg : config) (s : state) : option (label * state) :=
  match ls with
  | [] => None
  | l :: ls' =>
      match step cfg l s with
      | Some s' => Some (l, s')
      | None => pick ls' cfg s
      end
  end.

(** The schedule that runs the workers one after the other from worker [i]
    on, the collector receiving each candidate as soon as it is offered, and
    then lets the caller finish.  The collector reads [errCh] as soon as it
    can when [eager] is set, and otherwise only when nothing else moves. *)
Fixpoint in_turn (eager : bool) (fuel : nat) (cfg : config) (s : state) (i : nat) :
    list label :=
  match fuel with
  | O => []
  | S fuel' =>
      match pick ((if eager then [LErr] else []) ++ [LRecv i; LWorker i]) cfg s with
      | Some (l, s') => l :: in_turn eager fuel' cfg s' i
      | None =>
          if (i <? length (workers s))%nat then in_turn eager fuel' cfg s (S i)
          else
            match pick [LClose; LCancel; LFinish; LErr] cfg s with
            | Some (l, s') => l :: in_turn eager fuel' cfg s' i
            | None => []
            end
      end
  end.
End Scheduler.

(** ** A concrete environment

    The bodies of the key derivations are not part of this file; the
    scenarios below run the migration with the following stand-ins, which
    send distinct small addresses to distinct keys outside [ignoredSlots]. *)

Definition hex_digit (d : Z) : string :=
  match d with
  | 0 => "0" | 1 => "1" | 2 => "2" | 3 => "3" | 4 => "4" | 5 => "5"
  | 6 => "6" | 7 => "7" | 8 => "8" | 9 => "9" | 10 => "a" | 11 => "b"
  | 12 => "c" | 13 => "d" | 14 => "e" | _ => "f"
  end.

Fixpoint hex_digits (n : nat) (x : Z) : string :=
  match n with
  | O => ""
  | S n' => hex_digits n' (x / 16) +:+ hex_digit (x mod 16)
  end.

(** The [n] big-endian bytes of [x]. *)
Fixpoint to_bytes (n : nat) (x : Z) : list byte :=
  match n with
  | O => []
  | S n' =>
      to_bytes n' (x / 256) ++
      [default Byte.x00 (Byte.of_N (Z.to_N (x mod 256)))]
  end.

(** [Hash.Bytes]. *)
Definition Hash_Bytes (h : Hash) : list byte := to_bytes 32 h.

(** The string cases of [rlp.Split], which are the ones a storage value of at
    most 32 bytes is encoded with: a single byte below 0x80 stands for itself,
    and 0x80 + n is followed by n bytes. *)
Definition split_string (b : list byte) : option (list byte) :=
  match b with
  | [] => None
  | t :: rest =>
      let tag := Z.of_N (Byte.to_N t) in
      if tag <? 0x80 then Some [t]
      else if tag <? 0xB8 then
        let n := Z.to_nat (tag - 0x80) in
        if (length rest <? n)%nat then None
        else
          match n, rest with
          | 1%nat, c :: _ =>
              if Z.of_N (Byte.to_N c) <? 0x80 then None else Some (take n rest)
          | _, _ => Some (take n rest)
          end
      else None
  end.

(** The encoding [split_string] reads back: a big-endian number without
    leading zero bytes. *)
Fixpoint trim_zeros (b : list byte) : list byte :=
  match b with
  | [] => []
  | c :: rest => if (Byte.to_N c =? 0)%N then trim_zeros rest else b
  end.

Definition rlp_value (v : Z) : list byte :=
  match trim_zeros (to_bytes 32 v) with
  | [] => []
  | [c] =>
      if Z.of_N (Byte.to_N c) <? 0x80 then [c]
      else [default Byte.x00 (Byte.of_N 0x81); c]
  | bs =>
      default Byte.x00 (Byte.of_N (Z.to_N (0x80 + Z.of_nat (length bs)))) :: bs
  end.

#[local] Instance sample_externals : Externals := {|
  CalcOVMETHStorageKey addr := BigToHash (2 ^ 255 + 2 * addr);
  CalcAllowanceStorageKey from to :=
    BigToHash (2 ^ 255 + 2 * (from * 2 ^ 80 + to) + 1);
  getOVMETHTotalSupplySlot := 2;
  ParamsByChainID := {[ 1 := mkParams 0 ]};
  rlp_Split := split_string;
  Hash_String h := "0x" +:+ hex_digits 64 h;
  Address_String a := "0x" +:+ hex_digits 40 a
|}.

(** A leaf of the legacy storage: hashed key [hk], slot [slot], value [v]. *)
Definition leaf (hk : Z) (slot : Hash) (v : Z) : trie_entry :=
  mkEntry (Hash_Bytes hk) (rlp_value v) (Some (Hash_Bytes slot)).

(** The committed state of the scenarios: the legacy contract holds the
    leaves [leaves] and the slots [slots], and the accounts hold [bals]. *)
Definition legacy_state (bals : list (Z * Z)) (slots : list (Z * Z))
    (leaves : list trie_entry) : StateDB :=
  mkStateDB (list_to_map bals)
            (list_to_map (map (fun kv => ((OVMETHAddress, kv.1), kv.2)) slots))
            {[ OVMETHAddress := TrieOk leaves ]}.

(** ** Notions the properties are stated with *)

Definition partSize_of (count : Z) : Z := maxSlot / count.

(** The candidates the collector applies among [accounts], in order: those
    that arrive while their address is not yet in [seenAccounts]. *)
Fixpoint applications (st : collector) (accounts : list accountData) :
    list accountData :=
  match accounts with
  | [] => []
  | c :: rest =>
      if bool_decide (address c ∈ seenAccounts st)
      then applications (collect st c) rest
      else c :: applications (collect st c) rest
  end.

(** The balance of the first candidate of [accounts] for the address [a]. *)
Fixpoint first_balance (a : Address) (accounts : list accountData) : Z :=
  match accounts with
  | [] => 0
  | c :: rest => if bool_decide (address c = a) then balance c else first_balance a rest
  end.

Definition sumZ (l : list Z) : Z := foldr Z.add 0 l.

Section Notions.
Context `{Externals}.

(** The leaf [e] is one the loop body classifies for a worker whose partition
    ends at [end_]: it lies in the partition, its value is not empty, its
    preimage [key] is known and not in [ignoredSlots], and its value decodes
    to [content]. *)
Definition classified (end_ : Hash) (e : trie_entry) (key : Hash)
    (content : list byte) : Prop :=
  SetBytes (it_Key e) <= Hash_Big end_ /\
  it_Value e <> [] /\
  (exists rawKey, it_preimage e = Some rawKey /\ key = BytesToHash rawKey) /\
  rlp_Split (it_Value e) = Some content /\
  key ∉ ignoredSlots.

(** What the two maps of the index hold together for the key [key]. *)
Definition index_entry_ok (idx : gmap Z Z * gmap Z Z) (key : Hash) : Prop :=
  match idx.2 !! key, idx.1 !! key with
  | None, None => True
  | Some slotType, Some addr =>
      (slotType = BalanceSlot /\ key = CalcOVMETHStorageKey addr) \/
      (slotType = AllowanceSlot /\
       exists to, key = CalcAllowanceStorageKey addr to)
  | _, _ => False
  end.

(** The candidate a Balance leaf is sent as, or the skip of an Allowance
    leaf. *)
Definition classified_as (slotType : Z) (key : Hash) (addr : Address)
    (content : list byte) : entry_result :=
  if slotType =? BalanceSlot
  then ESend (mkAccountData (Hash_Big (BytesToHash content)) key addr)
  else EContinue.
End Notions.

(** ** Scenarios

    The states of the repository's tests: two holders, one allowance and the
    metadata slots of the legacy contract, spread over the key space; the
    leaf of holder A sits on the boundary between partitions 2 and 3. *)

Definition holderA : Address := 0x123.
Definition holderB : Address := 0x456.

Definition boundary (i : Z) : Z := i * (maxSlot / checkJobs).

Definition metadata_leaves (totalSupply : Z) : list trie_entry :=
  [ leaf (boundary 1 + 5) 2 totalSupply;
    leaf (boundary 2 + 7) 3 255 ].

Definition metadata_leaves_high : list trie_entry :=
  [ leaf (boundary 40 + 1) 4 255;
    leaf (boundary 50 + 1) 5 255;
    leaf (boundary 63 + 1) 6 255 ].

Definition metadata_slots (totalSupply : Z) : list (Z * Z) :=
  [ (2, totalSupply); (3, 255); (4, 255); (5, 255); (6, 255) ].

(** Holders A and B with balances 1 and 2 and the allowance A -> B. *)
Definition leaves_two_holders (totalSupply : Z) : list trie_entry :=
  metadata_leaves totalSupply ++
  [ leaf (boundary 3) (CalcOVMETHStorageKey holderA) 1;
    leaf (boundary 7 + 9) (CalcAllowanceStorageKey holderA holderB) 1;
    leaf (boundary 20 + 1) (CalcOVMETHStorageKey holderB) 2 ] ++
  metadata_leaves_high.

Definition state_two_holders (bals : list (Z * Z)) (totalSupply : Z) : StateDB :=
  legacy_state bals
    (metadata_slots totalSupply ++
     [ (CalcOVMETHStorageKey holderA, 1);
       (CalcAllowanceStorageKey holderA holderB, 1);
       (CalcOVMETHStorageKey holderB, 2) ])
    (leaves_two_holders totalSupply).

(** A call of [doMigration] on the committed state [db], as the tests make
    it: the database written to and the one the factory opens are the same
    state. *)
Definition migrate (db : StateDB) (addresses : list Address)
    (allowances : list Allowance) (expDiff : Z) (noCheck : bool) : call :=
  start_doMigration db (Some db) addresses allowances expDiff noCheck.

Definition schedule_of (eager : bool) (c : call) : list label :=
  match c with
  | Running cfg s => in_turn eager 400 cfg s 0
  | _ => []
  end.

(** "everything matches": supply 3, expected delta 0, strict or relaxed. *)
Definition run_match (noCheck : bool) : call :=
  migrate (state_two_holders [] 3) [holderA; holderB]
    [mkAllowance holderA holderB] 0 noCheck.
Definition schedule_match : list label :=
  Eval vm_compute in schedule_of true (run_match false).

(** "bad supply diff": supply 4, expected delta 0, strict or relaxed. *)
Definition run_bad_supply (noCheck : bool) : call :=
  migrate (state_two_holders [] 4) [holderA; holderB]
    [mkAllowance holderA holderB] 0 noCheck.
Definition schedule_bad_supply : list label :=
  Eval vm_compute in schedule_of true (run_bad_supply false).

(** "missing input addresses": holder B is not among the inputs; strict, and
    the same in relaxed mode. *)
Definition run_missing (noCheck : bool) : call :=
  migrate (state_two_holders [] 3) [holderA] [mkAllowance holderA holderB] 0 noCheck.
Definition schedule_missing_strict : list label :=
  Eval vm_compute in schedule_of true (run_missing false).
Definition schedule_missing_relaxed : list label :=
  Eval vm_compute in schedule_of true (run_missing true).

(** The same state with a recorded supply of 1, strict, under a schedule in
    which the collector reads [errCh] only after the caller has closed
    [cancelCh]. *)
Definition run_missing_supply_1 : call :=
  migrate (state_two_holders [] 1) [holderA] [mkAllowance holderA holderB] 0 false.
Definition schedule_missing_late : list label :=
  Eval vm_compute in schedule_of false run_missing_supply_1.

(** The owner of the allowance already holds a balance in the state. *)
Definition state_owner_funded : StateDB := state_two_holders [(holderA, 5)] 3.

(** ** The moves of the goroutines, case by case *)

Section Transitions.
Context `{Externals}.

(** [transition cfg l s s'] lists the ways [step cfg l s] answers [s']. *)
Inductive transition (cfg : config) : label -> state -> state -> Prop :=
| T_crash l s s' msg :
    crashed s = None -> crashed s' = Some msg ->
    transition cfg l s s'
| T_open i s start end_ db leaves :
    crashed s = None ->
    workers s !! i = Some (WStart start end_) ->
    cfg_dbFactory cfg = Some db ->
    StorageTrie db LegacyERC20ETHAddr = TrieOk leaves ->
    transition cfg (LWorker i) s
      (set_worker s i (WLoop end_ db (NodeIterator leaves start)))
| T_exhausted i s end_ db :
    crashed s = None ->
    workers s !! i = Some (WLoop end_ db []) ->
    transition cfg (LWorker i) s (set_worker s i WDone)
| T_cancelled i s end_ db e rest :
    crashed s = None ->
    workers s !! i = Some (WLoop end_ db (e :: rest)) ->
    cancelCh s = true ->
    transition cfg (LWorker i) s (set_worker s i WDone)
| T_beyond i s end_ db e rest logged :
    crashed s = None ->
    workers s !! i = Some (WLoop end_ db (e :: rest)) ->
    cancelCh s = false ->
    scan_entry (cfg_noCheck cfg) (cfg_slotsAddrs cfg) (cfg_slotsInp cfg) db end_ e
      = (logged, EReturn) ->
    transition cfg (LWorker i) s (set_worker (add_logs s logged) i WDone)
| T_skip i s end_ db e rest logged :
    crashed s = None ->
    workers s !! i = Some (WLoop end_ db (e :: rest)) ->
    cancelCh s = false ->
    scan_entry (cfg_noCheck cfg) (cfg_slotsAddrs cfg) (cfg_slotsInp cfg) db end_ e
      = (logged, EContinue) ->
    transition cfg (LWorker i) s
      (set_worker (add_logs s logged) i (WLoop end_ db rest))
| T_error i s end_ db e rest logged err :
    crashed s = None ->
    workers s !! i = Some (WLoop end_ db (e :: rest)) ->
    cancelCh s = false ->
    scan_entry (cfg_noCheck cfg) (cfg_slotsAddrs cfg) (cfg_slotsInp cfg) db end_ e
      = (logged, EError err) ->
    transition cfg (LWorker i) s
      (set_worker (set_errCh (add_logs s logged) (errCh s ++ [err])) i WDone)
| T_offer i s end_ db e rest logged c :
    crashed s = None ->
    workers s !! i = Some (WLoop end_ db (e :: rest)) ->
    cancelCh s = false ->
    scan_entry (cfg_noCheck cfg) (cfg_slotsAddrs cfg) (cfg_slotsInp cfg) db end_ e
      = (logged, ESend c) ->
    transition cfg (LWorker i) s
      (set_worker (add_logs s logged) i (WSend end_ db c rest))
| T_recv i s end_ db c rest :
    crashed s = None ->
    collecting s = true ->
    workers s !! i = Some (WSend end_ db c rest) ->
    transition cfg (LRecv i) s
      (set_worker (set_coll (add_logs s (collect_logs (coll s) c))
                     (collect (coll s) c)) i (WLoop end_ db rest))
| T_err s err rest :
    crashed s = None ->
    collecting s = true ->
    errCh s = err :: rest ->
    transition cfg LErr s (once_cancel (set_errCh s rest) (Some err))
| T_cancel s :
    crashed s = None ->
    collecting s = true ->
    cancelCh s = true ->
    transition cfg LCancel s (set_collecting s false)
| T_close s :
    crashed s = None ->
    main s = MWait ->
    forallb is_done (workers s) = true ->
    transition cfg LClose s (set_main (once_cancel s None) MJoin)
| T_return_kept s err :
    crashed s = None ->
    main s = MJoin ->
    collecting s = false ->
    lastErr s = Some err ->
    transition cfg LFinish s (set_main s (MReturned (Some err)))
| T_return_mismatch s db logged err :
    crashed s = None ->
    main s = MJoin ->
    collecting s = false ->
    lastErr s = None ->
    cfg_dbFactory cfg = Some db ->
    supply_check (cfg_noCheck cfg) (getOVMETHTotalSupply db)
      (totalFound (coll s)) (cfg_expDiff cfg) = (logged, Some err) ->
    transition cfg LFinish s
      (set_main (add_logs (add_logs s [(LvlInfo, "Iterated legacy balances")]) logged)
         (MReturned (Some err)))
| T_return_ok s db logged :
    crashed s = None ->
    main s = MJoin ->
    collecting s = false ->
    lastErr s = None ->
    cfg_dbFactory cfg = Some db ->
    supply_check (cfg_noCheck cfg) (getOVMETHTotalSupply db)
      (totalFound (coll s)) (cfg_expDiff cfg) = (logged, None) ->
    transition cfg LFinish s
      (set_main
         (add_logs
            (set_coll
               (add_logs
                  (add_logs (add_logs s [(LvlInfo, "Iterated legacy balances")]) logged)
                  [(LvlInfo, "supply verified OK")])
               (mkCollector (seenAccounts (coll s)) (totalFound (coll s))
                  (count (coll s))
                  (SetState (mutableDB (coll s)) LegacyERC20ETHAddr
                     getOVMETHTotalSupplySlot 0)))
            [(LvlInfo, "Set the totalSupply to 0")])
         (MReturned None)).

(** What [return] hands back once the collector has stopped. *)
Definition return_value (cfg : config) (s : state) (r : option string) : Prop :=
  match lastErr s with
  | Some err => r = Some err
  | None =>
      exists db, cfg_dbFactory cfg = Some db /\
        r = (supply_check (cfg_noCheck cfg) (getOVMETHTotalSupply db)
               (totalFound (coll s)) (cfg_expDiff cfg)).2
  end.

(** The caller leaves [wg.Wait()] only when every worker has returned, and
    returns only after the collector, with [return_value]. *)
Definition caller_inv (cfg : config) (s : state) : Prop :=
  crashed s = None ->
  (main s <> MWait -> forallb is_done (workers s) = true) /\
  (forall r, main s = MReturned r -> collecting s = false /\ return_value cfg s r).

(** No error is under way. *)
Definition quiet (s : state) : Prop :=
  crashed s = None -> errCh s = [] /\ lastErr s = None.
End Transitions.

(** Whether a call has returned an error. *)
Definition returned_error (c : call) : bool :=
  match c with
  | Returned (Some _) _ => true
  | _ => false
  end.



(** The state a call is in after the schedule [ls], while it runs. *)
Definition final_state `{Externals} (c : call) (ls : list label) : option state :=
  match c with
  | Running cfg s => exec cfg ls s
  | _ => None
  end.

(** ** What a run keeps true *)

Definition leaf_key (e : trie_entry) : Z := SetBytes (it_Key e).

(** The iterator shows the leaves in the order of their hashed keys. *)
Definition sorted_leaves (l : list trie_entry) : Prop :=
  StronglySorted (fun a b => leaf_key a <= leaf_key b) l.

(** Two leaves of one slot hold one value. *)
Definition unique_slots (l : list trie_entry) : Prop :=
  forall e1 e2 k1 k2, e1 ∈ l -> e2 ∈ l ->
    it_preimage e1 = Some k1 -> it_preimage e2 = Some k2 ->
    BytesToHash k1 = BytesToHash k2 -> it_Value e1 = it_Value e2.

Section Progress.
Context `{Externals}.
Variables (cfg : config) (db : StateDB) (leaves : list trie_entry) (mdb : StateDB).

(** How the loop body ends for the leaf [e] in a partition ending at [end_]. *)
Definition scan (end_ : Hash) (e : trie_entry) : entry_result :=
  (scan_entry (cfg_noCheck cfg) (cfg_slotsAddrs cfg) (cfg_slotsInp cfg) db end_ e).2.

(** No leaf draws a classification or integrity error. *)
Definition no_fatal : Prop :=
  forall e end_ err, e ∈ leaves -> scan end_ e <> EError err.

(** The worker is through with the leaf [e]: it skipped it, or the address of
    its candidate has reached the collector. *)
Definition handled (s : state) (end_ : Hash) (e : trie_entry) : Prop :=
  match scan end_ e with
  | ESend c => address c ∈ seenAccounts (coll s)
  | EContinue => True
  | _ => False
  end.

(** The candidate comes from a Balance key of the index. *)
Definition emitted (c : accountData) : Prop :=
  cfg_slotsInp cfg !! legacySlot c = Some BalanceSlot /\
  cfg_slotsAddrs cfg !! legacySlot c = Some (address c).

Definition from_leaf (c : accountData) : Prop :=
  exists e end_, e ∈ leaves /\ scan end_ e = ESend c.

(** Worker [i] works on partition [i] of the leaves, and is through with
    every leaf of the partition that is no longer ahead of it. *)
Definition worker_ok (s : state) (i : nat) (w : wstate) : Prop :=
  exists start end_,
    partition_range (Z.of_nat i) checkJobs = Some (start, end_) /\
    match w with
    | WStart start' end' => start' = start /\ end' = end_
    | WLoop end' db' it =>
        end' = end_ /\ db' = db /\ sorted_leaves it /\
        (forall e, e ∈ it -> e ∈ leaves) /\
        (forall e, e ∈ leaves -> start <= leaf_key e <= end_ ->
           e ∈ it \/ handled s end_ e)
    | WSend end' db' c it =>
        end' = end_ /\ db' = db /\ sorted_leaves it /\
        (forall e, e ∈ it -> e ∈ leaves) /\
        from_leaf c /\
        (forall e, e ∈ leaves -> start <= leaf_key e <= end_ ->
           e ∈ it \/ handled s end_ e \/ scan end_ e = ESend c)
    | WDone =>
        forall e, e ∈ leaves -> start <= leaf_key e <= end_ -> handled s end_ e
    end.

(** While no error is under way, the channel is closed only after the
    workers, every worker is on its partition, and every address seen holds
    the balance of a leaf's candidate whose slot is cleared. *)
Definition progress_inv (s : state) : Prop :=
  crashed s = None ->
  errCh s = [] /\ lastErr s = None /\
  (cancelCh s = true -> forallb is_done (workers s) = true) /\
  length (workers s) = Z.to_nat checkJobs /\
  (forall i w, workers s !! i = Some w -> worker_ok s i w) /\
  (forall a, a ∈ seenAccounts (coll s) ->
     exists c, from_leaf c /\ address c = a /\
       GetBalance (mutableDB (coll s)) a = balance c).

(** The collector writes to Balance slots only, and the caller to the
    total-supply slot on success. *)
Definition writes_inv (s : state) : Prop :=
  crashed s = None ->
  (forall i end_ db' c it, workers s !! i = Some (WSend end_ db' c it) -> emitted c) /\
  (forall k, cfg_slotsInp cfg !! k <> Some BalanceSlot ->
     k <> getOVMETHTotalSupplySlot ->
     GetState (mutableDB (coll s)) LegacyERC20ETHAddr k =
       GetState mdb LegacyERC20ETHAddr k) /\
  (forall a, a ∈ seenAccounts (coll s) ->
     GetState (mutableDB (coll s)) LegacyERC20ETHAddr (CalcOVMETHStorageKey a) = 0) /\
  (main s = MReturned None ->
     GetState (mutableDB (coll s)) LegacyERC20ETHAddr getOVMETHTotalSupplySlot = 0).
End Progress.

(** ** Notions of the further properties *)

Section FurtherNotions.
Context `{Externals}.

(** Where an entry of the index comes from: a Balance key is the balance key
    of an address of [addrs], an Allowance key the key of an allowance of
    [alls], recorded with its owner. *)
Definition index_entry_source (addrs : list Address) (alls : list Allowance)
    (idx : gmap Z Z * gmap Z Z) (key : Hash) : Prop :=
  match idx.2 !! key, idx.1 !! key with
  | None, None => True
  | Some slotType, Some addr =>
      (slotType = BalanceSlot /\ key = CalcOVMETHStorageKey addr /\ addr ∈ addrs) \/
      (slotType = AllowanceSlot /\
       exists al, al ∈ alls /\ addr = From al /\
         key = CalcAllowanceStorageKey (From al) (To al))
  | _, _ => False
  end.

(** The two errors a worker sends. *)
Definition scan_error (err : string) : Prop :=
  (exists key, err = "unknown storage slot in state: " +:+ Hash_String key) \/
  (exists addr,
     err = "account has non-zero balance in state - should never happen: "
             +:+ Address_String addr).

(** What the collector may have done to the store [mdb] it was given: the
    accounts seen are among [allowed], the other balances are untouched, and
    so are the storage of every other contract and the storage tries; a slot
    of the legacy contract is as it was or zero. *)
Definition store_frame (mdb : StateDB) (allowed : Address -> Prop)
    (st : collector) : Prop :=
  (forall a, a ∈ seenAccounts st -> allowed a) /\
  (forall a, a ∉ seenAccounts st ->
     GetBalance (mutableDB st) a = GetBalance mdb a) /\
  (forall addr k, addr <> LegacyERC20ETHAddr ->
     GetState (mutableDB st) addr k = GetState mdb addr k) /\
  (forall k, GetState (mutableDB st) LegacyERC20ETHAddr k
               = GetState mdb LegacyERC20ETHAddr k \/
             GetState (mutableDB st) LegacyERC20ETHAddr k = 0) /\
  db_trie (mutableDB st) = db_trie mdb.

(** The workers blocked sending hold candidates of the index. *)
Definition senders_emitted (cfg : config) (s : state) : Prop :=
  forall i end_ db c it,
    workers s !! i = Some (WSend end_ db c it) -> emitted cfg c.

(** The candidate [c] was read off a leaf of [leaves] by the worker of a
    partition the leaf lies in. *)
Definition scanned_in (cfg : config) (db : StateDB) (leaves : list trie_entry)
    (c : accountData) : Prop :=
  exists (i : nat) start end_ e,
    partition_range (Z.of_nat i) checkJobs = Some (start, end_) /\
    e ∈ leaves /\ start <= leaf_key e <= end_ /\
    scan cfg db end_ e = ESend c.

(** Worker [i] is on partition [i]: the leaves ahead of it are leaves of the
    trie from the start of the partition on, and the candidate it is sending
    is one of a leaf inside the partition. *)
Definition worker_in_range (cfg : config) (db : StateDB)
    (leaves : list trie_entry) (i : nat) (w : wstate) : Prop :=
  exists start end_,
    partition_range (Z.of_nat i) checkJobs = Some (start, end_) /\
    match w with
    | WStart start' end' => start' = start /\ end' = end_
    | WLoop end' db' it =>
        end' = end_ /\ db' = db /\ sorted_leaves it /\
        (forall e, e ∈ it -> e ∈ leaves /\ start <= leaf_key e)
    | WSend end' db' c it =>
        end' = end_ /\ db' = db /\ sorted_leaves it /\
        (forall e, e ∈ it -> e ∈ leaves /\ start <= leaf_key e) /\
        exists e, e ∈ leaves /\ start <= leaf_key e <= end_ /\
          scan cfg db end_ e = ESend c
    | WDone => True
    end.
End FurtherNotions.


(** How many workers have returned. *)
Definition count_done (ws : list wstate) : nat :=
  length (filter (fun w => is_done w = true) ws).

(** Whether a call of [doMigration] has returned. *)
Definition is_returned (c : call) : bool :=
  match c with
  | Returned _ _ => true
  | _ => false
  end.

(** The total found is the sum of the balances the store holds for the
    accounts seen. *)
Definition balanced (st : collector) : Prop :=
  totalFound st = sumZ (GetBalance (mutableDB st) <$> elements (seenAccounts st)).

(** The collector after the caller has cleared the total supply. *)
Definition supply_cleared `{Externals} (st : collector) : collector :=
  mkCollector (seenAccounts st) (totalFound st) (count st)
    (SetState (mutableDB st) LegacyERC20ETHAddr getOVMETHTotalSupplySlot 0).

(** ** Arithmetic of the partition *)

Lemma maxSlot_eq : maxSlot = 2 ^ 256 - 1.
Proof. reflexivity. Qed.

Lemma wrap_int_id x : is_int x -> wrap_int x = x.
Proof.
  unfold is_int, int_min, int_max, wrap_int. intros H.
  rewrite Z.mod_small; lia.
Qed.

Lemma BigToHash_small x : 0 <= x <= maxSlot -> BigToHash x = x.
Proof.
  intros H. unfold BigToHash, hash_modulus. rewrite maxSlot_eq in H.
  rewrite Z.abs_eq by lia. apply Z.mod_small. lia.
Qed.


Lemma partSize_bounds count :
  1 <= count <= int_max ->
  1 <= partSize_of count /\ count * partSize_of count <= maxSlot.
Proof.
  intros [H1 H2]. unfold partSize_of. split.
  - apply Z.div_le_lower_bound; [lia|].
    unfold int_max in H2. rewrite maxSlot_eq. lia.
  - apply Z.mul_div_le. lia.
Qed.

Lemma PartitionKeyspace_valid i count :
  is_int count -> 0 <= i < count ->
  PartitionKeyspace i count =
    Returns (i * partSize_of count,
             if i <? count - 1 then (i + 1) * partSize_of count else maxSlot).
Proof.
  intros Hc Hi. unfold PartitionKeyspace.
  assert (Hc1 : is_int (count - 1)) by (unfold is_int, int_min, int_max in *; lia).
  assert (Hi1 : i < count - 1 -> is_int (i + 1))
    by (unfold is_int, int_min, int_max in *; lia).
  unfold int_sub. rewrite (wrap_int_id _ Hc1).
  replace ((i <? 0) || (count <? 0)) with false
    by (symmetry; apply orb_false_iff; split; apply Z.ltb_ge; lia).
  replace (i >? count - 1) with false by (symmetry; rewrite Z.gtb_ltb; apply Z.ltb_ge; lia).
  unfold big_Div, Hash_Big.
  replace (count =? 0) with false by (symmetry; apply Z.eqb_neq; lia).
  replace (0 <? count) with true by (symmetry; apply Z.ltb_lt; lia).
  fold (partSize_of count).
  destruct (partSize_bounds count) as [Hp1 Hp2];
    [unfold is_int in Hc; lia|].
  f_equal. f_equal.
  - apply BigToHash_small. nia.
  - destruct (i <? count - 1) eqn:E; [|reflexivity].
    apply Z.ltb_lt in E. unfold int_add. rewrite (wrap_int_id _ (Hi1 E)).
    apply BigToHash_small. nia.
Qed.

Lemma PartitionKeyspace_invalid i count :
  is_int i -> is_int count ->
  i < 0 \/ count < 0 \/ i >= count ->
  exists msg, PartitionKeyspace i count = Panics msg.
Proof.
  intros Hi Hc Hbad. unfold PartitionKeyspace.
  destruct ((i <? 0) || (count <? 0)) eqn:E; [eauto|].
  apply orb_false_iff in E as [E1 E2].
  apply Z.ltb_ge in E1. apply Z.ltb_ge in E2.
  assert (Hc1 : is_int (count - 1)) by (unfold is_int, int_min, int_max in *; lia).
  unfold int_sub. rewrite (wrap_int_id _ Hc1).
  replace (i >? count - 1) with true
    by (symmetry; rewrite Z.gtb_ltb; apply Z.ltb_lt; lia).
  eauto.
Qed.

Lemma partition_range_valid i count :
  is_int count -> 0 <= i < count ->
  partition_range i count =
    Some (i * partSize_of count,
          if i <? count - 1 then (i + 1) * partSize_of count else maxSlot).
Proof.
  intros Hc Hi. unfold partition_range.
  by rewrite PartitionKeyspace_valid.
Qed.

Lemma partition_range_bounds i count r :
  1 <= count <= int_max -> 0 <= i < count ->
  partition_range i count = Some r ->
  r.1 = i * partSize_of count /\
  (i < count - 1 -> r.2 = (i + 1) * partSize_of count) /\
  (i = count - 1 -> r.2 = maxSlot) /\
  0 <= r.1 /\ r.1 <= r.2 /\ r.2 <= maxSlot.
Proof.
  intros Hc Hi Hr.
  assert (Hint : is_int count) by (unfold is_int, int_min, int_max in *; lia).
  rewrite (partition_range_valid _ _ Hint Hi) in Hr. injection Hr as <-.
  destruct (partSize_bounds count Hc) as [Hp1 Hp2]. simpl.
  destruct (i <? count - 1) eqn:E.
  - apply Z.ltb_lt in E. repeat split; try lia; nia.
  - apply Z.ltb_ge in E. repeat split; try lia; nia.
Qed.

(** C7: [PartitionKeyspace(i, count)] panics when [i] is negative, [count]
    is negative or [i >= count], and returns a range when [0 <= i < count]. *)
Theorem PartitionKeyspace_panics_or_returns (i count : Z) :
  is_int i -> is_int count ->
  (i < 0 \/ count < 0 \/ i >= count ->
     exists msg, PartitionKeyspace i count = Panics msg) /\
  (0 <= i < count ->
     exists start end_, PartitionKeyspace i count = Returns (start, end_)).
Proof.
  intros Hi Hc. split.
  - by apply PartitionKeyspace_invalid.
  - intros Hv. rewrite (PartitionKeyspace_valid _ _ Hc Hv). eauto.
Qed.

Lemma PartitionKeyspace_panics_or_returns_witness :
  (exists msg, PartitionKeyspace 1 1 = Panics msg) /\
  (exists msg, PartitionKeyspace (-1) 1 = Panics msg) /\
  (exists msg, PartitionKeyspace 0 (-1) = Panics msg) /\
  (exists start end_, PartitionKeyspace 1 3 = Returns (start, end_)).
Proof.
  assert (I : forall x, -10 <= x <= 10 -> is_int x)
    by (unfold is_int, int_min, int_max; lia).
  repeat split.
  - apply (PartitionKeyspace_panics_or_returns 1 1); [apply I; lia .. | lia].
  - apply (PartitionKeyspace_panics_or_returns (-1) 1); [apply I; lia .. | lia].
  - apply (PartitionKeyspace_panics_or_returns 0 (-1)); [apply I; lia .. | lia].
  - apply (PartitionKeyspace_panics_or_returns 1 3); [apply I; lia .. | lia].
Defined.

(** C1: for every [count >= 1] the ranges of the partitions [0 .. count-1]
    run from the all-zero key to [maxSlot] without a gap: each is a range
    inside the key space, partition 0 starts at 0, the last one ends at
    [maxSlot], the end of partition [i] is the start of partition [i+1],
    every key lies in some partition, and a key that lies in two different
    partitions is the boundary shared by two adjacent ones. *)
Theorem PartitionKeyspace_covers (count : Z) :
  1 <= count <= int_max ->
  (forall i, 0 <= i < count ->
     exists r, partition_range i count = Some r /\
               0 <= r.1 /\ r.1 <= r.2 /\ r.2 <= maxSlot) /\
  (exists r, partition_range 0 count = Some r /\ r.1 = 0) /\
  (exists r, partition_range (count - 1) count = Some r /\ r.2 = maxSlot) /\
  (forall i r r', 0 <= i -> i + 1 < count ->
     partition_range i count = Some r ->
     partition_range (i + 1) count = Some r' -> r.2 = r'.1) /\
  (forall k, 0 <= k <= maxSlot ->
     exists i r, 0 <= i < count /\ partition_range i count = Some r /\ in_range k r) /\
  (forall i j ri rj k, 0 <= i -> i < j -> j < count ->
     partition_range i count = Some ri -> partition_range j count = Some rj ->
     in_range k ri -> in_range k rj -> j = i + 1 /\ k = ri.2 /\ k = rj.1).
Proof.
  intros Hc.
  assert (Hint : is_int count) by (unfold is_int, int_min, int_max in *; lia).
  destruct (partSize_bounds count Hc) as [Hp1 Hp2].
  assert (Hex : forall i, 0 <= i < count -> exists r, partition_range i count = Some r)
    by (intros i Hi; rewrite (partition_range_valid _ _ Hint Hi); eauto).
  split; [|split; [|split; [|split; [|split]]]].
  - intros i Hi. destruct (Hex i Hi) as [r Hr]. exists r. split; [done|].
    destruct (partition_range_bounds i count r Hc Hi Hr) as (_ & _ & _ & ? & ? & ?).
    done.
  - assert (H0 : 0 <= 0 < count) by lia.
    destruct (Hex 0 H0) as [r Hr]. exists r. split; [done|].
    destruct (partition_range_bounds 0 count r Hc H0 Hr) as (-> & _). lia.
  - assert (Hl : 0 <= count - 1 < count) by lia.
    destruct (Hex (count - 1) Hl) as [r Hr]. exists r. split; [done|].
    destruct (partition_range_bounds (count - 1) count r Hc Hl Hr)
      as (_ & _ & Hlast & _).
    by apply Hlast.
  - intros i r r' Hi Hi' Hr Hr'.
    assert (H1 : 0 <= i < count) by lia.
    assert (H2 : 0 <= i + 1 < count) by lia.
    destruct (partition_range_bounds i count r Hc H1 Hr) as (_ & He & _).
    destruct (partition_range_bounds (i + 1) count r' Hc H2 Hr') as (Hs & _).
    rewrite He, Hs by lia. done.
  - intros k Hk.
    set (p := partSize_of count) in *.
    destruct (Z_lt_le_dec (k / p) (count - 1)) as [Hlt|Hge].
    + assert (Hi : 0 <= k / p < count) by (split; [apply Z.div_pos|]; lia).
      destruct (Hex _ Hi) as [r Hr]. exists (k / p), r.
      destruct (partition_range_bounds _ count r Hc Hi Hr) as (Hs & He & _).
      fold p in Hs, He. unfold in_range. rewrite Hs, He by lia.
      pose proof (Z.mul_div_le k p ltac:(lia)).
      pose proof (Z.mul_succ_div_gt k p ltac:(lia)).
      repeat split; try done; lia.
    + assert (Hi : 0 <= count - 1 < count) by lia.
      destruct (Hex _ Hi) as [r Hr]. exists (count - 1), r.
      destruct (partition_range_bounds _ count r Hc Hi Hr) as (Hs & _ & He & _).
      fold p in Hs. unfold in_range. rewrite Hs, He by lia.
      pose proof (Z.mul_div_le k p ltac:(lia)).
      repeat split; try done; try lia; nia.
  - intros i j ri rj k Hi Hij Hj Hri Hrj Hki Hkj.
    assert (H1 : 0 <= i < count) by lia.
    assert (H2 : 0 <= j < count) by lia.
    destruct (partition_range_bounds i count ri Hc H1 Hri) as (_ & He & _).
    destruct (partition_range_bounds j count rj Hc H2 Hrj) as (Hs & _).
    unfold in_range in *. rewrite He in * by lia. rewrite Hs in *.
    assert (j = i + 1) by nia. subst j. lia.
Qed.

Lemma PartitionKeyspace_covers_witness :
  1 <= checkJobs <= int_max /\
  (exists r, partition_range 0 checkJobs = Some r /\ r.1 = 0) /\
  (exists r, partition_range (checkJobs - 1) checkJobs = Some r /\ r.2 = maxSlot) /\
  (exists i r, 0 <= i < checkJobs /\ partition_range i checkJobs = Some r /\
               in_range (3 * 2 ^ 250) r).
Proof.
  assert (Hc : 1 <= checkJobs <= int_max) by (unfold checkJobs, int_max; lia).
  split; [exact Hc|].
  destruct (PartitionKeyspace_covers checkJobs Hc) as (_ & H0 & Hl & _ & Hcov & _).
  split; [exact H0|]. split; [exact Hl|].
  apply Hcov. rewrite maxSlot_eq. lia.
Defined.

(** ** The collector *)

Lemma collect_seen st c :
  address c ∈ seenAccounts st -> collect st c = st.
Proof. intros Hin. unfold collect. by rewrite bool_decide_eq_true_2. Qed.

Lemma collect_fresh st c :
  address c ∉ seenAccounts st ->
  collect st c =
    mkCollector ({[address c]} ∪ seenAccounts st)
      (totalFound st + balance c) (int_add (count st) 1)
      (SetState (SetBalance (mutableDB st) (address c) (balance c))
         LegacyERC20ETHAddr (legacySlot c) 0).
Proof. intros Hin. unfold collect. by rewrite bool_decide_eq_false_2. Qed.

Lemma collect_all_nil st : collect_all st [] = st.
Proof. reflexivity. Qed.

Lemma collect_all_cons st c cands :
  collect_all st (c :: cands) = collect_all (collect st c) cands.
Proof. reflexivity. Qed.

Lemma collect_all_app st l1 l2 :
  collect_all st (l1 ++ l2) = collect_all (collect_all st l1) l2.
Proof. unfold collect_all. apply fold_left_app. Qed.

Lemma seen_collect st c :
  seenAccounts (collect st c) = {[address c]} ∪ seenAccounts st.
Proof.
  destruct (decide (address c ∈ seenAccounts st)) as [Hin|Hin].
  - rewrite collect_seen by done. set_solver.
  - by rewrite collect_fresh.
Qed.

Lemma seen_collect_all cands : forall st,
  seenAccounts (collect_all st cands) =
    list_to_set ((address <$> cands)) ∪ seenAccounts st.
Proof.
  induction cands as [|c cands IH]; intros st; csimpl.
  - set_solver.
  - rewrite collect_all_cons, IH, seen_collect. set_solver.
Qed.


Lemma applications_fresh cands : forall st c,
  c ∈ applications st cands -> address c ∉ seenAccounts st.
Proof.
  induction cands as [|c' cands IH]; intros st c; csimpl.
  - by intros ?%elem_of_nil.
  - case_bool_decide as Hin.
    + rewrite (collect_seen _ _ Hin). apply IH.
    + intros [->|Hc]%elem_of_cons; [done|].
      apply IH in Hc. rewrite seen_collect in Hc. set_solver.
Qed.

Lemma applications_NoDup cands : forall st,
  NoDup ((address <$> applications st cands)).
Proof.
  induction cands as [|c cands IH]; intros st; csimpl.
  - constructor.
  - case_bool_decide as Hin; [apply IH|].
    csimpl. constructor; [|apply IH].
    intros (c' & Heq & Hc')%list_elem_of_fmap.
    apply applications_fresh in Hc'. rewrite seen_collect in Hc'.
    rewrite Heq in Hc'. set_solver.
Qed.

Lemma applications_addresses cands : forall st,
  (list_to_set ((address <$> applications st cands)) : gset Z) ∪ seenAccounts st =
    list_to_set ((address <$> cands)) ∪ seenAccounts st.
Proof.
  induction cands as [|c cands IH]; intros st; csimpl; [done|].
  case_bool_decide as Hin.
  - rewrite (collect_seen _ _ Hin). rewrite IH. set_solver.
  - csimpl. specialize (IH (collect st c)). rewrite seen_collect in IH.
    generalize dependent (list_to_set (address <$> applications (collect st c) cands) : gset Z).
    generalize (list_to_set (address <$> cands) : gset Z).
    intros X Y HXY. set_unfold. intros x. specialize (HXY x). tauto.
Qed.




(** The candidate applied for an address is the first one delivered. *)
Lemma applications_first cands : forall st c,
  c ∈ applications st cands -> first_balance (address c) cands = balance c.
Proof.
  induction cands as [|c' cands IH]; intros st c; csimpl.
  - by intros ?%elem_of_nil.
  - case_bool_decide as Hin.
    + rewrite (collect_seen _ _ Hin). intros Hc.
      pose proof (applications_fresh _ _ _ Hc) as Hfresh.
      rewrite bool_decide_eq_false_2 by congruence. by apply (IH st).
    + intros [->|Hc]%elem_of_cons.
      * by rewrite bool_decide_eq_true_2.
      * pose proof (applications_fresh _ _ _ Hc) as Hfresh.
        rewrite seen_collect in Hfresh.
        rewrite bool_decide_eq_false_2 by set_solver. by apply (IH (collect st c')).
Qed.

Lemma totalFound_collect_all cands : forall st,
  totalFound (collect_all st cands) =
    totalFound st + sumZ ((balance <$> applications st cands)).
Proof.
  induction cands as [|c cands IH]; intros st; csimpl.
  - rewrite collect_all_nil. unfold sumZ. csimpl. lia.
  - rewrite collect_all_cons, IH. case_bool_decide as Hin.
    + by rewrite (collect_seen _ _ Hin).
    + rewrite collect_fresh by done. unfold sumZ. csimpl. lia.
Qed.

Lemma wrap_int_add x y : wrap_int (wrap_int x + y) = wrap_int (x + y).
Proof.
  unfold wrap_int.
  replace ((x + 2 ^ 63) mod 2 ^ 64 - 2 ^ 63 + y + 2 ^ 63)
    with ((x + 2 ^ 63) mod 2 ^ 64 + y) by lia.
  replace (x + y + 2 ^ 63) with ((x + 2 ^ 63) + y) by lia.
  by rewrite Zplus_mod_idemp_l.
Qed.

Lemma wrap_int_idemp x : wrap_int (wrap_int x) = wrap_int x.
Proof.
  pose proof (wrap_int_add x 0) as Hw. by rewrite !Z.add_0_r in Hw.
Qed.

Lemma count_collect_all cands : forall st,
  wrap_int (count st) = count st ->
  count (collect_all st cands) =
    wrap_int (count st + Z.of_nat (length (applications st cands))).
Proof.
  induction cands as [|c cands IH]; intros st Hw; csimpl.
  - rewrite collect_all_nil, Z.add_0_r. done.
  - rewrite collect_all_cons. case_bool_decide as Hin.
    + rewrite (collect_seen _ _ Hin). by apply IH.
    + rewrite IH.
      * rewrite collect_fresh by done. csimpl. unfold int_add.
        rewrite wrap_int_add. f_equal. lia.
      * rewrite collect_fresh by done. csimpl. unfold int_add.
        apply wrap_int_idemp.
Qed.

Lemma length_applications cands : forall st,
  (length (applications st cands) <= length cands)%nat.
Proof.
  induction cands as [|c cands IH]; intros st; csimpl; [lia|].
  case_bool_decide; csimpl; specialize (IH (collect st c)); lia.
Qed.

Lemma sumZ_Permutation l1 l2 : l1 ≡ₚ l2 -> sumZ l1 = sumZ l2.
Proof.
  unfold sumZ. induction 1; csimpl; lia.
Qed.

(** From an empty collector: the accounts seen are those applied. *)
Lemma elements_seen db cands :
  elements (seenAccounts (collect_all (new_collector db) cands)) ≡ₚ
    (address <$> applications (new_collector db) cands).
Proof.
  rewrite seen_collect_all.
  pose proof (applications_addresses cands (new_collector db)) as Heq.
  csimpl in Heq. csimpl. rewrite <- Heq.
  rewrite union_empty_r_L.
  apply elements_list_to_set, applications_NoDup.
Qed.



(** C10: after the collector has consumed any sequence of candidates, [count]
    is the number of addresses in [seenAccounts] and [totalFound] is the sum,
    over the addresses seen, of the balance of the first candidate delivered
    for the address.  [count] is a Go [int]: the sequence is taken to be
    shorter than 2^63. *)
Theorem collector_count_and_total (db : StateDB) (cands : list accountData) :
  Z.of_nat (length cands) <= int_max ->
  let st := collect_all (new_collector db) cands in
  seenAccounts st = list_to_set (address <$> cands) /\
  count st = Z.of_nat (size (seenAccounts st)) /\
  totalFound st =
    sumZ ((fun a => first_balance a cands) <$> elements (seenAccounts st)).
Proof.
  intros Hlen st. subst st.
  pose proof (elements_seen db cands) as Hperm.
  split; [|split].
  - rewrite seen_collect_all. simpl. by rewrite union_empty_r_L.
  - rewrite count_collect_all by reflexivity.
    unfold size, set_size. simpl. rewrite Hperm, length_fmap. simpl.
    pose proof (length_applications cands (new_collector db)).
    apply wrap_int_id. unfold is_int, int_min, int_max in *. lia.
  - rewrite totalFound_collect_all. simpl.
    rewrite (sumZ_Permutation _ _ (fmap_Permutation _ _ _ Hperm)).
    rewrite <- list_fmap_compose. rewrite Z.add_0_l. f_equal.
    apply list_fmap_ext. intros i c Hc. simpl.
    symmetry. apply (applications_first cands (new_collector db)).
    by eapply list_elem_of_lookup_2.
Qed.

Lemma collector_count_and_total_witness :
  let db := mkStateDB ∅ ∅ ∅ in
  let cands := [mkAccountData 1 100 0x123; mkAccountData 2 200 0x456;
                mkAccountData 7 100 0x123] in
  let st := collect_all (new_collector db) cands in
  count st = Z.of_nat (size (seenAccounts st)) /\
  totalFound st =
    sumZ ((fun a => first_balance a cands) <$> elements (seenAccounts st)).
Proof.
  intros db cands.
  apply (collector_count_and_total db cands). unfold int_max. simpl. lia.
Defined.

(** ** The expectation index *)

Section IndexFacts.
Context `{Externals}.

Lemma index_entry_ok_empty key : index_entry_ok (∅, ∅) key.
Proof. unfold index_entry_ok. simpl. by rewrite !lookup_empty. Qed.

Lemma add_address_ok acc addr :
  (forall key, index_entry_ok acc key) ->
  forall key, index_entry_ok (add_address acc addr) key.
Proof.
  intros Hacc key. specialize (Hacc key).
  unfold index_entry_ok, add_address in *. simpl.
  destruct (decide (CalcOVMETHStorageKey addr = key)) as [<-|Hne].
  - rewrite !lookup_insert_eq. by left.
  - by rewrite !lookup_insert_ne.
Qed.

Lemma add_allowance_ok acc al :
  (forall key, index_entry_ok acc key) ->
  forall key, index_entry_ok (add_allowance acc al) key.
Proof.
  intros Hacc key. specialize (Hacc key).
  unfold index_entry_ok, add_allowance in *. simpl.
  destruct (decide (CalcAllowanceStorageKey (From al) (To al) = key)) as [<-|Hne].
  - rewrite !lookup_insert_eq. right. eauto.
  - by rewrite !lookup_insert_ne.
Qed.

Lemma fold_add_address_ok addresses : forall acc,
  (forall key, index_entry_ok acc key) ->
  forall key, index_entry_ok (fold_left add_address addresses acc) key.
Proof.
  induction addresses as [|a l IH]; intros acc Hacc; simpl; [done|].
  apply IH. by apply add_address_ok.
Qed.

Lemma fold_add_allowance_ok allowances : forall acc,
  (forall key, index_entry_ok acc key) ->
  forall key, index_entry_ok (fold_left add_allowance allowances acc) key.
Proof.
  induction allowances as [|a l IH]; intros acc Hacc; simpl; [done|].
  apply IH. by apply add_allowance_ok.
Qed.

(** The two maps have the same keys; a Balance key is the balance key of
    its address, an Allowance key an allowance key of its owner. *)
Lemma build_index_ok addresses allowances key :
  index_entry_ok (build_index addresses allowances) key.
Proof.
  unfold build_index. apply add_address_ok.
  apply fold_add_allowance_ok, fold_add_address_ok, index_entry_ok_empty.
Qed.

Lemma index_slot_type idx key slotType :
  index_entry_ok idx key -> idx.2 !! key = Some slotType ->
  exists addr, idx.1 !! key = Some addr /\
    ((slotType = BalanceSlot /\ key = CalcOVMETHStorageKey addr) \/
     (slotType = AllowanceSlot /\ exists to, key = CalcAllowanceStorageKey addr to)).
Proof.
  unfold index_entry_ok. intros Hok Hk. rewrite Hk in Hok.
  destruct (idx.1 !! key) as [addr|]; [eauto|done].
Qed.

Lemma index_unknown idx key :
  index_entry_ok idx key -> idx.2 !! key = None -> idx.1 !! key = None.
Proof.
  unfold index_entry_ok. intros Hok Hk. rewrite Hk in Hok.
  by destruct (idx.1 !! key).
Qed.
End IndexFacts.

(** ** The loop body *)

Section WorkerFacts.
Context `{Externals}.

Lemma classify_known noCheck slotType key addr content :
  slotType = BalanceSlot \/ slotType = AllowanceSlot ->
  classify noCheck slotType key addr content =
    ([], classified_as slotType key addr content).
Proof.
  intros [-> | ->]; reflexivity.
Qed.

(** The loop body up to the lookup in the index, for a classified leaf. *)
Lemma scan_entry_classified noCheck slotsAddrs slotsInp db end_ e key content :
  classified end_ e key content ->
  scan_entry noCheck slotsAddrs slotsInp db end_ e =
    match slotsInp !! key with
    | None =>
        if noCheck then
          let r := lookup_address noCheck slotsAddrs db 0 key content in
          ((LvlError, "ignoring unknown storage slot in state") :: r.1, r.2)
        else ([], EError ("unknown storage slot in state: " +:+ Hash_String key))
    | Some slotType => lookup_address noCheck slotsAddrs db slotType key content
    end.
Proof.
  intros (Hend & Hval & (rawKey & Hpre & ->) & Hsplit & Hign).
  unfold scan_entry.
  replace (SetBytes (it_Key e) >? Hash_Big end_) with false
    by (symmetry; rewrite Z.gtb_ltb; apply Z.ltb_ge; lia).
  destruct (it_Value e) as [|b v] eqn:Hv; [done|]. simpl length.
  replace (S (length v) =? 0)%nat with false by done.
  rewrite Hpre, Hsplit. rewrite bool_decide_eq_false_2 by done. done.
Qed.
End WorkerFacts.

Section EntryTheorems.
Context `{Externals}.

Lemma check_balance_known noCheck db slotType key addr content :
  slotType = BalanceSlot \/ slotType = AllowanceSlot ->
  check_balance noCheck db slotType key addr content =
    if decide (GetBalance db addr = 0)
    then ([], classified_as slotType key addr content)
    else if noCheck
    then ([(LvlError, "account has non-zero balance in state - should never happen")],
          classified_as slotType key addr content)
    else ([(LvlError, "account has non-zero balance in state - should never happen")],
          EError ("account has non-zero balance in state - should never happen: "
                    +:+ Address_String addr)).
Proof.
  intros Hty. unfold check_balance. rewrite (classify_known _ _ _ _ _ Hty).
  case_decide as Hbal.
  - rewrite Hbal. reflexivity.
  - replace (Z.sgn (GetBalance db addr) =? 0) with false
      by (symmetry; apply Z.eqb_neq; by rewrite Z.sgn_null_iff).
    by destruct noCheck.
Qed.

(** C6, as the code has it: for a classified leaf whose key is in the index,
    of kind Balance or Allowance alike, the worker reads the balance of the
    owning address through its own handle on the state.  If it is not zero,
    strict mode logs, sends the integrity error and returns, and relaxed
    mode logs and goes on; going on, or with a zero balance, a Balance leaf
    is sent to the collector and an Allowance leaf is skipped. *)
Theorem integrity_check_of_known_entry (noCheck : bool)
    (addresses : list Address) (allowances : list Allowance) (db : StateDB)
    (end_ : Hash) (e : trie_entry) (key : Hash) (content : list byte)
    (slotType : Z) :
  let idx := build_index addresses allowances in
  classified end_ e key content ->
  idx.2 !! key = Some slotType ->
  exists addr, idx.1 !! key = Some addr /\
    (slotType = BalanceSlot \/ slotType = AllowanceSlot) /\
    let r := scan_entry noCheck idx.1 idx.2 db end_ e in
    let logged := [(LvlError, "account has non-zero balance in state - should never happen")] in
    (GetBalance db addr <> 0 -> noCheck = false ->
       r = (logged,
            EError ("account has non-zero balance in state - should never happen: "
                      +:+ Address_String addr))) /\
    (GetBalance db addr <> 0 -> noCheck = true ->
       r = (logged, classified_as slotType key addr content)) /\
    (GetBalance db addr = 0 ->
       r = ([], classified_as slotType key addr content)).
Proof.
  intros idx Hcl Hk.
  destruct (index_slot_type idx key slotType (build_index_ok _ _ _) Hk)
    as (addr & Ha & Hty).
  exists addr. split; [done|].
  assert (Hty' : slotType = BalanceSlot \/ slotType = AllowanceSlot)
    by (destruct Hty as [[? _]|[? _]]; auto).
  split; [done|]. intros r logged. subst r.
  rewrite (scan_entry_classified _ _ _ _ _ _ _ _ Hcl), Hk.
  unfold lookup_address. rewrite Ha.
  rewrite (check_balance_known _ _ _ _ _ _ Hty').
  repeat split.
  - intros Hb ->. by rewrite decide_False.
  - intros Hb ->. by rewrite decide_False.
  - intros Hb. by rewrite decide_True.
Qed.

(** C3, on the code: in relaxed mode a classified leaf whose key is not in
    the index is logged as ignored, and then the lookup of its address, which
    misses as well, ends the process through [log.Crit]. *)
Theorem relaxed_unknown_slot_is_fatal (addresses : list Address)
    (allowances : list Allowance) (db : StateDB) (end_ : Hash)
    (e : trie_entry) (key : Hash) (content : list byte) :
  let idx := build_index addresses allowances in
  classified end_ e key content ->
  idx.2 !! key = None ->
  scan_entry true idx.1 idx.2 db end_ e =
    ([(LvlError, "ignoring unknown storage slot in state");
      (LvlCrit, "could not find address in map - should never happen")],
     ECrit "could not find address in map - should never happen").
Proof.
  intros idx Hcl Hk.
  rewrite (scan_entry_classified _ _ _ _ _ _ _ _ Hcl), Hk.
  unfold lookup_address.
  by rewrite (index_unknown idx key (build_index_ok _ _ _) Hk).
Qed.

(** In strict mode the same leaf sends the classification error. *)
Lemma strict_unknown_slot_is_error (addresses : list Address)
    (allowances : list Allowance) (db : StateDB) (end_ : Hash)
    (e : trie_entry) (key : Hash) (content : list byte) :
  let idx := build_index addresses allowances in
  classified end_ e key content ->
  idx.2 !! key = None ->
  scan_entry false idx.1 idx.2 db end_ e =
    ([], EError ("unknown storage slot in state: " +:+ Hash_String key)).
Proof.
  intros idx Hcl Hk.
  by rewrite (scan_entry_classified _ _ _ _ _ _ _ _ Hcl), Hk.
Qed.

(** Relaxed mode never sends an error. *)
Lemma scan_entry_relaxed_no_error slotsAddrs slotsInp db end_ e err :
  (scan_entry true slotsAddrs slotsInp db end_ e).2 <> EError err.
Proof.
  unfold scan_entry, lookup_address, check_balance, classify.
  repeat case_match; simpl; try discriminate.
Qed.
End EntryTheorems.

(** ** Runs of the migration *)

Section RunFacts.
Context `{Externals}.

Lemma step_transition cfg l s s' :
  step cfg l s = Some s' -> transition cfg l s s'.
Proof.
  unfold step. destruct (crashed s) eqn:Hcr; [done|].
  destruct l as [i|i| | | |].
  - unfold worker_step.
    destruct (workers s !! i) as [[start end_|end_ db it|? ? ? ?|]|] eqn:Hw; try done.
    + destruct (cfg_dbFactory cfg) as [db|] eqn:Hf.
      * destruct (StorageTrie db LegacyERC20ETHAddr) eqn:Ht; intros [= <-].
        -- by eapply T_crash.
        -- by eapply T_crash.
        -- by eapply T_open.
      * intros [= <-]. by eapply T_crash.
    + destruct it as [|e rest].
      * intros [= <-]. by eapply T_exhausted.
      * destruct (cancelCh s) eqn:Hc.
        -- intros [= <-]. by eapply T_cancelled.
        -- destruct (scan_entry _ _ _ _ _ _) as [logged r] eqn:Hscan. simpl.
           destruct r; intros [= <-].
           ++ by eapply T_beyond.
           ++ by eapply T_skip.
           ++ by eapply T_crash.
           ++ by eapply T_error.
           ++ by eapply T_offer.
  - unfold recv_step. destruct (collecting s) eqn:Hcol; [|done].
    destruct (workers s !! i) as [[| |end_ db c rest|]|] eqn:Hw; try done.
    intros [= <-]. by eapply T_recv.
  - unfold err_step. destruct (collecting s) eqn:Hcol; [|done].
    destruct (errCh s) as [|err rest] eqn:He; [done|].
    intros [= <-]. by eapply T_err.
  - unfold cancel_step. destruct (collecting s) eqn:Hcol; [|done].
    destruct (cancelCh s) eqn:Hc; [|done]. simpl.
    intros [= <-]. by eapply T_cancel.
  - unfold close_step. destruct (main s) eqn:Hm; try done.
    destruct (forallb is_done (workers s)) eqn:Hd; [|done].
    intros [= <-]. by eapply T_close.
  - unfold finish_step. destruct (main s) eqn:Hm; try done.
    destruct (collecting s) eqn:Hcol; [done|].
    destruct (lastErr s) as [err|] eqn:Hl.
    + intros [= <-]. by eapply T_return_kept.
    + destruct (cfg_dbFactory cfg) as [db|] eqn:Hf.
      * destruct (supply_check _ _ _ _) as [logged [err|]] eqn:Hs; simpl;
          intros [= <-].
        -- by eapply T_return_mismatch.
        -- by eapply T_return_ok.
      * intros [= <-]. by eapply T_crash.
Qed.

Lemma exec_app cfg ls1 : forall ls2 s,
  exec cfg (ls1 ++ ls2) s =
    match exec cfg ls1 s with
    | Some s' => exec cfg ls2 s'
    | None => None
    end.
Proof.
  induction ls1 as [|l ls1 IH]; intros ls2 s; simpl; [done|].
  destruct (step cfg l s); [apply IH|done].
Qed.

(** A property that holds at the start and that every move keeps holds after
    every schedule. *)
Lemma exec_invariant cfg (P : state -> Prop) :
  (forall l s s', P s -> transition cfg l s s' -> P s') ->
  forall ls s s', P s -> exec cfg ls s = Some s' -> P s'.
Proof.
  intros Hstep ls. induction ls as [|l ls IH]; intros s s' Hs; simpl.
  - by intros [= <-].
  - destruct (step cfg l s) as [s1|] eqn:Hl; [|done].
    apply IH. eapply Hstep; [done|]. by apply step_transition.
Qed.

Lemma all_done_lookup ws i w :
  forallb is_done ws = true -> ws !! i = Some w -> w = WDone.
Proof.
  intros Hall Hw. rewrite forallb_forall in Hall.
  assert (Hin : In w ws) by (apply list_elem_of_In; by eapply list_elem_of_lookup_2).
  specialize (Hall w Hin). by destruct w.
Qed.

Lemma once_cancel_fields s err :
  workers (once_cancel s err) = workers s /\
  errCh (once_cancel s err) = errCh s /\
  coll (once_cancel s err) = coll s /\
  collecting (once_cancel s err) = collecting s /\
  main (once_cancel s err) = main s /\
  crashed (once_cancel s err) = crashed s.
Proof. unfold once_cancel. by destruct (cancelOnce s). Qed.

Lemma caller_inv_step cfg l s s' :
  caller_inv cfg s -> transition cfg l s s' -> caller_inv cfg s'.
Proof.
  intros Hinv Ht Hcr'.
  destruct Ht;
    try (specialize (Hinv ltac:(done)) as [Hdone Hret]);
    try congruence.
  all: try (split;
    [ intros Hm; simpl in Hm; specialize (Hdone Hm);
      by match goal with Hw : workers _ !! _ = Some _ |- _ =>
        pose proof (all_done_lookup _ _ _ Hdone Hw) end
    | intros r Hm; simpl in Hm;
      assert (Hm' : main s <> MWait) by congruence;
      specialize (Hdone Hm');
      by match goal with Hw : workers _ !! _ = Some _ |- _ =>
        pose proof (all_done_lookup _ _ _ Hdone Hw) end ]).
  - (* LErr *)
    destruct (once_cancel_fields (set_errCh s rest) (Some err))
      as (Hw & _ & _ & Hcol & Hm & _).
    split.
    + rewrite Hw, Hm. simpl. exact Hdone.
    + intros r. rewrite Hm. simpl. intros Hr.
      destruct (Hret r Hr) as [Hc _]. congruence.
  - (* LCancel *)
    split; [exact Hdone|]. simpl. intros r Hr.
    destruct (Hret r Hr) as [Hc _]. congruence.
  - (* LClose *)
    destruct (once_cancel_fields s None) as (Hw & _).
    split; simpl; [by rewrite Hw|done].
  - (* return of the kept error *)
    split; simpl.
    + intros _. apply Hdone. congruence.
    + intros r [= <-]. split; [done|]. unfold return_value. simpl.
      by match goal with Hl : lastErr _ = _ |- _ => rewrite Hl end.
  - split; simpl.
    + intros _. apply Hdone. congruence.
    + intros r [= <-]. split; [done|]. unfold return_value. simpl.
      repeat match goal with Hl : _ = _ |- _ => rewrite Hl end.
      eexists. split; [done|].
      by match goal with Hl : supply_check _ _ _ _ = _ |- _ => rewrite Hl end.
  - split; simpl.
    + intros _. apply Hdone. congruence.
    + intros r [= <-]. split; [done|]. unfold return_value. simpl.
      repeat match goal with Hl : _ = _ |- _ => rewrite Hl end.
      eexists. split; [done|].
      by match goal with Hl : supply_check _ _ _ _ = _ |- _ => rewrite Hl end.
Qed.
End RunFacts.

Section RunTheorems.
Context `{Externals}.

Lemma doMigration_start mdb dbFactory addresses allowances expDiff noCheck cfg s :
  doMigration mdb dbFactory addresses allowances expDiff noCheck = Returns (cfg, s) ->
  cfg = mkConfig noCheck (build_index addresses allowances).1
          (build_index addresses allowances).2 dbFactory expDiff /\
  exists ws, spawn (seqZ 0 checkJobs) = Returns ws /\
    s = mkState ws [] false false None (new_collector mdb) true MWait None [].
Proof.
  unfold doMigration. destruct (spawn _) as [ws|]; [|done].
  intros [= <- <-]. eauto.
Qed.

Lemma start_running mdb dbFactory addresses allowances expDiff noCheck ls c :
  after (start_doMigration mdb dbFactory addresses allowances expDiff noCheck) ls
    = Some c ->
  (exists msg, c = Panicked msg) \/
  exists cfg s s',
    doMigration mdb dbFactory addresses allowances expDiff noCheck = Returns (cfg, s) /\
    exec cfg ls s = Some s' /\
    match crashed s', main s' with
    | Some msg, _ => c = Exited msg
    | None, MReturned err => c = Returned err (mutableDB (coll s'))
    | None, _ => c = Running cfg s'
    end.
Proof.
  unfold start_doMigration.
  destruct (doMigration _ _ _ _ _ _) as [[cfg s]|msg] eqn:Hd; simpl.
  - destruct (exec cfg ls s) as [s'|] eqn:He; [|done].
    intros Hc. right. exists cfg, s, s'.
    split; [reflexivity|]. split; [exact He|]. clear Hd He.
    destruct (crashed s'); [by injection Hc|].
    destruct (main s'); by injection Hc.
  - destruct ls; [|done]. intros [= <-]. left. eauto.
Qed.

Lemma caller_inv_start mdb dbFactory addresses allowances expDiff noCheck cfg s :
  doMigration mdb dbFactory addresses allowances expDiff noCheck = Returns (cfg, s) ->
  caller_inv cfg s.
Proof.
  intros (-> & ws & _ & ->)%doMigration_start _. simpl. split; done.
Qed.

Lemma quiet_start mdb dbFactory addresses allowances expDiff noCheck cfg s :
  doMigration mdb dbFactory addresses allowances expDiff noCheck = Returns (cfg, s) ->
  quiet s.
Proof.
  intros (-> & ws & _ & ->)%doMigration_start _. simpl. split; done.
Qed.

Lemma quiet_step_relaxed cfg l s s' :
  cfg_noCheck cfg = true -> quiet s -> transition cfg l s s' -> quiet s'.
Proof.
  intros Hrelaxed Hq Ht Hcr'.
  destruct Ht; try (specialize (Hq ltac:(done)) as [Hch Hle]); try congruence;
    try (simpl; by split).
  - (* an error is sent *)
    rewrite Hrelaxed in *.
    match goal with Hs : scan_entry _ _ _ _ _ _ = _ |- _ =>
      pose proof (scan_entry_relaxed_no_error (cfg_slotsAddrs cfg)
                    (cfg_slotsInp cfg) db end_ e err) as Hno;
      rewrite Hs in Hno end.
    done.
  - (* the caller closes *)
    unfold once_cancel. destruct (cancelOnce s); simpl; by split.
Qed.

(** C8: when [ParamsByChainID] has no entry for [chainID], [MigrateBalances]
    returns the error at once: the database it was to write to is the one it
    was given, no goroutine exists and no move is left to make, in either
    mode. *)
Theorem MigrateBalances_without_params (mdb : StateDB) (dbFactory : DBFactory)
    (addresses : list Address) (allowances : list Allowance) (chainID : Z)
    (noCheck : bool) :
  ParamsByChainID !! chainID = None ->
  let c := MigrateBalances mdb dbFactory addresses allowances chainID noCheck in
  c = Returned (Some ("no chain params for " +:+ pretty chainID)) mdb /\
  forall ls c', after c ls = Some c' -> ls = [] /\ c' = c.
Proof.
  intros Hp c. subst c. unfold MigrateBalances. rewrite Hp. split; [done|].
  intros ls c'. simpl. destruct ls; [|done]. by intros [= <-].
Qed.

(** C9: in relaxed mode no schedule makes [doMigration] return an error:
    whatever the schedule, the call has returned nil, is still running, or
    the process has exited. *)
Theorem relaxed_never_returns_error (mdb : StateDB) (dbFactory : DBFactory)
    (addresses : list Address) (allowances : list Allowance) (expDiff : Z)
    (ls : list label) (c : call) :
  after (start_doMigration mdb dbFactory addresses allowances expDiff true) ls
    = Some c ->
  returned_error c = false.
Proof.
  intros [[msg ->]|(cfg & s & s' & Hd & He & Hc)]%start_running; [done|].
  destruct (crashed s') eqn:Hcr; [subst c; reflexivity|].
  destruct (main s') as [| |r] eqn:Hm; try (subst c; reflexivity).
  subst c.
  assert (Hrel : cfg_noCheck cfg = true)
    by (apply doMigration_start in Hd as (-> & _); done).
  assert (Hq : quiet s').
  { eapply (exec_invariant cfg quiet); [|by eapply quiet_start|done].
    intros. by eapply quiet_step_relaxed. }
  assert (Hi : caller_inv cfg s').
  { eapply (exec_invariant cfg (caller_inv cfg)); [|by eapply caller_inv_start|done].
    intros. by eapply caller_inv_step. }
  destruct (Hq Hcr) as [_ Hle]. destruct (Hi Hcr) as [_ Hret].
  destruct (Hret r Hm) as [_ Hval]. unfold return_value in Hval.
  rewrite Hle, Hrel in Hval. destruct Hval as (db & _ & ->).
  unfold supply_check. by destruct (negb _).
Qed.
End RunTheorems.

Section SupplyCheck.
Context `{Externals}.



Lemma final_state_start mdb dbFactory addresses allowances expDiff noCheck ls s' :
  final_state (start_doMigration mdb dbFactory addresses allowances expDiff noCheck) ls
    = Some s' ->
  exists cfg s,
    doMigration mdb dbFactory addresses allowances expDiff noCheck = Returns (cfg, s) /\
    exec cfg ls s = Some s'.
Proof.
  unfold start_doMigration.
  destruct (doMigration _ _ _ _ _ _) as [[cfg s]|msg]; simpl; [eauto|done].
Qed.

Lemma caller_inv_final mdb dbFactory addresses allowances expDiff noCheck ls s' :
  final_state (start_doMigration mdb dbFactory addresses allowances expDiff noCheck) ls
    = Some s' ->
  exists cfg,
    cfg = mkConfig noCheck (build_index addresses allowances).1
            (build_index addresses allowances).2 dbFactory expDiff /\
    caller_inv cfg s'.
Proof.
  intros (cfg & s & Hd & He)%final_state_start. exists cfg. split.
  - by apply doMigration_start in Hd as (-> & _).
  - eapply (exec_invariant cfg (caller_inv cfg)); [|by eapply caller_inv_start|done].
    intros. by eapply caller_inv_step.
Qed.

(** An error kept from the scan is what [doMigration] returns, in either
    mode and whatever the supply. *)
Lemma kept_error_is_returned mdb dbFactory addresses allowances expDiff noCheck ls s' r err :
  final_state (start_doMigration mdb dbFactory addresses allowances expDiff noCheck) ls
    = Some s' ->
  crashed s' = None -> main s' = MReturned r -> lastErr s' = Some err ->
  r = Some err.
Proof.
  intros (cfg & -> & Hinv)%caller_inv_final Hcr Hm Hle.
  destruct (Hinv Hcr) as [_ Hret]. destruct (Hret r Hm) as [_ Hval].
  unfold return_value in Hval. by rewrite Hle in Hval.
Qed.

End SupplyCheck.

(** ** The database and the iterator *)

Lemma GetState_SetState db a k v a' k' :
  GetState (SetState db a k v) a' k' =
    if decide ((a, k) = (a', k')) then v else GetState db a' k'.
Proof.
  unfold GetState, SetState. simpl. rewrite lookup_insert.
  by case_decide.
Qed.

Lemma GetState_SetBalance db a v a' k' :
  GetState (SetBalance db a v) a' k' = GetState db a' k'.
Proof. reflexivity. Qed.

Lemma GetBalance_SetState db a k v a' :
  GetBalance (SetState db a k v) a' = GetBalance db a'.
Proof. reflexivity. Qed.

Lemma GetBalance_SetBalance db a v a' :
  GetBalance (SetBalance db a v) a' = if decide (a = a') then v else GetBalance db a'.
Proof.
  unfold GetBalance, SetBalance. simpl. rewrite lookup_insert.
  by case_decide.
Qed.

Lemma SetBytes_nonneg bs : 0 <= SetBytes bs.
Proof.
  unfold SetBytes.
  assert (Hgen : forall acc, 0 <= acc ->
            0 <= fold_left (fun acc b => acc * 256 + Z.of_N (Byte.to_N b)) bs acc).
  { induction bs as [|b bs IH]; intros acc Hacc; simpl; [done|].
    apply IH. lia. }
  by apply Hgen.
Qed.

(** The iterator starts at a suffix of the leaves and leaves out only keys
    below [start]. *)
Lemma NodeIterator_suffix leaves start :
  exists pre, leaves = pre ++ NodeIterator leaves start /\
    Forall (fun e => leaf_key e < start) pre.
Proof.
  induction leaves as [|e l IH]; simpl.
  - exists []. by split.
  - destruct (SetBytes (it_Key e) <? Hash_Big start) eqn:E.
    + destruct IH as (pre & Hl & Hpre). exists (e :: pre). split.
      * simpl. by rewrite <- Hl.
      * constructor; [|done]. apply Z.ltb_lt in E. exact E.
    + exists []. by split.
Qed.

Lemma NodeIterator_subset leaves start e :
  e ∈ NodeIterator leaves start -> e ∈ leaves.
Proof.
  destruct (NodeIterator_suffix leaves start) as (pre & Hl & _).
  intros He. rewrite Hl. apply elem_of_app. by right.
Qed.

Lemma NodeIterator_from leaves start e :
  e ∈ leaves -> start <= leaf_key e -> e ∈ NodeIterator leaves start.
Proof.
  destruct (NodeIterator_suffix leaves start) as (pre & Hl & Hpre).
  intros He Hk. rewrite Hl in He. apply elem_of_app in He as [He|He]; [|done].
  rewrite Forall_forall in Hpre. specialize (Hpre e He). lia.
Qed.

Lemma sorted_leaves_app_r l1 l2 : sorted_leaves (l1 ++ l2) -> sorted_leaves l2.
Proof.
  unfold sorted_leaves. induction l1 as [|e l1 IH]; simpl; [done|].
  intros Hs. apply IH. by inversion Hs.
Qed.

Lemma NodeIterator_sorted leaves start :
  sorted_leaves leaves -> sorted_leaves (NodeIterator leaves start).
Proof.
  destruct (NodeIterator_suffix leaves start) as (pre & Hl & _).
  intros Hs. rewrite Hl in Hs. by eapply sorted_leaves_app_r.
Qed.

Lemma sorted_leaves_cons e l :
  sorted_leaves (e :: l) ->
  sorted_leaves l /\ forall e', e' ∈ l -> leaf_key e <= leaf_key e'.
Proof.
  unfold sorted_leaves. intros Hs. inversion Hs as [|? ? Hl Hall]; subst.
  split; [done|]. intros e' He'. rewrite List.Forall_forall in Hall.
  apply Hall. by apply list_elem_of_In.
Qed.

(** ** The workers started *)

Lemma spawn_lookup js : forall ws i w,
  spawn js = Returns ws -> ws !! i = Some w ->
  exists j start end_, js !! i = Some j /\
    PartitionKeyspace j checkJobs = Returns (start, end_) /\ w = WStart start end_.
Proof.
  induction js as [|j js IH]; intros ws i w; simpl.
  - intros [= <-]. by rewrite lookup_nil.
  - destruct (PartitionKeyspace j checkJobs) as [[start end_]|] eqn:Hp; [|done].
    destruct (spawn js) as [ws'|]; [|done]. intros [= <-].
    destruct i as [|i]; simpl.
    + intros [= <-]. eauto 10.
    + intros Hw. destruct (IH ws' i w eq_refl Hw) as (j' & s' & e' & ? & ? & ?).
      eauto 10.
Qed.

Lemma spawn_length js : forall ws, spawn js = Returns ws -> length ws = length js.
Proof.
  induction js as [|j js IH]; intros ws; simpl.
  - by intros [= <-].
  - destruct (PartitionKeyspace j checkJobs) as [[start end_]|]; [|done].
    destruct (spawn js) as [ws'|]; [|done]. intros [= <-]. simpl.
    by rewrite (IH ws').
Qed.

(** ** What the loop body tells about a leaf *)

Section ScanFacts.
Context `{Externals}.
Variables (cfg : config) (db : StateDB).

Lemma scan_return_beyond end_ e :
  scan cfg db end_ e = EReturn -> end_ < leaf_key e.
Proof.
  unfold scan, scan_entry, lookup_address, check_balance, classify, leaf_key, Hash_Big.
  destruct (SetBytes (it_Key e) >? end_) eqn:E.
  - intros _. rewrite Z.gtb_ltb in E. by apply Z.ltb_lt in E.
  - repeat case_match; simpl; discriminate.
Qed.

(** A candidate carries the key, the owner and the decoded value of a leaf
    whose key the index lists as a Balance key. *)
Lemma scan_send_shape end_ e c :
  scan cfg db end_ e = ESend c ->
  exists rawKey content,
    it_preimage e = Some rawKey /\
    rlp_Split (it_Value e) = Some content /\
    cfg_slotsInp cfg !! BytesToHash rawKey = Some BalanceSlot /\
    cfg_slotsAddrs cfg !! BytesToHash rawKey = Some (address c) /\
    legacySlot c = BytesToHash rawKey /\
    balance c = Hash_Big (BytesToHash content).
Proof.
  unfold scan, scan_entry, lookup_address, check_balance, classify.
  destruct (SetBytes (it_Key e) >? Hash_Big end_); [discriminate|].
  destruct (length (it_Value e) =? 0)%nat; [discriminate|].
  destruct (it_preimage e) as [rawKey|]; [|discriminate].
  destruct (rlp_Split (it_Value e)) as [content|]; [|discriminate].
  destruct (bool_decide _); [discriminate|].
  intros Hc. exists rawKey, content.
  destruct (cfg_slotsInp cfg !! BytesToHash rawKey) as [slotType|] eqn:Hin.
  - destruct (cfg_slotsAddrs cfg !! BytesToHash rawKey) as [addr|] eqn:Had;
      [|discriminate].
    destruct (slotType =? BalanceSlot) eqn:Hty.
    + apply Z.eqb_eq in Hty. subst slotType.
      repeat case_match; simpl in *; simplify_eq; simpl; done.
    + repeat case_match; simpl in *; simplify_eq.
  - destruct (cfg_noCheck cfg); [|discriminate]. simpl.
    destruct (cfg_slotsAddrs cfg !! BytesToHash rawKey); [|discriminate].
    change (0 =? BalanceSlot) with false. change (0 =? AllowanceSlot) with false.
    repeat case_match; simpl in *; simplify_eq.
Qed.

Lemma scan_send_emitted end_ e c :
  scan cfg db end_ e = ESend c -> emitted cfg c.
Proof.
  intros (rawKey & content & _ & _ & Hin & Had & Hs & _)%scan_send_shape.
  unfold emitted. by rewrite Hs.
Qed.

(** A classified leaf of a Balance key, when it draws no error, is sent with
    its decoded value. *)
Lemma scan_balance_leaf end_ e key content addr :
  classified end_ e key content ->
  cfg_slotsInp cfg !! key = Some BalanceSlot ->
  cfg_slotsAddrs cfg !! key = Some addr ->
  (forall err, scan cfg db end_ e <> EError err) ->
  scan cfg db end_ e = ESend (mkAccountData (Hash_Big (BytesToHash content)) key addr).
Proof.
  intros Hcl Hin Had Hno. unfold scan in *.
  rewrite (scan_entry_classified _ _ _ _ _ _ _ _ Hcl), Hin in *.
  unfold lookup_address in *. rewrite Had in *.
  rewrite (check_balance_known _ _ _ _ _ _ (or_introl eq_refl)) in *.
  case_decide; [done|].
  destruct (cfg_noCheck cfg); [done|]. simpl in Hno. by destruct (Hno _ eq_refl).
Qed.

(** A classified leaf whose key the index does not list ends the process in
    relaxed mode. *)
Lemma scan_unknown_leaf_relaxed end_ e key content :
  cfg_noCheck cfg = true ->
  (forall k, cfg_slotsInp cfg !! k = None -> cfg_slotsAddrs cfg !! k = None) ->
  classified end_ e key content ->
  cfg_slotsInp cfg !! key = None ->
  exists msg, scan cfg db end_ e = ECrit msg.
Proof.
  intros Hrel Hdom Hcl Hin. unfold scan.
  rewrite (scan_entry_classified _ _ _ _ _ _ _ _ Hcl), Hin, Hrel.
  unfold lookup_address. rewrite (Hdom _ Hin). simpl. eauto.
Qed.

Lemma classified_within end_ end' e key content :
  classified end_ e key content -> leaf_key e <= end' ->
  classified end' e key content.
Proof.
  intros (_ & Hrest) Hk. split; [exact Hk|exact Hrest].
Qed.
End ScanFacts.

(** ** Progress of the scan *)

Section ProgressFacts.
Context `{Externals}.
Variables (cfg : config) (db : StateDB) (leaves : list trie_entry).
Hypothesis Hfac : cfg_dbFactory cfg = Some db.
Hypothesis Htrie : StorageTrie db LegacyERC20ETHAddr = TrieOk leaves.
Hypothesis Hsorted : sorted_leaves leaves.
Hypothesis Hnoerr : no_fatal cfg db leaves.

Lemma handled_mono s s' end_ e :
  seenAccounts (coll s) ⊆ seenAccounts (coll s') ->
  handled cfg db s end_ e -> handled cfg db s' end_ e.
Proof.
  unfold handled. intros Hsub. destruct (scan cfg db end_ e); try done.
  intros Hin. by apply Hsub.
Qed.

Lemma worker_ok_mono s s' i w :
  seenAccounts (coll s) ⊆ seenAccounts (coll s') ->
  worker_ok cfg db leaves s i w -> worker_ok cfg db leaves s' i w.
Proof.
  intros Hsub (start & end_ & Hr & Hw). exists start, end_. split; [done|].
  destruct w as [start' end'|end' db' it|end' db' c it|].
  - done.
  - destruct Hw as (? & ? & ? & ? & Hall). repeat split; try done.
    intros e He Hk. destruct (Hall e He Hk) as [?|Hh]; [by left|right].
    by eapply handled_mono.
  - destruct Hw as (? & ? & ? & ? & ? & Hall). repeat split; try done.
    intros e He Hk. destruct (Hall e He Hk) as [?|[Hh|?]]; [by left| |by right; right].
    right; left. by eapply handled_mono.
  - intros e He Hk. eapply handled_mono; [done|]. by apply Hw.
Qed.

Lemma not_done_not_cancelled s i w :
  progress_inv cfg db leaves s -> crashed s = None ->
  workers s !! i = Some w -> is_done w = false -> cancelCh s = false.
Proof.
  intros Hinv Hcr Hw Hnd. destruct (Hinv Hcr) as (_ & _ & Hc & _).
  destruct (cancelCh s) eqn:E; [|done].
  pose proof (all_done_lookup _ _ _ (Hc eq_refl) Hw) as ->. done.
Qed.

(** One worker moves on and the collector may have seen more. *)
Lemma progress_worker s s' i w w' :
  progress_inv cfg db leaves s -> crashed s = None ->
  workers s !! i = Some w -> is_done w = false ->
  errCh s' = errCh s -> lastErr s' = lastErr s -> cancelCh s' = cancelCh s ->
  workers s' = <[i := w']> (workers s) ->
  seenAccounts (coll s) ⊆ seenAccounts (coll s') ->
  (forall a, a ∈ seenAccounts (coll s') ->
     exists c, from_leaf cfg db leaves c /\ address c = a /\
       GetBalance (mutableDB (coll s')) a = balance c) ->
  worker_ok cfg db leaves s' i w' ->
  progress_inv cfg db leaves s'.
Proof.
  intros Hinv Hcr Hw Hnd Herr Hlast Hcan Hws Hsub Hbal Hok _.
  pose proof (not_done_not_cancelled s i w Hinv Hcr Hw Hnd) as Hnc.
  destruct (Hinv Hcr) as (He & Hl & _ & Hlen & Hall & _).
  rewrite Herr, Hlast, Hcan, Hws, Hnc, length_insert.
  repeat split; try done.
  intros j wj [(<- & <- & _)|(Hne & Hj)]%list_lookup_insert_Some; [done|].
  eapply worker_ok_mono; [done|]. by apply Hall.
Qed.

(** The caller or the collector moves, and nothing the workers rely on
    changes. *)
Lemma progress_frame s s' :
  progress_inv cfg db leaves s -> crashed s = None ->
  errCh s' = errCh s -> lastErr s' = lastErr s ->
  (cancelCh s' = true -> forallb is_done (workers s) = true) ->
  workers s' = workers s ->
  seenAccounts (coll s') = seenAccounts (coll s) ->
  (forall a, GetBalance (mutableDB (coll s')) a = GetBalance (mutableDB (coll s)) a) ->
  progress_inv cfg db leaves s'.
Proof.
  intros Hinv Hcr Herr Hlast Hcan Hws Hseen Hbal _.
  destruct (Hinv Hcr) as (He & Hl & _ & Hlen & Hall & Hb).
  rewrite Herr, Hlast, Hws, Hseen.
  repeat split; try done.
  - intros j wj Hj. eapply worker_ok_mono; [|by apply Hall]. by rewrite Hseen.
  - intros a Ha. destruct (Hb a Ha) as (c & ? & ? & ?). exists c.
    by rewrite Hbal.
Qed.

Lemma progress_inv_step l s s' :
  progress_inv cfg db leaves s -> transition cfg l s s' ->
  progress_inv cfg db leaves s'.
Proof.
  intros Hinv Ht.
  destruct Ht as
    [ l s s' msg Hcr Hcr'
    | i s start end_ db0 leaves0 Hcr Hw Hf Ht
    | i s end_ db0 Hcr Hw
    | i s end_ db0 e rest Hcr Hw Hc
    | i s end_ db0 e rest logged Hcr Hw Hc Hscan
    | i s end_ db0 e rest logged Hcr Hw Hc Hscan
    | i s end_ db0 e rest logged err Hcr Hw Hc Hscan
    | i s end_ db0 e rest logged c Hcr Hw Hc Hscan
    | i s end_ db0 c rest Hcr Hcol Hw
    | s err rest Hcr Hcol Hch
    | s Hcr Hcol Hc
    | s Hcr Hm Hd
    | s err Hcr Hm Hcol Hl
    | s db0 logged err Hcr Hm Hcol Hl Hf Hs
    | s db0 logged Hcr Hm Hcol Hl Hf Hs ].
  - intros ?. congruence.
  - (* the worker opens its trie *)
    rewrite Hfac in Hf. injection Hf as <-. rewrite Htrie in Ht. injection Ht as <-.
    destruct (Hinv Hcr) as (_ & _ & _ & _ & Hall & Hb).
    destruct (Hall i _ Hw) as (start0 & end0 & Hr & -> & ->).
    eapply (progress_worker s _ i); try done.
    exists start0, end0. split; [done|]. repeat split; try done.
    + by apply NodeIterator_sorted.
    + intros e. apply NodeIterator_subset.
    + intros e He [Hk _]. left. by apply NodeIterator_from.
  - (* no leaf is left *)
    destruct (Hinv Hcr) as (_ & _ & _ & _ & Hall & Hb).
    destruct (Hall i _ Hw) as (start0 & end0 & Hr & -> & -> & _ & _ & Hdone).
    eapply (progress_worker s _ i); try done.
    exists start0, end0. split; [done|].
    intros e He Hk. destruct (Hdone e He Hk) as [Hin|Hh]; [|done].
    by apply elem_of_nil in Hin.
  - (* cancelled: only after every worker has returned *)
    by rewrite (not_done_not_cancelled s i _ Hinv Hcr Hw eq_refl) in Hc.
  - (* the next leaf lies beyond the partition *)
    destruct (Hinv Hcr) as (_ & _ & _ & _ & Hall & Hb).
    destruct (Hall i _ Hw) as (start0 & end0 & Hr & -> & -> & Hso & _ & Hdone).
    eapply (progress_worker s _ i); try done.
    exists start0, end0. split; [done|].
    assert (Hbeyond : end0 < leaf_key e)
      by (apply (scan_return_beyond cfg db); unfold scan; by rewrite Hscan).
    destruct (sorted_leaves_cons _ _ Hso) as [_ Hle].
    intros e' He' Hk. destruct (Hdone e' He' Hk) as [Hin|Hh]; [|done].
    apply elem_of_cons in Hin as [->|Hin]; [lia|].
    specialize (Hle e' Hin). lia.
  - (* the leaf is skipped *)
    destruct (Hinv Hcr) as (_ & _ & _ & _ & Hall & Hb).
    destruct (Hall i _ Hw) as (start0 & end0 & Hr & -> & -> & Hso & Hsub & Hdone).
    eapply (progress_worker s _ i); try done.
    exists start0, end0. split; [done|].
    destruct (sorted_leaves_cons _ _ Hso) as [Hso' _].
    repeat split; try done.
    + intros e' He'. apply Hsub. by apply elem_of_cons; right.
    + intros e' He' Hk. destruct (Hdone e' He' Hk) as [Hin|Hh]; [|by right].
      apply elem_of_cons in Hin as [->|Hin]; [right|by left].
      unfold handled, scan. by rewrite Hscan.
  - (* no leaf draws an error *)
    destruct (Hinv Hcr) as (_ & _ & _ & _ & Hall & Hb).
    destruct (Hall i _ Hw) as (start0 & end0 & Hr & -> & -> & Hso & Hsub & Hdone).
    destruct (Hnoerr e end0 err); [apply Hsub, list_elem_of_here|].
    unfold scan. by rewrite Hscan.
  - (* a candidate is offered *)
    destruct (Hinv Hcr) as (_ & _ & _ & _ & Hall & Hb).
    destruct (Hall i _ Hw) as (start0 & end0 & Hr & -> & -> & Hso & Hsub & Hdone).
    eapply (progress_worker s _ i); try done.
    exists start0, end0. split; [done|].
    destruct (sorted_leaves_cons _ _ Hso) as [Hso' _].
    assert (Hsc : scan cfg db end0 e = ESend c) by (unfold scan; by rewrite Hscan).
    repeat split; try done.
    + intros e' He'. apply Hsub. by apply elem_of_cons; right.
    + exists e, end0. split; [apply Hsub, list_elem_of_here|done].
    + intros e' He' Hk. destruct (Hdone e' He' Hk) as [Hin|Hh]; [|by right; left].
      apply elem_of_cons in Hin as [->|Hin]; [by right; right|by left].
  - (* the collector receives it *)
    destruct (Hinv Hcr) as (_ & _ & _ & _ & Hall & Hb).
    destruct (Hall i _ Hw)
      as (start0 & end0 & Hr & -> & -> & Hso & Hsub & Hfrom & Hdone).
    eapply (progress_worker s _ i); try done.
    + simpl. rewrite seen_collect. set_solver.
    + simpl. intros a Ha.
      destruct (decide (address c ∈ seenAccounts (coll s))) as [Hseen|Hfresh].
      * rewrite (collect_seen _ _ Hseen) in *. by apply Hb.
      * rewrite (collect_fresh _ _ Hfresh) in *. simpl in *.
        rewrite GetBalance_SetState, GetBalance_SetBalance.
        case_decide as Ha'.
        -- exists c. by subst a.
        -- apply Hb. set_solver.
    + exists start0, end0. split; [done|]. repeat split; try done.
      intros e' He' Hk. destruct (Hdone e' He' Hk) as [Hin|[Hh|Hsc]].
      * by left.
      * right. eapply handled_mono; [|done]. simpl. rewrite seen_collect. set_solver.
      * right. unfold handled. rewrite Hsc. simpl. rewrite seen_collect. set_solver.
  - (* no error is in the channel *)
    destruct (Hinv Hcr) as (He & _). congruence.
  - (* the collector stops *)
    eapply (progress_frame s); try done.
    simpl. intros _. by destruct (Hinv Hcr) as (_ & _ & Hcan & _); apply Hcan.
  - (* the caller closes the channel *)
    destruct (once_cancel_fields s None) as (Hws & Hec & Hco & _ & _ & _).
    destruct (Hinv Hcr) as (_ & Hle & _).
    eapply (progress_frame s); try done; simpl.
    + unfold once_cancel. by destruct (cancelOnce s).
    + by rewrite Hco.
    + by rewrite Hco.
  - destruct (Hinv Hcr) as (_ & Hle & _). congruence.
  - eapply (progress_frame s); try done.
    simpl. intros Hc. by destruct (Hinv Hcr) as (_ & _ & Hcan & _); apply Hcan.
  - eapply (progress_frame s); try done.
    simpl. intros Hc. by destruct (Hinv Hcr) as (_ & _ & Hcan & _); apply Hcan.
Qed.
End ProgressFacts.

(** ** What the run writes *)

Section WriteFacts.
Context `{Externals}.
Variables (cfg : config) (mdb : StateDB).
Hypothesis Hidx :
  forall key, index_entry_ok (cfg_slotsAddrs cfg, cfg_slotsInp cfg) key.

Lemma emitted_balance_key c :
  emitted cfg c -> legacySlot c = CalcOVMETHStorageKey (address c).
Proof.
  intros [Hin Had]. specialize (Hidx (legacySlot c)).
  unfold index_entry_ok in Hidx. simpl in Hidx. rewrite Hin, Had in Hidx.
  destruct Hidx as [[_ ?]|[? _]]; [done|discriminate].
Qed.

(** A worker other than a sender takes the place of worker [i]. *)
Lemma writes_worker s s' i w' :
  writes_inv cfg mdb s -> crashed s = None ->
  (forall end_ db' c it, w' = WSend end_ db' c it -> emitted cfg c) ->
  workers s' = <[i := w']> (workers s) ->
  coll s' = coll s -> main s' = main s ->
  writes_inv cfg mdb s'.
Proof.
  intros Hinv Hcr Hw' Hws Hco Hm _.
  destruct (Hinv Hcr) as (Hsend & Hkeep & Hzero & Hts).
  rewrite Hws, Hco, Hm. split; [|split; [|split]]; try done.
  intros j end_ db' c it [(<- & Hx & _)|(Hne & Hj)]%list_lookup_insert_Some.
  - by eapply Hw'.
  - by eapply Hsend.
Qed.

Lemma writes_frame s s' :
  writes_inv cfg mdb s -> crashed s = None ->
  workers s' = workers s -> coll s' = coll s ->
  (main s' = MReturned None -> main s = MReturned None) ->
  writes_inv cfg mdb s'.
Proof.
  intros Hinv Hcr Hws Hco Hm _.
  destruct (Hinv Hcr) as (Hsend & Hkeep & Hzero & Hts).
  rewrite Hws, Hco. split; [|split; [|split]]; try done.
  intros Hm'. by apply Hts, Hm.
Qed.

Lemma writes_inv_step l s s' :
  caller_inv cfg s -> writes_inv cfg mdb s -> transition cfg l s s' ->
  writes_inv cfg mdb s'.
Proof.
  intros Hcaller Hinv Ht.
  destruct Ht as
    [ l s s' msg Hcr Hcr'
    | i s start end_ db0 leaves0 Hcr Hw Hf Ht
    | i s end_ db0 Hcr Hw
    | i s end_ db0 e rest Hcr Hw Hc
    | i s end_ db0 e rest logged Hcr Hw Hc Hscan
    | i s end_ db0 e rest logged Hcr Hw Hc Hscan
    | i s end_ db0 e rest logged err Hcr Hw Hc Hscan
    | i s end_ db0 e rest logged c Hcr Hw Hc Hscan
    | i s end_ db0 c rest Hcr Hcol Hw
    | s err rest Hcr Hcol Hch
    | s Hcr Hcol Hc
    | s Hcr Hm Hd
    | s err Hcr Hm Hcol Hl
    | s db0 logged err Hcr Hm Hcol Hl Hf Hs
    | s db0 logged Hcr Hm Hcol Hl Hf Hs ].
  - intros ?. congruence.
  - eapply (writes_worker s _ i);
      [exact Hinv|exact Hcr| |reflexivity|reflexivity|reflexivity]; done.
  - eapply (writes_worker s _ i);
      [exact Hinv|exact Hcr| |reflexivity|reflexivity|reflexivity]; done.
  - eapply (writes_worker s _ i);
      [exact Hinv|exact Hcr| |reflexivity|reflexivity|reflexivity]; done.
  - eapply (writes_worker s _ i);
      [exact Hinv|exact Hcr| |reflexivity|reflexivity|reflexivity]; done.
  - eapply (writes_worker s _ i);
      [exact Hinv|exact Hcr| |reflexivity|reflexivity|reflexivity]; done.
  - eapply (writes_worker s _ i);
      [exact Hinv|exact Hcr| |reflexivity|reflexivity|reflexivity]; done.
  - eapply (writes_worker s _ i);
      [exact Hinv|exact Hcr| |reflexivity|reflexivity|reflexivity].
    intros end' db' c' it' [= <- <- <- <-].
    apply (scan_send_emitted cfg db0 end_ e). unfold scan. by rewrite Hscan.
  - (* the collector applies or drops the candidate *)
    intros _. destruct (Hinv Hcr) as (Hsend & Hkeep & Hzero & Hts).
    pose proof (Hsend _ _ _ _ _ Hw) as Hem.
    pose proof (emitted_balance_key c Hem) as Hslot.
    destruct Hem as [Hin _]. simpl.
    split; [|split; [|split]].
    + intros j end' db' c' it [(<- & [=] & _)|(Hne & Hj)]%list_lookup_insert_Some.
      by eapply Hsend.
    + intros k Hk Hkts.
      destruct (decide (address c ∈ seenAccounts (coll s))) as [Hseen|Hfresh].
      * rewrite (collect_seen _ _ Hseen). by apply Hkeep.
      * rewrite (collect_fresh _ _ Hfresh). simpl.
        rewrite GetState_SetState, GetState_SetBalance.
        case_decide as Heq; [|by apply Hkeep].
        injection Heq as Heq. congruence.
    + intros a Ha.
      destruct (decide (address c ∈ seenAccounts (coll s))) as [Hseen|Hfresh].
      * rewrite (collect_seen _ _ Hseen) in *. by apply Hzero.
      * rewrite (collect_fresh _ _ Hfresh) in *. simpl in *.
        rewrite GetState_SetState, GetState_SetBalance.
        case_decide as Heq; [done|]. apply Hzero.
        apply elem_of_union in Ha as [->%elem_of_singleton|Ha]; [|done].
        rewrite Hslot in Heq. done.
    + intros Hm. destruct (Hcaller Hcr) as [_ Hret].
      destruct (Hret None Hm) as [Hcol' _]. congruence.
  - destruct (once_cancel_fields (set_errCh s rest) (Some err))
      as (Hws & _ & Hco & _ & Hm & _).
    eapply (writes_frame s); try done. by rewrite Hm.
  - by eapply (writes_frame s).
  - destruct (once_cancel_fields s None) as (Hws & _ & Hco & _ & Hm' & _).
    by eapply (writes_frame s).
  - by eapply (writes_frame s).
  - by eapply (writes_frame s).
  - (* the caller clears the total supply *)
    intros _. destruct (Hinv Hcr) as (Hsend & Hkeep & Hzero & Hts). simpl.
    split; [|split; [|split]].
    + done.
    + intros k Hk Hkts. rewrite GetState_SetState.
      case_decide as Heq; [|by apply Hkeep]. injection Heq as Heq. congruence.
    + intros a Ha. rewrite GetState_SetState.
      case_decide; [done|by apply Hzero].
    + intros _. rewrite GetState_SetState. by rewrite decide_True.
Qed.
End WriteFacts.

(** ** The store after a run *)

Lemma partition_cover count k :
  1 <= count <= int_max -> 0 <= k <= maxSlot ->
  exists i r, 0 <= i < count /\ partition_range i count = Some r /\ in_range k r.
Proof.
  intros Hc Hk.
  assert (Hint : is_int count) by (unfold is_int, int_min, int_max in *; lia).
  destruct (partSize_bounds count Hc) as [Hp1 Hp2].
  set (p := partSize_of count) in *.
  pose proof (Z.mul_div_le k p ltac:(lia)) as Hlow.
  pose proof (Z.mul_succ_div_gt k p ltac:(lia)) as Hhigh.
  destruct (Z_lt_le_dec (k / p) (count - 1)) as [Hlt|Hge].
  - assert (Hi : 0 <= k / p < count) by (split; [apply Z.div_pos|]; lia).
    eexists (k / p), _. split; [done|].
    split; [by apply partition_range_valid|].
    unfold in_range. simpl. fold p.
    replace (k / p <? count - 1) with true by (symmetry; by apply Z.ltb_lt).
    lia.
  - assert (Hi : 0 <= count - 1 < count) by lia.
    eexists (count - 1), _. split; [done|].
    split; [by apply partition_range_valid|].
    unfold in_range. simpl. fold p. rewrite Z.ltb_irrefl. nia.
Qed.

Section StoreFacts.
Context `{Externals}.

Lemma progress_inv_start mdb dbFactory addresses allowances expDiff noCheck cfg s db leaves :
  doMigration mdb dbFactory addresses allowances expDiff noCheck = Returns (cfg, s) ->
  progress_inv cfg db leaves s.
Proof.
  intros (-> & ws & Hsp & ->)%doMigration_start _. simpl.
  split; [done|]. split; [done|]. split; [done|].
  split; [|split].
  - by rewrite (spawn_length _ _ Hsp), length_seqZ.
  - intros i w Hw.
    destruct (spawn_lookup _ _ _ _ Hsp Hw) as (j & start & end_ & Hj & Hp & ->).
    apply lookup_seqZ in Hj as [-> _]. rewrite Z.add_0_l in Hp.
    exists start, end_. unfold partition_range. rewrite Hp.
    split; [reflexivity|]. split; reflexivity.
  - intros a Ha. apply not_elem_of_empty in Ha. destruct Ha.
Qed.

Lemma writes_inv_start mdb dbFactory addresses allowances expDiff noCheck cfg s :
  doMigration mdb dbFactory addresses allowances expDiff noCheck = Returns (cfg, s) ->
  writes_inv cfg mdb s.
Proof.
  intros (-> & ws & Hsp & ->)%doMigration_start _. simpl.
  split; [|split; [|split]].
  - intros i end_ db' c it Hw.
    destruct (spawn_lookup _ _ _ _ Hsp Hw) as (j & start & end' & _ & _ & [=]).
  - intros k _ _. reflexivity.
  - intros a Ha. apply not_elem_of_empty in Ha. destruct Ha.
  - intros [=].
Qed.

(** The state a run has returned from: every worker is done and the
    invariants of the run hold. *)
Lemma returned_state mdb dbFactory addresses allowances expDiff noCheck ls r db' :
  after (start_doMigration mdb dbFactory addresses allowances expDiff noCheck) ls
    = Some (Returned r db') ->
  exists cfg s s',
    cfg = mkConfig noCheck (build_index addresses allowances).1
            (build_index addresses allowances).2 dbFactory expDiff /\
    doMigration mdb dbFactory addresses allowances expDiff noCheck = Returns (cfg, s) /\
    exec cfg ls s = Some s' /\
    crashed s' = None /\ main s' = MReturned r /\ db' = mutableDB (coll s') /\
    forallb is_done (workers s') = true /\
    writes_inv cfg mdb s'.
Proof.
  intros [[msg [=]]|(cfg & s & s' & Hd & He & Hc)]%start_running.
  destruct (crashed s') eqn:Hcr; [discriminate Hc|].
  destruct (main s') as [| |r'] eqn:Hm; try discriminate Hc. injection Hc as -> ->.
  exists cfg, s, s'.
  assert (Hboth : caller_inv cfg s' /\ writes_inv cfg mdb s').
  { eapply (exec_invariant cfg (fun s => caller_inv cfg s /\ writes_inv cfg mdb s));
      [| |exact He].
    - intros l s1 s2 [Hc1 Hw1] Ht. split.
      + by eapply caller_inv_step.
      + eapply (writes_inv_step cfg mdb); [|exact Hc1|exact Hw1|exact Ht].
        apply doMigration_start in Hd as (-> & _). simpl.
        apply build_index_ok.
    - split; [by eapply caller_inv_start|by eapply writes_inv_start]. }
  destruct Hboth as [Hcaller Hwrites].
  split; [by apply doMigration_start in Hd as (-> & _)|].
  do 5 (split; [done|]). split; [|done].
  destruct (Hcaller Hcr) as [Hdone _]. apply Hdone. by rewrite Hm.
Qed.

(** Where the leaves are the committed storage and no leaf draws an error,
    a returned run is through with every leaf of the key space. *)
Lemma returned_handled mdb dbFactory addresses allowances expDiff noCheck ls cfg s s' r
    db leaves e :
  doMigration mdb dbFactory addresses allowances expDiff noCheck = Returns (cfg, s) ->
  exec cfg ls s = Some s' -> crashed s' = None -> main s' = MReturned r ->
  forallb is_done (workers s') = true ->
  dbFactory = Some db -> StorageTrie db LegacyERC20ETHAddr = TrieOk leaves ->
  sorted_leaves leaves -> no_fatal cfg db leaves ->
  e ∈ leaves -> leaf_key e <= maxSlot ->
  exists end_, leaf_key e <= end_ /\ handled cfg db s' end_ e /\
    (forall a, a ∈ seenAccounts (coll s') ->
       exists c, from_leaf cfg db leaves c /\ address c = a /\
         GetBalance (mutableDB (coll s')) a = balance c).
Proof.
  intros Hd He Hcr Hm Hdone Hfac Htrie Hsorted Hnoerr Hin Hmax.
  assert (Hfac' : cfg_dbFactory cfg = Some db)
    by (apply doMigration_start in Hd as (-> & _); done).
  assert (Hinv : progress_inv cfg db leaves s').
  { eapply (exec_invariant cfg (progress_inv cfg db leaves)); [| |exact He].
    - intros l s1 s2 H1 Ht. by eapply progress_inv_step.
    - by eapply progress_inv_start. }
  destruct (Hinv Hcr) as (_ & _ & _ & Hlen & Hall & Hbal).
  destruct (partition_cover checkJobs (leaf_key e)) as (i & [start end_] & Hi & Hr & Hk).
  { unfold checkJobs, int_max. lia. }
  { split; [apply SetBytes_nonneg|done]. }
  destruct (lookup_lt_is_Some_2 (workers s') (Z.to_nat i)) as [w Hw].
  { rewrite Hlen. unfold checkJobs in *. lia. }
  pose proof (all_done_lookup _ _ _ Hdone Hw) as ->.
  destruct (Hall _ _ Hw) as (start' & end' & Hr' & Hh).
  rewrite Z2Nat.id in Hr' by lia. rewrite Hr in Hr'. injection Hr' as <- <-.
  unfold in_range in Hk. simpl in Hk.
  exists end_. split; [lia|]. split; [by apply Hh|done].
Qed.
End StoreFacts.

Section StoreTheorems.
Context `{Externals}.

Lemma no_fatal_relaxed cfg db leaves :
  cfg_noCheck cfg = true -> no_fatal cfg db leaves.
Proof.
  intros Hrel e end_ err _. unfold scan. rewrite Hrel.
  apply scan_entry_relaxed_no_error.
Qed.

(** Two candidates of leaves for one owner carry one balance, when no slot
    has two leaves. *)
Lemma from_leaf_balance cfg db leaves c1 c2 :
  (forall key, index_entry_ok (cfg_slotsAddrs cfg, cfg_slotsInp cfg) key) ->
  unique_slots leaves ->
  from_leaf cfg db leaves c1 -> from_leaf cfg db leaves c2 ->
  address c1 = address c2 -> balance c1 = balance c2.
Proof.
  intros Hidx Huniq (e1 & end1 & He1 & Hs1) (e2 & end2 & He2 & Hs2) Haddr.
  pose proof (emitted_balance_key cfg Hidx c1 (scan_send_emitted _ _ _ _ _ Hs1)) as Hk1.
  pose proof (emitted_balance_key cfg Hidx c2 (scan_send_emitted _ _ _ _ _ Hs2)) as Hk2.
  destruct (scan_send_shape _ _ _ _ _ Hs1)
    as (r1 & ct1 & Hp1 & Hsp1 & _ & _ & Hl1 & Hb1).
  destruct (scan_send_shape _ _ _ _ _ Hs2)
    as (r2 & ct2 & Hp2 & Hsp2 & _ & _ & Hl2 & Hb2).
  assert (Hv : it_Value e1 = it_Value e2).
  { apply (Huniq e1 e2 r1 r2); try done. congruence. }
  rewrite Hv in Hsp1. congruence.
Qed.

(** C5, as the code has it: after a run that returned nil, the total-supply
    record of the legacy contract holds zero; every slot of the contract that
    the index does not list as a Balance key, every allowance slot among
    them, holds what it held before the run; and, where the leaves of the
    committed storage are sorted, one per slot, and none of them draws an
    error (as in every relaxed run), every non-empty, non-ignored leaf of a
    Balance key has its slot cleared and its owner holding the value of the
    leaf. *)
Theorem successful_run_store (mdb : StateDB) (dbFactory : DBFactory)
    (addresses : list Address) (allowances : list Allowance) (expDiff : Z)
    (noCheck : bool) (ls : list label) (db' : StateDB) :
  after (start_doMigration mdb dbFactory addresses allowances expDiff noCheck) ls
    = Some (Returned None db') ->
  let idx := build_index addresses allowances in
  GetState db' LegacyERC20ETHAddr getOVMETHTotalSupplySlot = 0 /\
  (forall k, idx.2 !! k <> Some BalanceSlot -> k <> getOVMETHTotalSupplySlot ->
     GetState db' LegacyERC20ETHAddr k = GetState mdb LegacyERC20ETHAddr k) /\
  (forall db leaves,
     dbFactory = Some db -> StorageTrie db LegacyERC20ETHAddr = TrieOk leaves ->
     sorted_leaves leaves -> unique_slots leaves ->
     (noCheck = true \/
      forall e end_ err, e ∈ leaves ->
        (scan_entry noCheck idx.1 idx.2 db end_ e).2 <> EError err) ->
     forall e key content,
       e ∈ leaves -> classified maxSlot e key content ->
       idx.2 !! key = Some BalanceSlot ->
       exists addr, idx.1 !! key = Some addr /\
         key = CalcOVMETHStorageKey addr /\
         GetState db' LegacyERC20ETHAddr key = 0 /\
         GetBalance db' addr = Hash_Big (BytesToHash content)).
Proof.
  intros (cfg & s & s' & -> & Hd & He & Hcr & Hm & -> & Hdone & Hw)%returned_state idx.
  destruct (Hw Hcr) as (_ & Hkeep & Hzero & Hts).
  split; [by apply Hts|]. split; [exact Hkeep|].
  intros db leaves Hfac Htrie Hsorted Huniq Hno e key content Hin Hcl Hkey.
  set (cfg := mkConfig noCheck idx.1 idx.2 dbFactory expDiff) in *.
  assert (Hidx : forall k, index_entry_ok (cfg_slotsAddrs cfg, cfg_slotsInp cfg) k).
  { intros k. pose proof (build_index_ok addresses allowances k) as Hok.
    by destruct (build_index addresses allowances). }
  assert (Hnoerr : no_fatal cfg db leaves).
  { destruct Hno as [->|Hno]; [by apply no_fatal_relaxed|].
    intros e' end' err He'. by apply Hno. }
  destruct (index_slot_type idx key BalanceSlot (build_index_ok _ _ _) Hkey)
    as (addr & Haddr & Hty).
  destruct Hty as [[_ Hcalc]|[[=] _]].
  exists addr. split; [done|]. split; [done|].
  destruct (returned_handled mdb dbFactory addresses allowances expDiff noCheck ls
              cfg s s' None db leaves e Hd He Hcr Hm Hdone Hfac Htrie Hsorted
              Hnoerr Hin) as (end_ & Hle & Hh & Hbal).
  { by destruct Hcl as [? _]. }
  clear Hd He.
  assert (Hsc : scan cfg db end_ e =
            ESend (mkAccountData (Hash_Big (BytesToHash content)) key addr)).
  { apply scan_balance_leaf; try done.
    - by eapply classified_within.
    - intros err. by apply Hnoerr. }
  unfold handled in Hh. rewrite Hsc in Hh. simpl in Hh.
  split.
  - rewrite Hcalc. by apply Hzero.
  - destruct (Hbal addr Hh) as (c & Hfrom & Hc & ->).
    apply (from_leaf_balance cfg db leaves c
             (mkAccountData (Hash_Big (BytesToHash content)) key addr)); try done.
    exists e, end_. by split.
Qed.

(** In relaxed mode, where the committed storage holds a classified leaf
    whose key is not in the index, no schedule lets [doMigration] return. *)
Lemma relaxed_unknown_slot_never_returns (mdb db : StateDB)
    (addresses : list Address) (allowances : list Allowance) (expDiff : Z)
    (leaves : list trie_entry) (e : trie_entry) (key : Hash) (content : list byte)
    (ls : list label) (r : option string) (db' : StateDB) :
  StorageTrie db LegacyERC20ETHAddr = TrieOk leaves ->
  sorted_leaves leaves ->
  e ∈ leaves -> classified maxSlot e key content ->
  (build_index addresses allowances).2 !! key = None ->
  after (start_doMigration mdb (Some db) addresses allowances expDiff true) ls
    <> Some (Returned r db').
Proof.
  intros Htrie Hsorted Hin Hcl Hkey
    (cfg & s & s' & -> & Hd & He & Hcr & Hm & -> & Hdone & _)%returned_state.
  set (cfg := mkConfig true (build_index addresses allowances).1
                (build_index addresses allowances).2 (Some db) expDiff) in *.
  destruct (returned_handled mdb (Some db) addresses allowances expDiff true ls
              cfg s s' r db leaves e Hd He Hcr Hm Hdone eq_refl Htrie Hsorted
              (no_fatal_relaxed cfg db leaves eq_refl) Hin) as (end_ & Hle & Hh & _).
  { by destruct Hcl as [? _]. }
  clear Hd He.
  destruct (scan_unknown_leaf_relaxed cfg db end_ e key content) as [msg Hsc];
    try done.
  - intros k Hk.
    exact (index_unknown (build_index addresses allowances) k (build_index_ok _ _ _) Hk).
  - by eapply classified_within.
  - unfold handled in Hh. by rewrite Hsc in Hh.
Qed.
End StoreTheorems.

(** ** The scenarios, run *)


Lemma MigrateBalances_without_params_witness :
  MigrateBalances (state_two_holders [] 3) (Some (state_two_holders [] 3))
    [holderA; holderB] [mkAllowance holderA holderB] 5 false
  = Returned (Some ("no chain params for " +:+ pretty 5)) (state_two_holders [] 3).
Proof.
  apply (MigrateBalances_without_params (state_two_holders [] 3)
           (Some (state_two_holders [] 3)) [holderA; holderB]
           [mkAllowance holderA holderB] 5 false).
  vm_compute. reflexivity.
Defined.

Lemma relaxed_never_returns_error_witness :
  exists db', after (run_bad_supply true) schedule_bad_supply = Some (Returned None db') /\
    returned_error (Returned None db') = false.
Proof.
  assert (Hr : (fun c => match c with Returned None _ => true | _ => false end)
                 <$> after (run_bad_supply true) schedule_bad_supply = Some true)
    by (vm_compute; reflexivity).
  destruct (after (run_bad_supply true) schedule_bad_supply) as [c|] eqn:E;
    [|discriminate Hr].
  unfold run_bad_supply, migrate in E.
  pose proof (relaxed_never_returns_error (state_two_holders [] 4)
                (Some (state_two_holders [] 4)) [holderA; holderB]
                [mkAllowance holderA holderB] 0 schedule_bad_supply c E) as Hno.
  simpl in Hr.
  destruct c as [[err|] db'| | |]; try discriminate Hr.
  exists db'. split; [reflexivity|exact Hno].
Defined.

(** The leaf of the allowance A -> B and the leaf of holder B, as every
    scenario stores them. *)
Lemma allowance_leaf_classified :
  classified maxSlot (leaf (boundary 7 + 9) (CalcAllowanceStorageKey holderA holderB) 1)
    (CalcAllowanceStorageKey holderA holderB) (rlp_value 1).
Proof.
  split; [|split; [|split; [|split]]].
  - vm_compute. discriminate.
  - vm_compute. discriminate.
  - eexists. split; [reflexivity|]. vm_compute. reflexivity.
  - vm_compute. reflexivity.
  - apply (bool_decide_eq_false_1 _). vm_compute. reflexivity.
Qed.

Lemma holderB_leaf_classified :
  classified maxSlot (leaf (boundary 20 + 1) (CalcOVMETHStorageKey holderB) 2)
    (CalcOVMETHStorageKey holderB) (rlp_value 2).
Proof.
  split; [|split; [|split; [|split]]].
  - vm_compute. discriminate.
  - vm_compute. discriminate.
  - eexists. split; [reflexivity|]. vm_compute. reflexivity.
  - vm_compute. reflexivity.
  - apply (bool_decide_eq_false_1 _). vm_compute. reflexivity.
Qed.

Lemma integrity_check_of_known_entry_witness :
  let idx := build_index [holderA; holderB] [mkAllowance holderA holderB] in
  let key := CalcAllowanceStorageKey holderA holderB in
  let e := leaf (boundary 7 + 9) key 1 in
  idx.2 !! key = Some AllowanceSlot /\
  scan_entry false idx.1 idx.2 state_owner_funded maxSlot e =
    ([(LvlError, "account has non-zero balance in state - should never happen")],
     EError ("account has non-zero balance in state - should never happen: "
               +:+ Address_String holderA)).
Proof.
  intros idx key e.
  assert (Hk : idx.2 !! key = Some AllowanceSlot) by (vm_compute; reflexivity).
  split; [exact Hk|].
  destruct (integrity_check_of_known_entry false [holderA; holderB]
              [mkAllowance holderA holderB] state_owner_funded maxSlot e key
              (rlp_value 1) AllowanceSlot allowance_leaf_classified Hk)
    as (addr & Ha & _ & Hstrict & _).
  assert (Hk1 : idx.1 !! key = Some holderA) by (vm_compute; reflexivity).
  fold idx in Ha. rewrite Hk1 in Ha. injection Ha as <-.
  apply Hstrict; [|reflexivity].
  vm_compute. discriminate.
Defined.

(** C6, against the claim: the leaf of the allowance A -> B, of kind
    Allowance, is not skipped in strict mode when its owner A holds a balance
    in the state: the balance check comes before the switch on the kind, and
    the worker sends the integrity error. *)
Lemma allowance_entry_is_checked :
  let idx := build_index [holderA; holderB] [mkAllowance holderA holderB] in
  let key := CalcAllowanceStorageKey holderA holderB in
  let e := leaf (boundary 7 + 9) key 1 in
  idx.2 !! key = Some AllowanceSlot /\
  GetBalance state_owner_funded holderA = 5 /\
  (scan_entry false idx.1 idx.2 state_owner_funded maxSlot e).2 =
    EError "account has non-zero balance in state - should never happen: 0x0000000000000000000000000000000000000123" /\
  (scan_entry false idx.1 idx.2 state_owner_funded maxSlot e).2 <> EContinue.
Proof.
  vm_compute. repeat split; discriminate.
Qed.

Lemma relaxed_unknown_slot_is_fatal_witness :
  let idx := build_index [holderA] [mkAllowance holderA holderB] in
  let key := CalcOVMETHStorageKey holderB in
  idx.2 !! key = None /\
  scan_entry true idx.1 idx.2 (state_two_holders [] 3) maxSlot
    (leaf (boundary 20 + 1) key 2) =
    ([(LvlError, "ignoring unknown storage slot in state");
      (LvlCrit, "could not find address in map - should never happen")],
     ECrit "could not find address in map - should never happen").
Proof.
  intros idx key.
  assert (Hk : idx.2 !! key = None) by (vm_compute; reflexivity).
  split; [exact Hk|].
  exact (relaxed_unknown_slot_is_fatal [holderA] [mkAllowance holderA holderB]
           (state_two_holders [] 3) maxSlot (leaf (boundary 20 + 1) key 2) key
           (rlp_value 2) holderB_leaf_classified Hk).
Defined.

(** The relaxed run of "missing input addresses" ends with the process: the
    worker of partition 20 meets the leaf of holder B. *)
Lemma relaxed_run_with_unknown_slot_exits :
  after (run_missing true) schedule_missing_relaxed =
    Some (Exited "could not find address in map - should never happen").
Proof. vm_compute. reflexivity. Qed.

(** The strict run of the same state returns the classification error. *)
Lemma strict_run_with_unknown_slot_fails :
  (fun c => match c with Returned err _ => err | _ => None end)
    <$> after (run_missing false) schedule_missing_strict =
  Some (Some "unknown storage slot in state: 0x80000000000000000000000000000000000000000000000000000000000008ac").
Proof. vm_compute. reflexivity. Qed.

Lemma unique_slots_NoDup l :
  NoDup ((fun e => BytesToHash <$> it_preimage e) <$> l) -> unique_slots l.
Proof.
  intros Hnd e1 e2 k1 k2 [i1 H1]%list_elem_of_lookup_1 [i2 H2]%list_elem_of_lookup_1
    Hp1 Hp2 Hk.
  assert (i1 = i2) as ->.
  { eapply (NoDup_lookup _ i1 i2 (Some (BytesToHash k1))); [exact Hnd| |].
    - rewrite list_lookup_fmap, H1. simpl. by rewrite Hp1.
    - rewrite list_lookup_fmap, H2. simpl. by rewrite Hp2, Hk. }
  congruence.
Qed.

Lemma leaves_two_holders_sorted totalSupply :
  sorted_leaves (leaves_two_holders totalSupply).
Proof.
  unfold sorted_leaves, leaves_two_holders, metadata_leaves, metadata_leaves_high.
  simpl. repeat constructor; vm_compute; discriminate.
Qed.

Lemma leaves_two_holders_unique totalSupply :
  unique_slots (leaves_two_holders totalSupply).
Proof.
  apply unique_slots_NoDup.
  apply (bool_decide_unpack _). vm_compute. exact I.
Qed.

Lemma successful_run_store_witness :
  exists db', after (run_match true) schedule_match = Some (Returned None db') /\
    GetState db' LegacyERC20ETHAddr getOVMETHTotalSupplySlot = 0 /\
    GetState db' LegacyERC20ETHAddr (CalcAllowanceStorageKey holderA holderB) =
      GetState (state_two_holders [] 3) LegacyERC20ETHAddr
        (CalcAllowanceStorageKey holderA holderB) /\
    GetState db' LegacyERC20ETHAddr (CalcOVMETHStorageKey holderB) = 0 /\
    GetBalance db' holderB = 2.
Proof.
  assert (Hr : match after (run_match true) schedule_match with
               | Some (Returned None _) => true
               | _ => false
               end = true) by (vm_compute; reflexivity).
  destruct (after (run_match true) schedule_match) as [[[err|] db'| | |]|] eqn:E;
    try discriminate Hr.
  clear Hr. unfold run_match, migrate in E.
  destruct (successful_run_store (state_two_holders [] 3)
              (Some (state_two_holders [] 3)) [holderA; holderB]
              [mkAllowance holderA holderB] 0 true schedule_match db' E)
    as (Hts & Hkeep & Hleaf).
  exists db'. split; [reflexivity|]. split; [exact Hts|]. split.
  - apply Hkeep; vm_compute; discriminate.
  - destruct (Hleaf (state_two_holders [] 3) (leaves_two_holders 3) eq_refl)
      with (e := leaf (boundary 20 + 1) (CalcOVMETHStorageKey holderB) 2)
           (key := CalcOVMETHStorageKey holderB) (content := rlp_value 2)
      as (addr & Haddr & _ & Hzero & Hbal).
    + vm_compute. reflexivity.
    + apply leaves_two_holders_sorted.
    + apply leaves_two_holders_unique.
    + by left.
    + apply list_elem_of_In. vm_compute. tauto.
    + apply holderB_leaf_classified.
    + vm_compute. reflexivity.
    + assert (Hb : (build_index [holderA; holderB] [mkAllowance holderA holderB]).1
                     !! CalcOVMETHStorageKey holderB = Some holderB)
        by (vm_compute; reflexivity).
      rewrite Hb in Haddr. injection Haddr as <-.
      split; [exact Hzero|]. rewrite Hbal. vm_compute. reflexivity.
Defined.

(** C5, against the claim: in the strict run of "everything matches", which
    returns nil, the slot of the allowance A -> B holds after the run the
    value 1 it held before: no path of [doMigration] writes to an allowance
    slot. *)
Lemma match_run_keeps_allowance :
  (build_index [holderA; holderB] [mkAllowance holderA holderB]).2
    !! CalcAllowanceStorageKey holderA holderB = Some AllowanceSlot /\
  exists db', after (run_match false) schedule_match = Some (Returned None db') /\
    GetState db' LegacyERC20ETHAddr (CalcAllowanceStorageKey holderA holderB) = 1 /\
    GetState db' LegacyERC20ETHAddr getOVMETHTotalSupplySlot = 0 /\
    GetBalance db' holderA = 1 /\ GetBalance db' holderB = 2.
Proof.
  split; [vm_compute; reflexivity|].
  assert (Hr : match after (run_match false) schedule_match with
               | Some (Returned None db') =>
                   bool_decide
                     (GetState db' LegacyERC20ETHAddr
                        (CalcAllowanceStorageKey holderA holderB) = 1 /\
                      GetState db' LegacyERC20ETHAddr getOVMETHTotalSupplySlot = 0 /\
                      GetBalance db' holderA = 1 /\ GetBalance db' holderB = 2)
               | _ => false
               end = true) by (vm_compute; reflexivity).
  destruct (after (run_match false) schedule_match) as [[[err|] db'| | |]|];
    try discriminate Hr.
  exists db'. split; [reflexivity|]. by apply bool_decide_eq_true_1 in Hr.
Qed.


(** A strict run can lose the error of a worker: when every worker has
    returned before the collector reads [errCh], the caller's
    [cancelOnce.Do] comes first and the collector's, which would keep the
    error, does nothing.  With a recorded supply that matches what was
    migrated, the run returns nil although the leaf of holder B was never
    explained, and the slot of B is left as it was. *)
Lemma strict_run_can_drop_error :
  exists db',
    after run_missing_supply_1 schedule_missing_late = Some (Returned None db') /\
    GetState db' LegacyERC20ETHAddr (CalcOVMETHStorageKey holderB) = 2 /\
    GetBalance db' holderB = 0.
Proof.
  assert (Hr : match after run_missing_supply_1 schedule_missing_late with
               | Some (Returned None db') =>
                   bool_decide
                     (GetState db' LegacyERC20ETHAddr (CalcOVMETHStorageKey holderB) = 2 /\
                      GetBalance db' holderB = 0)
               | _ => false
               end = true) by (vm_compute; reflexivity).
  destruct (after run_missing_supply_1 schedule_missing_late) as [[[err|] db'| | |]|];
    try discriminate Hr.
  exists db'. split; [reflexivity|]. by apply bool_decide_eq_true_1 in Hr.
Qed.

(** The relaxed run of "missing input addresses" returns under no schedule. *)
Lemma missing_relaxed_never_returns (ls : list label) (r : option string)
    (db' : StateDB) :
  after (run_missing true) ls <> Some (Returned r db').
Proof.
  unfold run_missing, migrate.
  apply (relaxed_unknown_slot_never_returns (state_two_holders [] 3)
           (state_two_holders [] 3) [holderA] [mkAllowance holderA holderB] 0
           (leaves_two_holders 3)
           (leaf (boundary 20 + 1) (CalcOVMETHStorageKey holderB) 2)
           (CalcOVMETHStorageKey holderB) (rlp_value 2)).
  - vm_compute. reflexivity.
  - apply leaves_two_holders_sorted.
  - apply list_elem_of_In. vm_compute. tauto.
  - apply holderB_leaf_classified.
  - vm_compute. reflexivity.
Qed.

(** ** Further properties: the partitions *)

(** X1: the range of partition [i] by its formula, without wrap-around: it
    starts at [i * (maxSlot / count)]; every partition but the last is
    [maxSlot / count] keys wide and the last takes the remainder of the
    division as well, fewer than [count] keys more. *)
Theorem PartitionKeyspace_widths (i count : Z) :
  1 <= count <= int_max -> 0 <= i < count ->
  exists start end_,
    PartitionKeyspace i count = Returns (start, end_) /\
    start = i * (maxSlot / count) /\
    (i < count - 1 -> end_ - start = maxSlot / count) /\
    (i = count - 1 ->
       end_ - start = maxSlot / count + maxSlot mod count /\
       0 <= maxSlot mod count < count).
Proof.
  intros Hc Hi.
  assert (Hint : is_int count) by (unfold is_int, int_min, int_max in *; lia).
  rewrite (PartitionKeyspace_valid i count Hint Hi). unfold partSize_of.
  eexists _, _. split; [reflexivity|]. split; [reflexivity|]. split.
  - intros Hlt. replace (i <? count - 1) with true by (symmetry; by apply Z.ltb_lt).
    lia.
  - intros ->. rewrite Z.ltb_irrefl.
    pose proof (Z.div_mod maxSlot count ltac:(lia)) as Hdm.
    pose proof (Z.mod_pos_bound maxSlot count ltac:(lia)) as Hmod.
    split; [lia|exact Hmod].
Qed.

Lemma PartitionKeyspace_widths_witness :
  exists start end_,
    PartitionKeyspace 2 3 = Returns (start, end_) /\
    start = 2 * (maxSlot / 3) /\
    end_ - start = maxSlot / 3 + maxSlot mod 3.
Proof.
  destruct (PartitionKeyspace_widths 2 3) as (start & end_ & Hp & Hs & _ & Hlast).
  - unfold int_max. lia.
  - lia.
  - exists start, end_. split; [exact Hp|]. split; [exact Hs|].
    by destruct (Hlast eq_refl).
Defined.

(** ** Further properties: the expectation index *)

Section IndexSource.
Context `{Externals}.

Lemma index_entry_source_empty addrs alls key :
  index_entry_source addrs alls (∅, ∅) key.
Proof. unfold index_entry_source. simpl. by rewrite !lookup_empty. Qed.

Lemma index_entry_source_mono addrs addrs' alls alls' idx key :
  addrs ⊆ addrs' -> alls ⊆ alls' ->
  index_entry_source addrs alls idx key -> index_entry_source addrs' alls' idx key.
Proof.
  intros Ha Hl. unfold index_entry_source.
  destruct (idx.2 !! key), (idx.1 !! key); try done.
  intros [(? & ? & ?)|(? & al & ? & ?)]; [left|right].
  - split; [done|]. split; [done|]. by apply Ha.
  - split; [done|]. exists al. split; [by apply Hl|done].
Qed.

Lemma add_address_source addrs alls acc addr :
  addr ∈ addrs ->
  (forall key, index_entry_source addrs alls acc key) ->
  forall key, index_entry_source addrs alls (add_address acc addr) key.
Proof.
  intros Hin Hacc key. specialize (Hacc key). unfold index_entry_source, add_address in *.
  simpl. destruct (decide (CalcOVMETHStorageKey addr = key)) as [<-|Hne].
  - rewrite !lookup_insert_eq. left. done.
  - by rewrite !lookup_insert_ne.
Qed.

Lemma add_allowance_source addrs alls acc al :
  al ∈ alls ->
  (forall key, index_entry_source addrs alls acc key) ->
  forall key, index_entry_source addrs alls (add_allowance acc al) key.
Proof.
  intros Hin Hacc key. specialize (Hacc key). unfold index_entry_source, add_allowance in *.
  simpl. destruct (decide (CalcAllowanceStorageKey (From al) (To al) = key)) as [<-|Hne].
  - rewrite !lookup_insert_eq. right. split; [done|]. by exists al.
  - by rewrite !lookup_insert_ne.
Qed.

Lemma fold_add_address_source addrs alls l : forall acc,
  (forall a, a ∈ l -> a ∈ addrs) ->
  (forall key, index_entry_source addrs alls acc key) ->
  forall key, index_entry_source addrs alls (fold_left add_address l acc) key.
Proof.
  induction l as [|a l IH]; intros acc Hl Hacc; [done|]. simpl.
  apply IH.
  - intros a' Ha'. apply Hl. by right.
  - apply add_address_source; [|done]. apply Hl. by left.
Qed.

Lemma fold_add_allowance_source addrs alls l : forall acc,
  (forall a, a ∈ l -> a ∈ alls) ->
  (forall key, index_entry_source addrs alls acc key) ->
  forall key, index_entry_source addrs alls (fold_left add_allowance l acc) key.
Proof.
  induction l as [|a l IH]; intros acc Hl Hacc; [done|]. simpl.
  apply IH.
  - intros a' Ha'. apply Hl. by right.
  - apply add_allowance_source; [|done]. apply Hl. by left.
Qed.

Lemma build_index_source addresses allowances key :
  index_entry_source (sequencerEntrypointAddr :: addresses) allowances
    (build_index addresses allowances) key.
Proof.
  unfold build_index. revert key. apply add_address_source; [by left|].
  apply fold_add_allowance_source; [done|].
  apply fold_add_address_source; [by right|].
  apply index_entry_source_empty.
Qed.

(** An entry of the index stays, whatever is added. *)
Lemma add_address_keeps acc addr key :
  is_Some (acc.2 !! key) -> is_Some ((add_address acc addr).2 !! key).
Proof.
  unfold add_address. simpl. intros Hs.
  destruct (decide (CalcOVMETHStorageKey addr = key)) as [<-|Hne].
  - by rewrite lookup_insert_eq.
  - by rewrite lookup_insert_ne.
Qed.

Lemma add_allowance_keeps acc al key :
  is_Some (acc.2 !! key) -> is_Some ((add_allowance acc al).2 !! key).
Proof.
  unfold add_allowance. simpl. intros Hs.
  destruct (decide (CalcAllowanceStorageKey (From al) (To al) = key)) as [<-|Hne].
  - by rewrite lookup_insert_eq.
  - by rewrite lookup_insert_ne.
Qed.

Lemma fold_add_address_keeps l key : forall acc,
  is_Some (acc.2 !! key) -> is_Some ((fold_left add_address l acc).2 !! key).
Proof.
  induction l as [|a l IH]; intros acc Hs; [done|]. simpl.
  apply IH. by apply add_address_keeps.
Qed.

Lemma fold_add_allowance_keeps l key : forall acc,
  is_Some (acc.2 !! key) -> is_Some ((fold_left add_allowance l acc).2 !! key).
Proof.
  induction l as [|a l IH]; intros acc Hs; [done|]. simpl.
  apply IH. by apply add_allowance_keeps.
Qed.

Lemma fold_add_address_present l a : forall acc,
  a ∈ l -> is_Some ((fold_left add_address l acc).2 !! CalcOVMETHStorageKey a).
Proof.
  induction l as [|b l IH]; intros acc Hin; [by apply elem_of_nil in Hin|].
  simpl. apply elem_of_cons in Hin as [->|Hin]; [|by apply IH].
  apply fold_add_address_keeps. unfold add_address. simpl.
  by rewrite lookup_insert_eq.
Qed.

(** An allowance key holds an Allowance entry until an address is added. *)
Lemma fold_add_allowance_present l al : forall acc,
  al ∈ l ->
  (fold_left add_allowance l acc).2 !! CalcAllowanceStorageKey (From al) (To al)
    = Some AllowanceSlot.
Proof.
  induction l as [|b l IH] using rev_ind; intros acc Hin; [by apply elem_of_nil in Hin|].
  rewrite fold_left_app. simpl. unfold add_allowance at 1. simpl.
  apply elem_of_app in Hin as [Hin|Hin].
  - destruct (decide (CalcAllowanceStorageKey (From b) (To b)
                      = CalcAllowanceStorageKey (From al) (To al))) as [->|Hne].
    + by rewrite lookup_insert_eq.
    + rewrite lookup_insert_ne; [|done]. by apply IH.
  - apply list_elem_of_singleton in Hin as ->. by rewrite lookup_insert_eq.
Qed.

(** X2: the index [doMigration] builds.  The two maps have the same keys;
    a Balance entry stands under the balance key of its address, which is an
    input address or the sequencer entrypoint; an Allowance entry stands under
    the key of an input allowance, with its owner; the sequencer entrypoint
    is always a Balance entry; every input address has an entry, and every
    input allowance an Allowance entry unless its key is the balance key of
    the sequencer entrypoint. *)
Theorem build_index_entries (addresses : list Address) (allowances : list Allowance) :
  let idx := build_index addresses allowances in
  (forall key, idx.1 !! key = None <-> idx.2 !! key = None) /\
  (forall key addr, idx.2 !! key = Some BalanceSlot -> idx.1 !! key = Some addr ->
     key = CalcOVMETHStorageKey addr /\
     (addr ∈ addresses \/ addr = sequencerEntrypointAddr)) /\
  (forall key addr, idx.2 !! key = Some AllowanceSlot -> idx.1 !! key = Some addr ->
     exists al, al ∈ allowances /\ addr = From al /\
       key = CalcAllowanceStorageKey (From al) (To al)) /\
  (forall key slotType, idx.2 !! key = Some slotType ->
     slotType = BalanceSlot \/ slotType = AllowanceSlot) /\
  idx.2 !! CalcOVMETHStorageKey sequencerEntrypointAddr = Some BalanceSlot /\
  idx.1 !! CalcOVMETHStorageKey sequencerEntrypointAddr = Some sequencerEntrypointAddr /\
  (forall a, a ∈ addresses -> is_Some (idx.2 !! CalcOVMETHStorageKey a)) /\
  (forall al, al ∈ allowances ->
     idx.2 !! CalcAllowanceStorageKey (From al) (To al) =
       if decide (CalcAllowanceStorageKey (From al) (To al)
                  = CalcOVMETHStorageKey sequencerEntrypointAddr)
       then Some BalanceSlot else Some AllowanceSlot).
Proof.
  intros idx.
  assert (Hsrc : forall key,
    index_entry_source (sequencerEntrypointAddr :: addresses) allowances idx key)
    by apply build_index_source.
  split; [|split; [|split; [|split; [|split; [|split; [|split]]]]]].
  - intros key. specialize (Hsrc key). unfold index_entry_source in Hsrc.
    destruct (idx.2 !! key), (idx.1 !! key); try done.
  - intros key addr H2 H1. specialize (Hsrc key). unfold index_entry_source in Hsrc.
    rewrite H2, H1 in Hsrc. destruct Hsrc as [(_ & Hk & Hin)|(Hs & _)]; [|done].
    split; [done|]. apply elem_of_cons in Hin as [->|Hin]; [by right|by left].
  - intros key addr H2 H1. specialize (Hsrc key). unfold index_entry_source in Hsrc.
    rewrite H2, H1 in Hsrc. destruct Hsrc as [(Hs & _)|(_ & Hal)]; [done|exact Hal].
  - intros key slotType H2. specialize (Hsrc key). unfold index_entry_source in Hsrc.
    rewrite H2 in Hsrc. destruct (idx.1 !! key); [|done].
    destruct Hsrc as [(-> & _)|(-> & _)]; [by left|by right].
  - unfold idx, build_index, add_address. simpl. by rewrite lookup_insert_eq.
  - unfold idx, build_index, add_address. simpl. by rewrite lookup_insert_eq.
  - intros a Hin. unfold idx, build_index. apply add_address_keeps.
    apply fold_add_allowance_keeps. by apply fold_add_address_present.
  - intros al Hin. unfold idx, build_index. unfold add_address at 1. simpl.
    destruct (decide _) as [->|Hne].
    + by rewrite lookup_insert_eq.
    + rewrite lookup_insert_ne; [|done]. by apply fold_add_allowance_present.
Qed.
End IndexSource.

(** ** Further properties: the exits of the loop body *)

Section LoopExits.
Context `{Externals}.

(** X3: with the index [doMigration] builds, the loop body reaches [log.Crit]
    only for a leaf without preimage, for a value [rlp.Split] rejects, or, in
    relaxed mode, for a key outside the index, where the lookup in
    [slotsAddrs] fails.  No leaf reaches "unknown slot type", and in strict
    mode none reaches "could not find address in map". *)
Theorem scan_entry_exits (noCheck : bool) (addresses : list Address)
    (allowances : list Allowance) (db : StateDB) (end_ : Hash) (e : trie_entry)
    (msg : string) :
  let idx := build_index addresses allowances in
  (scan_entry noCheck idx.1 idx.2 db end_ e).2 = ECrit msg ->
  (it_preimage e = None /\ msg = "cannot get preimage for storage key") \/
  (rlp_Split (it_Value e) = None /\ msg = "mal-formed data in state: %v") \/
  (noCheck = true /\
   msg = "could not find address in map - should never happen" /\
   exists rawKey, it_preimage e = Some rawKey /\ idx.2 !! BytesToHash rawKey = None).
Proof.
  intros idx. unfold scan_entry.
  destruct (SetBytes (it_Key e) >? Hash_Big end_); [discriminate|].
  destruct (length (it_Value e) =? 0)%nat; [discriminate|].
  destruct (it_preimage e) as [rawKey|] eqn:Hpre.
  2:{ simpl. intros [= <-]. by left. }
  destruct (rlp_Split (it_Value e)) as [content|] eqn:Hsplit.
  2:{ simpl. intros [= <-]. right. by left. }
  destruct (bool_decide (BytesToHash rawKey ∈ ignoredSlots)); [discriminate|].
  pose proof (build_index_ok addresses allowances (BytesToHash rawKey)) as Hok.
  fold idx in Hok.
  destruct (idx.2 !! BytesToHash rawKey) as [slotType|] eqn:Hkey.
  - destruct (index_slot_type idx _ slotType Hok Hkey) as (addr & Haddr & Hkind).
    unfold lookup_address. rewrite Haddr.
    assert (Hst : slotType = BalanceSlot \/ slotType = AllowanceSlot)
      by (destruct Hkind as [[-> _]|[-> _]]; [by left|by right]).
    rewrite (check_balance_known noCheck db slotType _ addr content Hst).
    intros Hcrit. exfalso.
    destruct (decide (GetBalance db addr = 0)), noCheck; simpl in Hcrit;
      try discriminate Hcrit;
      unfold classified_as in Hcrit;
      destruct (slotType =? BalanceSlot); discriminate Hcrit.
  - destruct noCheck; [|discriminate].
    unfold lookup_address. rewrite (index_unknown idx _ Hok Hkey). simpl.
    intros [= <-]. right. right. split; [done|]. split; [done|]. by exists rawKey.
Qed.

(** X17: when the loop body sends a candidate.  It does so exactly for a
    leaf inside the partition whose value is not empty and decodes, whose
    preimage is known, not ignored and a Balance key of the index, and, in
    strict mode, whose account holds no balance in the state; the candidate
    carries the decoded value, the key and the address of the index. *)
Theorem candidate_sent_iff (noCheck : bool) (slotsAddrs slotsInp : gmap Z Z)
    (db : StateDB) (end_ : Hash) (e : trie_entry) (c : accountData) :
  (scan_entry noCheck slotsAddrs slotsInp db end_ e).2 = ESend c <->
  exists rawKey content addr,
    SetBytes (it_Key e) <= Hash_Big end_ /\
    it_Value e <> [] /\
    it_preimage e = Some rawKey /\
    rlp_Split (it_Value e) = Some content /\
    (BytesToHash rawKey ∉ ignoredSlots) /\
    slotsInp !! BytesToHash rawKey = Some BalanceSlot /\
    slotsAddrs !! BytesToHash rawKey = Some addr /\
    (noCheck = false -> GetBalance db addr = 0) /\
    c = mkAccountData (Hash_Big (BytesToHash content)) (BytesToHash rawKey) addr.
Proof.
  assert (Hclass : forall slotType key addr content,
            (classify noCheck slotType key addr content).2 = ESend c <->
            slotType = BalanceSlot /\
            c = mkAccountData (Hash_Big (BytesToHash content)) key addr).
  { intros slotType key addr content. unfold classify.
    destruct (slotType =? BalanceSlot) eqn:Hb.
    - apply Z.eqb_eq in Hb. simpl. split.
      + intros [= <-]. done.
      + intros [_ ->]. done.
    - apply Z.eqb_neq in Hb.
      destruct (slotType =? AllowanceSlot); [|destruct noCheck]; simpl;
        (split; [discriminate|intros [? _]; done]). }
  assert (Hlook : forall slotType key content,
            (lookup_address noCheck slotsAddrs db slotType key content).2 = ESend c <->
            exists addr, slotsAddrs !! key = Some addr /\
              (noCheck = false -> GetBalance db addr = 0) /\
              slotType = BalanceSlot /\
              c = mkAccountData (Hash_Big (BytesToHash content)) key addr).
  { intros slotType key content. unfold lookup_address.
    destruct (slotsAddrs !! key) as [addr|].
    2:{ simpl. split; [discriminate|]. intros (? & [=] & _). }
    unfold check_balance.
    destruct (Z.sgn (GetBalance db addr) =? 0) eqn:Hsgn; simpl.
    - apply Z.eqb_eq in Hsgn. apply -> Z.sgn_null_iff in Hsgn. rewrite Hclass. split.
      + intros [-> ->]. by exists addr.
      + intros (? & [= <-] & _ & -> & ->). done.
    - apply Z.eqb_neq in Hsgn. rewrite Z.sgn_null_iff in Hsgn.
      destruct noCheck; simpl.
      + rewrite Hclass. split.
        * intros [-> ->]. by exists addr.
        * intros (? & [= <-] & _ & -> & ->). done.
      + split; [discriminate|]. intros (? & [= <-] & Hz & _). by destruct Hsgn; apply Hz. }
  unfold scan_entry.
  destruct (SetBytes (it_Key e) >? Hash_Big end_) eqn:Hend.
  { simpl. split; [discriminate|]. intros (? & ? & ? & Hle & _).
    apply Z.gtb_lt in Hend. lia. }
  assert (Hle : SetBytes (it_Key e) <= Hash_Big end_).
  { destruct (Z.gtb_spec (SetBytes (it_Key e)) (Hash_Big end_)); [done|lia]. }
  destruct (it_Value e) as [|b bs] eqn:Hval.
  { simpl. split; [discriminate|]. intros (? & ? & ? & _ & Hne & _). done. }
  cbn [length Nat.eqb].
  destruct (it_preimage e) as [rawKey|].
  2:{ simpl. split; [discriminate|]. intros (? & ? & ? & _ & _ & [=] & _). }
  destruct (rlp_Split (b :: bs)) as [content|].
  2:{ simpl. split; [discriminate|]. intros (? & ? & ? & _ & _ & _ & [=] & _). }
  case_bool_decide as Hign.
  { simpl. split; [discriminate|].
    intros (? & ? & ? & _ & _ & [= <-] & _ & Hn & _). done. }
  assert (Hfinish : forall slotType,
            (lookup_address noCheck slotsAddrs db slotType (BytesToHash rawKey) content).2
              = ESend c /\ slotsInp !! BytesToHash rawKey = Some slotType ->
            exists rawKey0 content0 addr,
              SetBytes (it_Key e) <= Hash_Big end_ /\ b :: bs <> [] /\
              Some rawKey = Some rawKey0 /\ Some content = Some content0 /\
              (BytesToHash rawKey0 ∉ ignoredSlots) /\
              slotsInp !! BytesToHash rawKey0 = Some BalanceSlot /\
              slotsAddrs !! BytesToHash rawKey0 = Some addr /\
              (noCheck = false -> GetBalance db addr = 0) /\
              c = mkAccountData (Hash_Big (BytesToHash content0)) (BytesToHash rawKey0) addr).
  { intros slotType [(addr & Ha & Hz & -> & ->)%Hlook Hsi].
    exists rawKey, content, addr. done. }
  destruct (slotsInp !! BytesToHash rawKey) as [slotType|] eqn:Hsi.
  - split.
    + intros Hs. apply (Hfinish slotType). by split.
    + intros (? & ? & addr & _ & _ & [= <-] & [= <-] & _ & Hs2 & Ha & Hz & ->).
      rewrite Hsi in Hs2. injection Hs2 as ->.
      apply Hlook. by exists addr.
  - assert (Hnone : ~ exists rawKey0 content0 addr,
              SetBytes (it_Key e) <= Hash_Big end_ /\ b :: bs <> [] /\
              Some rawKey = Some rawKey0 /\ Some content = Some content0 /\
              (BytesToHash rawKey0 ∉ ignoredSlots) /\
              slotsInp !! BytesToHash rawKey0 = Some BalanceSlot /\
              slotsAddrs !! BytesToHash rawKey0 = Some addr /\
              (noCheck = false -> GetBalance db addr = 0) /\
              c = mkAccountData (Hash_Big (BytesToHash content0)) (BytesToHash rawKey0) addr).
    { intros (? & ? & ? & _ & _ & [= <-] & _ & _ & Hs2 & _).
      rewrite Hsi in Hs2. discriminate Hs2. }
    destruct noCheck; simpl.
    + split; [|by intros ?%Hnone].
      intros (addr & _ & _ & Hzero & _)%Hlook. discriminate Hzero.
    + split; [discriminate|by intros ?%Hnone].
Qed.
End LoopExits.

Lemma scan_entry_exits_witness :
  let idx := build_index [holderA] [mkAllowance holderA holderB] in
  let e := leaf (boundary 20 + 1) (CalcOVMETHStorageKey holderB) 2 in
  (scan_entry true idx.1 idx.2 (state_two_holders [] 3) maxSlot e).2
    = ECrit "could not find address in map - should never happen" /\
  exists rawKey, it_preimage e = Some rawKey /\ idx.2 !! BytesToHash rawKey = None.
Proof.
  intros idx e.
  assert (Hs : (scan_entry true idx.1 idx.2 (state_two_holders [] 3) maxSlot e).2
               = ECrit "could not find address in map - should never happen")
    by (vm_compute; reflexivity).
  split; [exact Hs|].
  destruct (scan_entry_exits true [holderA] [mkAllowance holderA holderB]
              (state_two_holders [] 3) maxSlot e _ Hs)
    as [[Hp _]|[[Hp _]|(_ & _ & Hraw)]].
  - discriminate Hp.
  - exfalso. vm_compute in Hp. discriminate Hp.
  - exact Hraw.
Defined.

(** ** Further properties: the collector and the store *)

Lemma first_balance_elem a l :
  a ∈ (address <$> l) ->
  exists c, c ∈ l /\ address c = a /\ first_balance a l = balance c.
Proof.
  induction l as [|c l IH]; intros Hin; [by apply elem_of_nil in Hin|].
  simpl. case_bool_decide as Heq.
  - exists c. split; [by left|done].
  - rewrite fmap_cons in Hin. apply elem_of_cons in Hin as [Hin|Hin]; [congruence|].
    destruct (IH Hin) as (c' & ? & ? & ?). exists c'. split; [by right|done].
Qed.

Lemma balance_collect_all cands : forall st a,
  GetBalance (mutableDB (collect_all st cands)) a =
    if bool_decide (a ∈ (address <$> applications st cands))
    then first_balance a (applications st cands)
    else GetBalance (mutableDB st) a.
Proof.
  induction cands as [|c cands IH]; intros st a.
  - rewrite collect_all_nil. cbn [applications fmap list_fmap].
    rewrite bool_decide_eq_false_2; [done|]. apply not_elem_of_nil.
  - rewrite collect_all_cons. simpl.
    destruct (decide (address c ∈ seenAccounts st)) as [Hseen|Hfresh].
    + rewrite (bool_decide_eq_true_2 _ Hseen). rewrite IH.
      by rewrite (collect_seen _ _ Hseen).
    + rewrite (bool_decide_eq_false_2 _ Hfresh). rewrite IH, fmap_cons. simpl.
      destruct (decide (address c = a)) as [<-|Hne].
      * rewrite (bool_decide_eq_true_2 (address c = address c) eq_refl).
        rewrite (bool_decide_eq_true_2 (address c ∈ _ :: _)); [|by left].
        rewrite bool_decide_eq_false_2.
        -- rewrite (collect_fresh _ _ Hfresh). simpl.
           rewrite GetBalance_SetState, GetBalance_SetBalance. by rewrite decide_True.
        -- intros (c' & Heq & Hc')%list_elem_of_fmap.
           apply applications_fresh in Hc'. apply Hc'.
           rewrite seen_collect, <- Heq. set_solver.
      * rewrite (bool_decide_eq_false_2 (address c = a) Hne).
        assert (Hb : GetBalance (mutableDB (collect st c)) a = GetBalance (mutableDB st) a).
        { rewrite (collect_fresh _ _ Hfresh). simpl.
          rewrite GetBalance_SetState, GetBalance_SetBalance. by rewrite decide_False. }
        rewrite Hb.
        destruct (decide (a ∈ (address <$> applications (collect st c) cands)))
          as [Hin|Hout].
        -- rewrite !bool_decide_eq_true_2; [done| |done]. by right.
        -- rewrite !bool_decide_eq_false_2; [done| |done].
           intros [?|?]%elem_of_cons; congruence.
Qed.

Lemma state_collect_all cands : forall st addr k,
  GetState (mutableDB (collect_all st cands)) addr k =
    if bool_decide (addr = LegacyERC20ETHAddr /\
                    k ∈ (legacySlot <$> applications st cands))
    then 0 else GetState (mutableDB st) addr k.
Proof.
  induction cands as [|c cands IH]; intros st addr k.
  - rewrite collect_all_nil. cbn [applications fmap list_fmap].
    rewrite bool_decide_eq_false_2; [done|].
    intros [_ Hin]. by apply elem_of_nil in Hin.
  - rewrite collect_all_cons. simpl.
    destruct (decide (address c ∈ seenAccounts st)) as [Hseen|Hfresh].
    + rewrite (bool_decide_eq_true_2 _ Hseen). rewrite IH.
      by rewrite (collect_seen _ _ Hseen).
    + rewrite (bool_decide_eq_false_2 _ Hfresh). rewrite IH, fmap_cons.
      assert (Hs : GetState (mutableDB (collect st c)) addr k =
                   if decide ((LegacyERC20ETHAddr, legacySlot c) = (addr, k))
                   then 0 else GetState (mutableDB st) addr k).
      { rewrite (collect_fresh _ _ Hfresh). simpl.
        by rewrite GetState_SetState, GetState_SetBalance. }
      rewrite Hs.
      destruct (decide (addr = LegacyERC20ETHAddr /\
                        k ∈ (legacySlot <$> applications (collect st c) cands)))
        as [[-> Hin]|Hout].
      * rewrite !bool_decide_eq_true_2; [done| |done]. split; [done|by right].
      * rewrite (bool_decide_eq_false_2 _ Hout).
        case_decide as Heq.
        -- injection Heq as <- <-. rewrite bool_decide_eq_true_2; [done|].
           split; [done|by left].
        -- rewrite bool_decide_eq_false_2; [done|].
           intros [-> [->|Hin]%elem_of_cons]; [done|]. apply Hout. by split.
Qed.

Lemma trie_collect st c : db_trie (mutableDB (collect st c)) = db_trie (mutableDB st).
Proof. unfold collect. by case_bool_decide. Qed.

Lemma trie_collect_all cands : forall st,
  db_trie (mutableDB (collect_all st cands)) = db_trie (mutableDB st).
Proof.
  induction cands as [|c cands IH]; intros st; [by rewrite collect_all_nil|].
  by rewrite collect_all_cons, IH, trie_collect.
Qed.

(** X4: the store the collector leaves after any sequence of candidates.  An
    address that occurs among the candidates holds the balance of its first
    candidate, replacing what it held; every other balance is as before.  The
    slots of the legacy contract named by the applied candidates are zero;
    every other slot, of any contract, and the storage tries are as before. *)
Theorem collector_store (db : StateDB) (cands : list accountData) :
  let st := collect_all (new_collector db) cands in
  (forall a, GetBalance (mutableDB st) a =
     if bool_decide (a ∈ (address <$> cands))
     then first_balance a cands else GetBalance db a) /\
  (forall addr k, GetState (mutableDB st) addr k =
     if bool_decide (addr = LegacyERC20ETHAddr /\
                     k ∈ (legacySlot <$> applications (new_collector db) cands))
     then 0 else GetState db addr k) /\
  db_trie (mutableDB st) = db_trie db.
Proof.
  intros st. split; [|split].
  - intros a. unfold st. rewrite balance_collect_all. simpl.
    pose proof (applications_addresses cands (new_collector db)) as Heq.
    simpl in Heq.
    assert (Hiff : a ∈ (address <$> applications (new_collector db) cands) <->
                   a ∈ (address <$> cands)).
    { rewrite <- !(elem_of_list_to_set (C := gset Z)).
      assert (Hl : list_to_set (address <$> applications (new_collector db) cands)
                   = (list_to_set (address <$> cands) : gset Z)).
      { revert Heq. generalize (list_to_set (address <$> cands) : gset Z).
        generalize (list_to_set (address <$> applications (new_collector db) cands)
                    : gset Z).
        intros X Y HXY. set_solver. }
      by rewrite Hl. }
    destruct (decide (a ∈ (address <$> cands))) as [Hin|Hout].
    + rewrite !bool_decide_eq_true_2; [|done|by apply Hiff].
      apply Hiff in Hin. destruct (first_balance_elem _ _ Hin) as (c & Hc & <- & ->).
      symmetry. by apply (applications_first cands (new_collector db)).
    + rewrite !bool_decide_eq_false_2; [done|done|]. by rewrite Hiff.
  - intros addr k. unfold st. by rewrite state_collect_all.
  - unfold st. by rewrite trie_collect_all.
Qed.

(** The sum of the balances of the accounts seen. *)
Lemma balanced_new db : balanced (new_collector db).
Proof. unfold balanced. simpl. by rewrite elements_empty. Qed.

Lemma balanced_collect st c : balanced st -> balanced (collect st c).
Proof.
  intros Hb. destruct (decide (address c ∈ seenAccounts st)) as [Hseen|Hfresh].
  - by rewrite (collect_seen _ _ Hseen).
  - rewrite (collect_fresh _ _ Hfresh). unfold balanced in *. simpl.
    rewrite (sumZ_Permutation _
               (GetBalance (SetState (SetBalance (mutableDB st) (address c) (balance c))
                              LegacyERC20ETHAddr (legacySlot c) 0)
                  <$> address c :: elements (seenAccounts st))).
    2:{ apply fmap_Permutation. by apply elements_union_singleton. }
    rewrite fmap_cons. simpl.
    rewrite GetBalance_SetState, GetBalance_SetBalance, decide_True by done.
    rewrite Hb. rewrite Z.add_comm. f_equal. f_equal.
    apply list_fmap_ext. intros i a Ha.
    rewrite GetBalance_SetState, GetBalance_SetBalance.
    rewrite decide_False; [done|].
    intros <-. apply Hfresh. apply elem_of_elements.
    by eapply list_elem_of_lookup_2.
Qed.

(** ** Further properties: every state of a run *)

Ltac transition_cases Ht :=
  destruct Ht as
    [ l s s' msg Hcr Hcr'
    | i s start end_ db0 leaves0 Hcr Hw Hf Ht
    | i s end_ db0 Hcr Hw
    | i s end_ db0 e rest Hcr Hw Hc
    | i s end_ db0 e rest logged Hcr Hw Hc Hscan
    | i s end_ db0 e rest logged Hcr Hw Hc Hscan
    | i s end_ db0 e rest logged err Hcr Hw Hc Hscan
    | i s end_ db0 e rest logged c Hcr Hw Hc Hscan
    | i s end_ db0 c rest Hcr Hcol Hw
    | s err rest Hcr Hcol Hch
    | s Hcr Hcol Hc
    | s Hcr Hm Hd
    | s err Hcr Hm Hcol Hl
    | s db0 logged err Hcr Hm Hcol Hl Hf Hs
    | s db0 logged Hcr Hm Hcol Hl Hf Hs ].

Section Reachable.
Context `{Externals}.
Variables (mdb : StateDB) (dbFactory : DBFactory) (addresses : list Address)
  (allowances : list Allowance) (expDiff : Z) (noCheck : bool).

Local Abbreviation cfg0 :=
  (mkConfig noCheck (build_index addresses allowances).1
     (build_index addresses allowances).2 dbFactory expDiff).

(** A property of the first state that every move keeps holds in every
    state of a run. *)
Lemma reachable_invariant (P : state -> Prop) ls s' :
  (forall ws, spawn (seqZ 0 checkJobs) = Returns ws ->
     P (mkState ws [] false false None (new_collector mdb) true MWait None [])) ->
  (forall l s s1, caller_inv cfg0 s -> P s -> transition cfg0 l s s1 -> P s1) ->
  final_state (start_doMigration mdb dbFactory addresses allowances expDiff noCheck) ls
    = Some s' ->
  P s' /\ caller_inv cfg0 s' /\
  exists s0, doMigration mdb dbFactory addresses allowances expDiff noCheck
               = Returns (cfg0, s0) /\ exec cfg0 ls s0 = Some s'.
Proof.
  intros Hstart Hstep (cfg & s & Hd & He)%final_state_start.
  pose proof (caller_inv_start _ _ _ _ _ _ _ _ Hd) as Hcaller.
  pose proof Hd as Hd'.
  apply doMigration_start in Hd' as (-> & ws & Hsp & ->).
  assert (Hboth : caller_inv cfg0 s' /\ P s').
  { eapply (exec_invariant cfg0 (fun s => caller_inv cfg0 s /\ P s)); [| |exact He].
    - intros l s1 s2 [Hc1 Hp1] Ht. split.
      + by eapply caller_inv_step.
      + by eapply Hstep.
    - split; [exact Hcaller|by apply Hstart]. }
  destruct Hboth as [Hc Hp]. split; [exact Hp|]. split; [exact Hc|].
  eexists. split; [exact Hd|exact He].
Qed.

Lemma spawn_no_sender ws i end_ db c it :
  spawn (seqZ 0 checkJobs) = Returns ws -> ws !! i <> Some (WSend end_ db c it).
Proof.
  intros Hsp Hw.
  destruct (spawn_lookup _ _ _ _ Hsp Hw) as (j & start & end' & _ & _ & [=]).
Qed.

(** X5: in every state of a run, the total found is the sum of the balances
    the target store holds for the accounts seen: each candidate adds to the
    total exactly the balance the collector writes, a duplicate adds nothing,
    and no other write touches a balance. *)
Theorem run_total_is_stored (ls : list label) (s' : state) :
  final_state (start_doMigration mdb dbFactory addresses allowances expDiff noCheck) ls
    = Some s' ->
  crashed s' = None ->
  totalFound (coll s') =
    sumZ (GetBalance (mutableDB (coll s')) <$> elements (seenAccounts (coll s'))).
Proof.
  intros Hfinal Hcr'.
  destruct (reachable_invariant (fun s => crashed s = None -> balanced (coll s)) ls s')
    as (Hb & _); [| |exact Hfinal|by apply Hb].
  - intros ws _ _. apply balanced_new.
  - clear. intros l s s1 _ Hb Ht.
    transition_cases Ht;
      try (intros _; exact (Hb Hcr)).
    + intros ?. congruence.
    + intros _. simpl. by apply balanced_collect, Hb.
    + intros _. destruct (once_cancel_fields (set_errCh s rest) (Some err))
        as (_ & _ & -> & _). by apply Hb.
    + intros _. simpl. destruct (once_cancel_fields s None) as (_ & _ & -> & _).
      by apply Hb.
Qed.

Lemma store_frame_new allowed : store_frame mdb allowed (new_collector mdb).
Proof.
  split; [|split; [|split; [|split]]]; simpl; try done.
  intros k. by left.
Qed.

Lemma store_frame_collect (allowed : Address -> Prop) st c :
  allowed (address c) -> store_frame mdb allowed st ->
  store_frame mdb allowed (collect st c).
Proof.
  intros Hal Hf. destruct (decide (address c ∈ seenAccounts st)) as [Hseen|Hfresh].
  - by rewrite (collect_seen _ _ Hseen).
  - rewrite (collect_fresh _ _ Hfresh).
    destruct Hf as (Hseen & Hbal & Hother & Hlegacy & Htrie).
    split; [|split; [|split; [|split]]]; simpl.
    + intros a [->%elem_of_singleton|Ha]%elem_of_union; [done|by apply Hseen].
    + intros a Ha. rewrite GetBalance_SetState, GetBalance_SetBalance.
      rewrite decide_False; [|set_solver]. apply Hbal. set_solver.
    + intros addr k Hne. rewrite GetState_SetState, GetState_SetBalance.
      rewrite decide_False; [by apply Hother|]. intros [= ? ?]. congruence.
    + intros k. rewrite GetState_SetState, GetState_SetBalance.
      case_decide; [by right|apply Hlegacy].
    + exact Htrie.
Qed.

Lemma store_frame_cleared allowed st :
  store_frame mdb allowed st -> store_frame mdb allowed (supply_cleared st).
Proof.
  intros (Hseen & Hbal & Hother & Hlegacy & Htrie).
  split; [|split; [|split; [|split]]]; simpl; try done.
  - intros addr k Hne. rewrite GetState_SetState.
    rewrite decide_False; [by apply Hother|]. intros [= ? ?]. congruence.
  - intros k. rewrite GetState_SetState. case_decide; [by right|apply Hlegacy].
Qed.

(** Where a candidate of the index [doMigration] builds comes from. *)
Lemma emitted_input c :
  emitted cfg0 c ->
  legacySlot c = CalcOVMETHStorageKey (address c) /\
  (address c ∈ addresses \/ address c = sequencerEntrypointAddr).
Proof.
  intros [Hin Had]. cbn [cfg_slotsInp cfg_slotsAddrs] in Hin, Had.
  pose proof (build_index_source addresses allowances (legacySlot c)) as Hsrc.
  unfold index_entry_source in Hsrc. rewrite Hin, Had in Hsrc.
  destruct Hsrc as [(_ & Hk & Ha)|(Hs & _)]; [|discriminate Hs].
  split; [exact Hk|]. apply elem_of_cons in Ha as [->|Ha]; [by right|by left].
Qed.

Lemma senders_insert s s1 i w' :
  senders_emitted cfg0 s ->
  (forall end_ db c it, w' = WSend end_ db c it -> emitted cfg0 c) ->
  workers s1 = <[i := w']> (workers s) ->
  senders_emitted cfg0 s1.
Proof.
  intros Hs Hw' Hws j end_ db c it. rewrite Hws.
  intros [(<- & Hx & _)|(Hne & Hj)]%list_lookup_insert_Some.
  - by eapply Hw'.
  - by eapply Hs.
Qed.

Lemma senders_step l s s1 :
  (crashed s = None -> senders_emitted cfg0 s) -> transition cfg0 l s s1 ->
  crashed s1 = None -> senders_emitted cfg0 s1.
Proof.
  intros Hsenders Ht.
  transition_cases Ht; intros Hcr1;
    try (eapply (senders_insert s _ i); [by apply Hsenders| |reflexivity]; done);
    try exact (Hsenders Hcr).
  - congruence.
  - eapply (senders_insert s _ i); [by apply Hsenders| |reflexivity].
    intros end' db' c' it' [= <- <- <- <-].
    apply (scan_send_emitted cfg0 db0 end_ e). unfold scan. by rewrite Hscan.
  - intros j end' db' c' it'.
    destruct (once_cancel_fields (set_errCh s rest) (Some err)) as (-> & _).
    by apply Hsenders.
  - intros j end' db' c' it'. simpl.
    destruct (once_cancel_fields s None) as (-> & _). by apply Hsenders.
Qed.

(** X6: what a run may write, in every state it reaches, whether it ends
    well or not.  Only input addresses and the sequencer entrypoint are ever
    credited; the balance of an account not yet seen is untouched; the storage
    of every contract but the legacy one and the storage tries are untouched;
    a slot of the legacy contract holds what it held or zero. *)
Theorem run_store_frame (ls : list label) (s' : state) :
  final_state (start_doMigration mdb dbFactory addresses allowances expDiff noCheck) ls
    = Some s' ->
  crashed s' = None ->
  store_frame mdb (fun a => a ∈ addresses \/ a = sequencerEntrypointAddr) (coll s').
Proof.
  intros Hfinal Hcr'.
  set (allowed := fun a => a ∈ addresses \/ a = sequencerEntrypointAddr).
  destruct (reachable_invariant
              (fun s => crashed s = None ->
                 senders_emitted cfg0 s /\ store_frame mdb allowed (coll s)) ls s')
    as (Hinv & _); [| |exact Hfinal|by apply Hinv].
  - intros ws Hsp _. split; [|apply store_frame_new].
    intros i end_ db c it Hw. by destruct (spawn_no_sender _ _ _ _ _ _ Hsp Hw).
  - clear Hfinal Hcr' s'. intros l s s1 _ Hinv Ht Hcr1.
    split; [eapply senders_step; [|exact Ht|exact Hcr1]; intros Hc; by apply Hinv|].
    transition_cases Ht; try exact (proj2 (Hinv Hcr)).
    + congruence.
    + simpl. destruct (Hinv Hcr) as [Hsend Hframe].
      apply store_frame_collect; [|exact Hframe].
      by destruct (emitted_input c (Hsend _ _ _ _ _ Hw)).
    + destruct (once_cancel_fields (set_errCh s rest) (Some err)) as (_ & _ & -> & _).
      exact (proj2 (Hinv Hcr)).
    + simpl. destruct (once_cancel_fields s None) as (_ & _ & -> & _).
      exact (proj2 (Hinv Hcr)).
    + simpl. apply (store_frame_cleared allowed (coll s)). exact (proj2 (Hinv Hcr)).
Qed.

(** X7: in every state of a run, the collector is [collect] folded over
    the candidates it has received so far, each from a Balance entry of the
    index, under its own balance key; the one write on top of it is the
    caller's, which clears the total supply when the run returns nil. *)
Theorem run_collector_is_fold (ls : list label) (s' : state) :
  final_state (start_doMigration mdb dbFactory addresses allowances expDiff noCheck) ls
    = Some s' ->
  crashed s' = None ->
  exists cands,
    Forall (fun c =>
      (build_index addresses allowances).2 !! legacySlot c = Some BalanceSlot /\
      (build_index addresses allowances).1 !! legacySlot c = Some (address c) /\
      legacySlot c = CalcOVMETHStorageKey (address c)) cands /\
    coll s' =
      match main s' with
      | MReturned None => supply_cleared (collect_all (new_collector mdb) cands)
      | _ => collect_all (new_collector mdb) cands
      end.
Proof.
  intros Hfinal Hcr'.
  destruct (reachable_invariant
              (fun s => crashed s = None ->
                 senders_emitted cfg0 s /\
                 exists cands, Forall (emitted cfg0) cands /\
                   coll s =
                     match main s with
                     | MReturned None =>
                         supply_cleared (collect_all (new_collector mdb) cands)
                     | _ => collect_all (new_collector mdb) cands
                     end) ls s')
    as (Hinv & _); [| |exact Hfinal|].
  - intros ws Hsp _. split.
    + intros i end_ db c it Hw. by destruct (spawn_no_sender _ _ _ _ _ _ Hsp Hw).
    + exists []. split; [constructor|]. simpl. by rewrite collect_all_nil.
  - clear Hfinal Hcr' s'. intros l s s1 Hcaller Hinv Ht Hcr1.
    split; [eapply senders_step; [|exact Ht|exact Hcr1]; intros Hc; by apply Hinv|].
    transition_cases Ht; try exact (proj2 (Hinv Hcr)).
    + congruence.
    + destruct (Hinv Hcr) as [Hsend (cands & Hall & Hcoll)].
      exists (cands ++ [c]). split.
      * apply Forall_app. split; [exact Hall|]. constructor; [|constructor].
        by eapply Hsend.
      * simpl. rewrite collect_all_app, collect_all_cons, collect_all_nil.
        destruct (main s) as [| |[err|]] eqn:Hm; try (by rewrite Hcoll).
        destruct (Hcaller Hcr) as [_ Hret].
        destruct (Hret None Hm) as [Hcol' _]. congruence.
    + destruct (once_cancel_fields (set_errCh s rest) (Some err))
        as (_ & _ & -> & _ & -> & _).
      exact (proj2 (Hinv Hcr)).
    + destruct (Hinv Hcr) as [_ (cands & Hall & Hcoll)].
      exists cands. split; [exact Hall|]. simpl.
      destruct (once_cancel_fields s None) as (_ & _ & -> & _).
      by rewrite Hcoll, Hm.
    + destruct (Hinv Hcr) as [_ (cands & Hall & Hcoll)].
      exists cands. split; [exact Hall|]. simpl. by rewrite Hcoll, Hm.
    + destruct (Hinv Hcr) as [_ (cands & Hall & Hcoll)].
      exists cands. split; [exact Hall|]. simpl. by rewrite Hcoll, Hm.
    + destruct (Hinv Hcr) as [_ (cands & Hall & Hcoll)].
      exists cands. split; [exact Hall|]. simpl. rewrite Hm in Hcoll.
      by rewrite Hcoll.
  - destruct (Hinv Hcr') as [_ (cands & Hall & Hcoll)].
    exists cands. split; [|exact Hcoll].
    eapply Forall_impl; [exact Hall|]. intros c Hem. simpl.
    destruct (emitted_input c Hem) as [Hk _]. destruct Hem as [H1 H2].
    split; [exact H1|]. split; [exact H2|exact Hk].
Qed.
End Reachable.

(** ** Further properties: cancellation and errors *)

Section Cancellation.
Context `{Externals}.
Variable cfg : config.

Lemma once_cancel_done s err : cancelOnce s = true -> once_cancel s err = s.
Proof. unfold once_cancel. by intros ->. Qed.


Lemma exec_not_crashed ls : forall s s',
  exec cfg ls s = Some s' -> crashed s' = None -> crashed s = None.
Proof.
  destruct ls as [|l ls]; intros s s' He Hcr'; [by injection He as ->|].
  simpl in He. unfold step in He. by destruct (crashed s).
Qed.

Lemma final_state_app (c : call) ls1 ls2 s1 s2 :
  final_state c ls1 = Some s1 -> final_state c (ls1 ++ ls2) = Some s2 ->
  exists cfg' s0, c = Running cfg' s0 /\ exec cfg' ls2 s1 = Some s2.
Proof.
  destruct c as [| | |cfg' s0]; try discriminate. simpl.
  intros H1 H2. rewrite exec_app, H1 in H2. by exists cfg', s0.
Qed.

(** Once [cancelOnce] has fired, no move changes [lastErr], and [cancelCh]
    stays closed. *)
Lemma cancelled_stays ls s1 s2 :
  exec cfg ls s1 = Some s2 -> crashed s2 = None ->
  cancelOnce s1 = true ->
  lastErr s2 = lastErr s1 /\ cancelOnce s2 = true /\
  (cancelCh s1 = true -> cancelCh s2 = true).
Proof.
  intros He Hcr' Honce.
  apply (exec_invariant cfg
           (fun x => crashed x = None ->
              lastErr x = lastErr s1 /\ cancelOnce x = true /\
              (cancelCh s1 = true -> cancelCh x = true)) ) with (ls := ls) (s := s1);
    [|done|exact He|exact Hcr'].
  clear. intros l st st' Hinv Ht.
  transition_cases Ht; try exact (fun _ => Hinv Hcr).
  - intros ?. congruence.
  - intros _. destruct (Hinv Hcr) as (Hl & Ho & Hch').
    rewrite (once_cancel_done _ (Some err)) by exact Ho. done.
  - intros _. destruct (Hinv Hcr) as (Hl & Ho & Hch').
    rewrite (once_cancel_done _ None) by exact Ho. done.
Qed.


(** X9: an error the collector has not read when the caller leaves
    [wg.Wait()] is dropped.  From a state in which every worker has returned,
    an error waits in [errCh] and [cancelOnce] has not fired, the caller's
    close comes first: whether the collector then still reads the error or
    takes [cancelCh] at once, [lastErr] stays nil and [doMigration] returns
    the verdict of the supply check alone. *)
Theorem late_error_is_dropped (s : state) (err : string) (rest : list string)
    (db : StateDB) :
  crashed s = None -> main s = MWait -> collecting s = true ->
  forallb is_done (workers s) = true ->
  errCh s = err :: rest -> cancelOnce s = false -> lastErr s = None ->
  cfg_dbFactory cfg = Some db ->
  let verdict :=
    (supply_check (cfg_noCheck cfg) (getOVMETHTotalSupply db)
       (totalFound (coll s)) (cfg_expDiff cfg)).2 in
  (exists s',
     exec cfg [LClose; LErr; LCancel; LFinish] s = Some s' /\
     crashed s' = None /\ lastErr s' = None /\ errCh s' = rest /\
     main s' = MReturned verdict) /\
  (exists s',
     exec cfg [LClose; LCancel; LFinish] s = Some s' /\
     crashed s' = None /\ lastErr s' = None /\ errCh s' = err :: rest /\
     main s' = MReturned verdict).
Proof.
  intros Hcr Hm Hcol Hdone Hch Honce Hl Hf.
  destruct s as [ws ech cch once le co cing m cr lg]. simpl in *. subst.
  unfold step, close_step, err_step, cancel_step, finish_step, once_cancel. simpl.
  rewrite Hdone. simpl. rewrite Hf.
  destruct (supply_check (cfg_noCheck cfg) (getOVMETHTotalSupply db) (totalFound co)
              (cfg_expDiff cfg)) as [logged [e|]] eqn:Hs; simpl.
  - split; (eexists; split; [reflexivity|]; done).
  - split; (eexists; split; [reflexivity|]; done).
Qed.
End Cancellation.

Section RunFacts.
Context `{Externals}.
Variables (mdb : StateDB) (dbFactory : DBFactory) (addresses : list Address)
  (allowances : list Allowance) (expDiff : Z) (noCheck : bool).

Local Abbreviation cfg0 :=
  (mkConfig noCheck (build_index addresses allowances).1
     (build_index addresses allowances).2 dbFactory expDiff).
Local Abbreviation the_call :=
  (start_doMigration mdb dbFactory addresses allowances expDiff noCheck).

(** X10: the first firing of [cancelOnce] decides the error of the scan.
    In every state of a run [cancelCh] is closed exactly when [cancelOnce] has
    fired, and an error is kept only by that firing; from then on no move
    changes [lastErr]: the error the collector read first is the one kept,
    and one it reads after the caller's own close is dropped. *)
Theorem first_cancel_decides (ls1 ls2 : list label) (s1 s2 : state) :
  final_state the_call ls1 = Some s1 ->
  final_state the_call (ls1 ++ ls2) = Some s2 ->
  crashed s2 = None ->
  cancelCh s1 = cancelOnce s1 /\
  (forall err, lastErr s1 = Some err -> cancelOnce s1 = true) /\
  (cancelOnce s1 = true -> lastErr s2 = lastErr s1 /\ cancelCh s2 = true).
Proof.
  intros H1 H2 Hcr2.
  destruct (final_state_app _ _ _ _ _ H1 H2) as (cfg & s0 & _ & He).
  pose proof (exec_not_crashed cfg ls2 s1 s2 He Hcr2) as Hcr1.
  destruct (reachable_invariant mdb dbFactory addresses allowances expDiff noCheck
              (fun s => crashed s = None ->
                 cancelCh s = cancelOnce s /\
                 (forall err, lastErr s = Some err -> cancelOnce s = true)) ls1 s1)
    as (Hinv & _); [| |exact H1|].
  - clear. intros ws _ _. split; [reflexivity|]. intros err Herr. discriminate Herr.
  - clear. intros l st st' _ Hinv Ht.
    transition_cases Ht; try exact (fun _ => Hinv Hcr).
    + intros ?. congruence.
    + intros _. destruct (bool_dec (cancelOnce s) true) as [Ho|Ho%not_true_is_false].
      * rewrite (once_cancel_done _ (Some err)) by exact Ho. exact (Hinv Hcr).
      * unfold once_cancel. simpl. rewrite Ho. simpl. done.
    + intros _. destruct (bool_dec (cancelOnce s) true) as [Ho|Ho%not_true_is_false].
      * rewrite (once_cancel_done _ None) by exact Ho. exact (Hinv Hcr).
      * unfold once_cancel. rewrite Ho. simpl. destruct (Hinv Hcr) as [_ Hkept].
        split; [done|]. intros e He. rewrite (Hkept e He) in Ho. discriminate Ho.
  - destruct (Hinv Hcr1) as [Heq Hkept]. split; [exact Heq|]. split; [exact Hkept|].
    intros Honce.
    destruct (cancelled_stays cfg ls2 s1 s2 He Hcr2 Honce) as (Hl & _ & Hch).
    split; [exact Hl|]. apply Hch. by rewrite Heq.
Qed.

Lemma count_done_insert ws : forall i w w',
  ws !! i = Some w ->
  (count_done (<[i := w']> ws) + (if is_done w then 1 else 0) =
   count_done ws + (if is_done w' then 1 else 0))%nat.
Proof.
  unfold count_done.
  induction ws as [|x ws IH]; intros [|i] w w' Hi; try discriminate Hi.
  - injection Hi as ->. simpl. rewrite !filter_cons.
    destruct (is_done w), (is_done w'); simpl; try done;
      repeat case_decide; simpl; try done; lia.
  - simpl in Hi. simpl. rewrite !filter_cons. specialize (IH i w w' Hi).
    case_decide; simpl; lia.
Qed.

Lemma count_done_le ws : (count_done ws <= length ws)%nat.
Proof. unfold count_done. apply length_filter. Qed.

(** X11: [errCh] never fills.  In every state of a run it holds no more
    errors than workers have returned, so that a worker that is still running
    finds one of the 64 places free: the send of an error never blocks. *)
Theorem errCh_has_room (ls : list label) (s' : state) :
  final_state the_call ls = Some s' ->
  crashed s' = None ->
  (length (errCh s') <= count_done (workers s'))%nat /\
  length (workers s') = Z.to_nat checkJobs /\
  (forall i w, workers s' !! i = Some w -> is_done w = false ->
     (length (errCh s') < Z.to_nat checkJobs)%nat).
Proof.
  intros Hfinal Hcr'.
  destruct (reachable_invariant mdb dbFactory addresses allowances expDiff noCheck
              (fun s => crashed s = None ->
                 (length (errCh s) <= count_done (workers s))%nat /\
                 length (workers s) = Z.to_nat checkJobs) ls s')
    as (Hinv & _); [| |exact Hfinal|].
  - intros ws Hsp _. simpl. split; [lia|].
    by rewrite (spawn_length _ _ Hsp), length_seqZ.
  - clear. intros l st st' _ Hinv Ht.
    assert (Hmove : forall (s : state) i w w', workers s !! i = Some w ->
              is_done w = false ->
              (count_done (workers s) <= count_done (<[i := w']> (workers s)))%nat /\
              (is_done w' = true ->
               (S (count_done (workers s)) <= count_done (<[i := w']> (workers s)))%nat)).
    { intros s i w w' Hi Hnd.
      pose proof (count_done_insert (workers s) i w w' Hi) as Hc. rewrite Hnd in Hc.
      split; [lia|]. intros Hd'. rewrite Hd' in Hc. lia. }
    transition_cases Ht; intros Hcr1;
      try (destruct (Hinv Hcr) as [Hlen Hws]; simpl; rewrite length_insert;
           split; [|exact Hws];
           destruct (Hmove s i _ WDone Hw eq_refl) as [Hle _]; simpl in Hle; lia);
      try exact (Hinv Hcr).
    + congruence.
    + destruct (Hinv Hcr) as [Hlen Hws]. simpl. rewrite length_insert.
      split; [|exact Hws].
      destruct (Hmove s i _ (WLoop end_ db0 (NodeIterator leaves0 start)) Hw eq_refl)
        as [Hle _]. lia.
    + destruct (Hinv Hcr) as [Hlen Hws]. simpl. rewrite length_insert.
      split; [|exact Hws].
      destruct (Hmove s i _ (WLoop end_ db0 rest) Hw eq_refl) as [Hle _]. lia.
    + destruct (Hinv Hcr) as [Hlen Hws]. simpl. rewrite length_insert.
      split; [|exact Hws]. rewrite length_app. simpl.
      destruct (Hmove s i _ WDone Hw eq_refl) as [_ Hlt].
      specialize (Hlt eq_refl). lia.
    + destruct (Hinv Hcr) as [Hlen Hws]. simpl. rewrite length_insert.
      split; [|exact Hws].
      destruct (Hmove s i _ (WSend end_ db0 c rest) Hw eq_refl) as [Hle _]. lia.
    + destruct (Hinv Hcr) as [Hlen Hws]. simpl. rewrite length_insert.
      split; [|exact Hws].
      destruct (Hmove s i _ (WLoop end_ db0 rest) Hw eq_refl) as [Hle _]. lia.
    + destruct (Hinv Hcr) as [Hlen Hws].
      destruct (once_cancel_fields (set_errCh s rest) (Some err)) as (-> & -> & _).
      simpl. rewrite Hch in Hlen. simpl in Hlen. split; [lia|exact Hws].
    + destruct (Hinv Hcr) as [Hlen Hws]. simpl.
      destruct (once_cancel_fields s None) as (-> & -> & _). done.
  - destruct (Hinv Hcr') as [Hlen Hws]. split; [exact Hlen|]. split; [exact Hws|].
    intros i w Hi Hnd.
    pose proof (count_done_insert (workers s') i w WDone Hi) as Hc.
    rewrite Hnd in Hc. simpl in Hc.
    pose proof (count_done_le (<[i := WDone]> (workers s'))) as Hle.
    rewrite length_insert, Hws in Hle. lia.
Qed.

Lemma scan_entry_error nc sa si db end_ e err :
  (scan_entry nc sa si db end_ e).2 = EError err -> nc = false /\ scan_error err.
Proof.
  assert (Hclass : forall slotType key addr content,
            (classify nc slotType key addr content).2 <> EError err).
  { intros slotType key addr content. unfold classify.
    destruct (slotType =? BalanceSlot); [done|].
    destruct (slotType =? AllowanceSlot); [done|]. by destruct nc. }
  assert (Hlook : forall slotType key content,
            (lookup_address nc sa db slotType key content).2 = EError err ->
            nc = false /\ scan_error err).
  { intros slotType key content. unfold lookup_address.
    destruct (sa !! key) as [addr|]; [|discriminate].
    unfold check_balance.
    destruct (negb (Z.sgn (GetBalance db addr) =? 0)).
    - destruct nc; simpl.
      + intros Hc. by apply Hclass in Hc.
      + intros [= <-]. split; [done|]. right. by exists addr.
    - intros Hc. by apply Hclass in Hc. }
  unfold scan_entry.
  destruct (SetBytes (it_Key e) >? Hash_Big end_); [discriminate|].
  destruct (length (it_Value e) =? 0)%nat; [discriminate|].
  destruct (it_preimage e) as [rawKey|]; [|discriminate].
  destruct (rlp_Split (it_Value e)) as [content|]; [|discriminate].
  destruct (bool_decide (BytesToHash rawKey ∈ ignoredSlots)); [discriminate|].
  destruct (si !! BytesToHash rawKey) as [slotType|]; [apply Hlook|].
  destruct nc; simpl.
  - apply Hlook.
  - intros [= <-]. split; [done|]. left. by eexists.
Qed.

(** X12: the errors [doMigration] can return.  A run that returns gives nil,
    or, in strict mode only, one of three errors: "unknown storage slot in
    state" with the key, "account has non-zero balance in state" with the
    address, or "supply mismatch" with a delta other than the expected. *)
Theorem returned_errors (ls : list label) (s' : state) (r : option string) :
  final_state the_call ls = Some s' ->
  crashed s' = None -> main s' = MReturned r ->
  r = None \/
  (noCheck = false /\
   exists err, r = Some err /\
     (scan_error err \/
      exists delta, delta <> expDiff /\ err = "supply mismatch: " +:+ pretty delta)).
Proof.
  intros Hfinal Hcr' Hm'.
  destruct (reachable_invariant mdb dbFactory addresses allowances expDiff noCheck
              (fun s => crashed s = None ->
                 Forall (fun err => noCheck = false /\ scan_error err) (errCh s) /\
                 (forall err, lastErr s = Some err -> noCheck = false /\ scan_error err))
              ls s')
    as (Hinv & Hcaller & _); [| |exact Hfinal|].
  - intros ws _ _. simpl. split; [constructor|done].
  - clear. intros l st st' _ Hinv Ht.
    transition_cases Ht; try exact (fun _ => Hinv Hcr).
    + intros ?. congruence.
    + intros _. destruct (Hinv Hcr) as [Herrs Hkept]. simpl. split; [|exact Hkept].
      apply Forall_app. split; [exact Herrs|]. constructor; [|constructor].
      apply (scan_entry_error noCheck (cfg_slotsAddrs cfg0) (cfg_slotsInp cfg0)
               db0 end_ e).
      cbn [cfg_noCheck] in Hscan. by rewrite Hscan.
    + intros _. destruct (Hinv Hcr) as [Herrs Hkept]. rewrite Hch in Herrs.
      apply Forall_cons in Herrs as [Herr Hrest].
      unfold once_cancel. simpl. destruct (cancelOnce s); simpl; [done|].
      split; [exact Hrest|]. by intros e' [= <-].
    + intros _. destruct (Hinv Hcr) as [Herrs Hkept].
      unfold once_cancel. destruct (cancelOnce s); simpl; done.
  - destruct (Hcaller Hcr') as [_ Hret]. destruct (Hret r Hm') as [_ Hval].
    unfold return_value in Hval. destruct (Hinv Hcr') as [_ Hkept].
    destruct (lastErr s') as [err|].
    + subst r. right. destruct (Hkept err eq_refl) as [Hnc Hse].
      split; [exact Hnc|]. exists err. split; [done|by left].
    + destruct Hval as (db & _ & ->). unfold supply_check. cbn [cfg_noCheck cfg_expDiff].
      destruct (getOVMETHTotalSupply db - totalFound (coll s') =? expDiff) eqn:Hd;
        simpl; [by left|].
      destruct noCheck; simpl; [by left|]. right. split; [done|].
      eexists. split; [reflexivity|]. right. eexists. split; [|reflexivity].
      by apply Z.eqb_neq.
Qed.

(** X13: when [doMigration] returns, nothing of it is left running: every
    worker has returned, the collector has left its loop, and no goroutine
    has a move left. *)
Theorem returned_run_is_over (ls : list label) (s' : state) (r : option string) :
  final_state the_call ls = Some s' ->
  crashed s' = None -> main s' = MReturned r ->
  forallb is_done (workers s') = true /\
  collecting s' = false /\
  forall l, final_state the_call (ls ++ [l]) = None.
Proof.
  intros Hfinal Hcr' Hm'.
  destruct (reachable_invariant mdb dbFactory addresses allowances expDiff noCheck
              (fun _ => True) ls s') as (_ & Hcaller & s0 & Hd & He);
    [done|done|exact Hfinal|].
  destruct (Hcaller Hcr') as [Hdone Hret].
  assert (Hall : forallb is_done (workers s') = true)
    by (apply Hdone; by rewrite Hm').
  destruct (Hret r Hm') as [Hcol _].
  split; [exact Hall|]. split; [exact Hcol|].
  intros l. unfold start_doMigration. rewrite Hd. cbn [final_state].
  rewrite exec_app, He. cbn [exec]. unfold step. rewrite Hcr'.
  destruct l as [i|i| | | |].
  - unfold worker_step. destruct (workers s' !! i) as [w|] eqn:Hw; [|done].
    by rewrite (all_done_lookup _ _ _ Hall Hw).
  - unfold recv_step. by rewrite Hcol.
  - unfold err_step. by rewrite Hcol.
  - unfold cancel_step. by rewrite Hcol.
  - unfold close_step. by rewrite Hm'.
  - unfold finish_step. by rewrite Hm'.
Qed.

(** X14: a worker can be left blocked for good.  Once the collector has left
    its loop while a worker is blocked sending a candidate, nobody receives
    from [outCh] any more: the worker never returns, [wg.Wait()] never
    returns, and no schedule lets [doMigration] return. *)
Theorem blocked_sender_never_returns (ls1 ls2 : list label) (s1 : state) (j : nat)
    (endj : Hash) (dbj : StateDB) (cj : accountData) (itj : list trie_entry)
    (c' : call) :
  final_state the_call ls1 = Some s1 ->
  crashed s1 = None -> collecting s1 = false ->
  workers s1 !! j = Some (WSend endj dbj cj itj) ->
  after the_call (ls1 ++ ls2) = Some c' ->
  is_returned c' = false.
Proof.
  intros H1 Hcr1 Hcol1 Hw1 Hafter.
  destruct (reachable_invariant mdb dbFactory addresses allowances expDiff noCheck
              (fun _ => True) ls1 s1) as (_ & Hcaller & s0 & Hd & He1);
    [done|done|exact H1|].
  assert (Hm1 : main s1 = MWait).
  { destruct (main s1) eqn:Hm; [done| |].
    - destruct (Hcaller Hcr1) as [Hdone _].
      assert (Hall : forallb is_done (workers s1) = true) by (apply Hdone; by rewrite Hm).
      by pose proof (all_done_lookup _ _ _ Hall Hw1).
    - destruct (Hcaller Hcr1) as [Hdone _].
      assert (Hall : forallb is_done (workers s1) = true) by (apply Hdone; by rewrite Hm).
      by pose proof (all_done_lookup _ _ _ Hall Hw1). }
  unfold start_doMigration in Hafter. rewrite Hd in Hafter. cbn [after] in Hafter.
  rewrite exec_app, He1 in Hafter.
  destruct (exec cfg0 ls2 s1) as [s2|] eqn:He2; [|discriminate Hafter].
  destruct (crashed s2) eqn:Hcr2; [by injection Hafter as <-|].
  assert (Hinv : main s2 = MWait).
  { assert (Hkeep : crashed s2 = None ->
              collecting s2 = false /\ main s2 = MWait /\
              workers s2 !! j = Some (WSend endj dbj cj itj));
      [|by destruct (Hkeep Hcr2) as (_ & ? & _)].
    apply (exec_invariant cfg0
             (fun x => crashed x = None ->
                collecting x = false /\ main x = MWait /\
                workers x !! j = Some (WSend endj dbj cj itj)))
      with (ls := ls2) (s := s1);
      [|intros _; split; [exact Hcol1|split; [exact Hm1|exact Hw1]]|exact He2].
    clear. intros l st st' Hinv Ht.
    transition_cases Ht; intros Hcr1;
      try (destruct (Hinv Hcr) as (Hcol' & Hm' & Hw'); congruence);
      try (destruct (Hinv Hcr) as (Hcol' & Hm' & Hw'); simpl;
           split; [done|]; split; [done|];
           rewrite list_lookup_insert_ne; [done|]; intros <-; congruence).
    destruct (Hinv Hcr) as (Hcol' & Hm' & Hw').
    by pose proof (all_done_lookup _ _ _ Hd Hw'). }
  rewrite Hinv in Hafter. by injection Hafter as <-.
Qed.
End RunFacts.

(** ** Further properties: the start and the end of a run *)

Section StartAndEnd.
Context `{Externals}.

Lemma spawn_returns js :
  (forall j, j ∈ js -> 0 <= j < checkJobs) -> exists ws, spawn js = Returns ws.
Proof.
  induction js as [|j js IH]; intros Hjs; [by exists []|].
  simpl. rewrite (PartitionKeyspace_valid j checkJobs).
  - destruct IH as [ws ->]; [intros j' Hj'; apply Hjs; by right|].
    by eexists.
  - unfold is_int, int_min, int_max, checkJobs. lia.
  - apply Hjs. by left.
Qed.

(** X15: [doMigration] always gets its goroutines started: none of its 64
    calls of [PartitionKeyspace] panics, worker [i] is given the range of
    partition [i] of 64, and the collector starts with nothing seen and the
    store it was handed. *)
Theorem doMigration_starts (mdb : StateDB) (dbFactory : DBFactory)
    (addresses : list Address) (allowances : list Allowance) (expDiff : Z)
    (noCheck : bool) :
  exists cfg s,
    doMigration mdb dbFactory addresses allowances expDiff noCheck = Returns (cfg, s) /\
    length (workers s) = Z.to_nat checkJobs /\
    (forall i, (i < Z.to_nat checkJobs)%nat ->
       exists start end_,
         PartitionKeyspace (Z.of_nat i) checkJobs = Returns (start, end_) /\
         workers s !! i = Some (WStart start end_)) /\
    coll s = new_collector mdb /\ collecting s = true /\ main s = MWait /\
    errCh s = [] /\ cancelCh s = false /\ lastErr s = None /\ crashed s = None.
Proof.
  destruct (spawn_returns (seqZ 0 checkJobs)) as [ws Hsp].
  { intros j Hj. apply elem_of_seqZ in Hj. lia. }
  unfold doMigration. rewrite Hsp. eexists _, _. split; [reflexivity|].
  cbn [workers coll collecting main errCh cancelCh lastErr crashed].
  assert (Hlen : length ws = Z.to_nat checkJobs)
    by (by rewrite (spawn_length _ _ Hsp), length_seqZ).
  split; [exact Hlen|]. split; [|do 6 (split; [reflexivity|]); reflexivity].
  intros i Hi.
  destruct (lookup_lt_is_Some_2 ws i) as [w Hw]; [rewrite Hlen; exact Hi|].
  destruct (spawn_lookup _ _ _ _ Hsp Hw) as (j & start & end_ & Hj & Hp & ->).
  clear Hsp. apply lookup_seqZ in Hj as [-> _]. rewrite Z.add_0_l in Hp.
  exists start, end_. split; [exact Hp|exact Hw].
Qed.

(** X16: in relaxed mode, a committed storage that holds one classified
    leaf whose key is not in the index keeps [doMigration] from returning
    under every schedule: whichever worker has the leaf in its partition ends
    the process when it reaches it, and the caller waits for that worker. *)
Theorem relaxed_run_with_unknown_leaf (mdb db : StateDB)
    (addresses : list Address) (allowances : list Allowance) (expDiff : Z)
    (leaves : list trie_entry) (e : trie_entry) (key : Hash) (content : list byte)
    (ls : list label) (c : call) :
  StorageTrie db LegacyERC20ETHAddr = TrieOk leaves ->
  sorted_leaves leaves ->
  e ∈ leaves -> classified maxSlot e key content ->
  (build_index addresses allowances).2 !! key = None ->
  after (start_doMigration mdb (Some db) addresses allowances expDiff true) ls
    = Some c ->
  is_returned c = false.
Proof.
  intros Htrie Hsorted Hin Hcl Hkey Hafter.
  destruct c as [r db'| | |]; try reflexivity.
  exfalso.
  exact (relaxed_unknown_slot_never_returns mdb db addresses allowances expDiff
           leaves e key content ls r db' Htrie Hsorted Hin Hcl Hkey Hafter).
Qed.
End StartAndEnd.

(** ** Further properties: the workers and their partitions *)

Lemma NodeIterator_lower leaves start e :
  sorted_leaves leaves -> e ∈ NodeIterator leaves start -> start <= leaf_key e.
Proof.
  induction leaves as [|e0 rest IH]; intros Hsorted Hin; [by apply elem_of_nil in Hin|].
  destruct (sorted_leaves_cons _ _ Hsorted) as [Hrest Hle].
  simpl in Hin. unfold Hash_Big in Hin.
  destruct (SetBytes (it_Key e0) <? start) eqn:Hlt; [by apply IH|].
  apply Z.ltb_ge in Hlt.
  apply elem_of_cons in Hin as [->|Hin]; [exact Hlt|].
  specialize (Hle e Hin). unfold leaf_key in *. lia.
Qed.

Section Partitions.
Context `{Externals}.
Variables (mdb db : StateDB) (addresses : list Address)
  (allowances : list Allowance) (expDiff : Z) (noCheck : bool)
  (leaves : list trie_entry).

Local Abbreviation cfg0 :=
  (mkConfig noCheck (build_index addresses allowances).1
     (build_index addresses allowances).2 (Some db) expDiff).

Lemma scan_send_within end_ e c :
  scan cfg0 db end_ e = ESend c -> leaf_key e <= end_.
Proof.
  unfold scan, scan_entry, leaf_key, Hash_Big.
  destruct (Z.gtb_spec (SetBytes (it_Key e)) end_); [discriminate|lia].
Qed.

(** X18: the workers stay in their partitions.  Where the committed storage
    of the legacy contract is the sorted list [leaves], in every state of a
    run worker [i] has ahead of it only leaves of the trie from the start of
    partition [i] on, a candidate it is sending comes from a leaf inside
    partition [i], and every account seen was read off a leaf by the worker of
    a partition the leaf lies in. *)
Theorem workers_stay_in_partition (ls : list label) (s' : state) :
  StorageTrie db LegacyERC20ETHAddr = TrieOk leaves ->
  sorted_leaves leaves ->
  final_state (start_doMigration mdb (Some db) addresses allowances expDiff noCheck) ls
    = Some s' ->
  crashed s' = None ->
  (forall i w, workers s' !! i = Some w -> worker_in_range cfg0 db leaves i w) /\
  (forall a, a ∈ seenAccounts (coll s') ->
     exists c, scanned_in cfg0 db leaves c /\ address c = a).
Proof.
  intros Htrie Hsorted Hfinal Hcr'.
  destruct (reachable_invariant mdb (Some db) addresses allowances expDiff noCheck
              (fun s => crashed s = None ->
                 (forall i w, workers s !! i = Some w ->
                    worker_in_range cfg0 db leaves i w) /\
                 (forall a, a ∈ seenAccounts (coll s) ->
                    exists c, scanned_in cfg0 db leaves c /\ address c = a)) ls s')
    as (Hinv & _); [| |exact Hfinal|by apply Hinv].
  - clear Hfinal Hcr'. intros ws Hsp _. simpl. split.
    + intros i w Hw.
      destruct (spawn_lookup _ _ _ _ Hsp Hw) as (j & start & end_ & Hj & Hp & ->).
      clear Hsp. apply lookup_seqZ in Hj as [-> _]. rewrite Z.add_0_l in Hp.
      exists start, end_. unfold partition_range. rewrite Hp. done.
    + intros a Ha. by apply not_elem_of_empty in Ha.
  - clear Hfinal Hcr' s' ls. intros l st st' _ Hinv Ht.
    assert (Hmove : forall (s s1 : state) i w w',
              crashed s = None -> workers s !! i = Some w ->
              workers s1 = <[i := w']> (workers s) ->
              (worker_in_range cfg0 db leaves i w ->
               worker_in_range cfg0 db leaves i w') ->
              (crashed s = None ->
               forall j wj, workers s !! j = Some wj ->
                 worker_in_range cfg0 db leaves j wj) ->
              forall j wj, workers s1 !! j = Some wj ->
                worker_in_range cfg0 db leaves j wj).
    { intros s s1 i w w' Hcr Hi Hws Hww Hall j wj. rewrite Hws.
      intros [(<- & <- & _)|(Hne & Hj)]%list_lookup_insert_Some.
      - apply Hww. by eapply Hall.
      - by eapply Hall. }
    transition_cases Ht; intros Hcr1;
      try (split; [|exact (proj2 (Hinv Hcr))];
           eapply (Hmove s _ i); [exact Hcr|exact Hw|reflexivity|
                                  |intros Hx; exact (proj1 (Hinv Hx))];
           intros (start' & end' & Hp & _); by exists start', end').
    + congruence.
    + split; [|exact (proj2 (Hinv Hcr))].
      eapply (Hmove s _ i); [exact Hcr|exact Hw|reflexivity|
                             |intros Hx; exact (proj1 (Hinv Hx))].
      intros (start' & end' & Hp & -> & ->). exists start', end'.
      split; [exact Hp|]. simpl in Hf. injection Hf as <-.
      rewrite Htrie in Ht. injection Ht as <-.
      split; [done|]. split; [done|]. split; [by apply NodeIterator_sorted|].
      intros e He. split; [by eapply NodeIterator_subset|].
      by eapply NodeIterator_lower.
    + split; [|exact (proj2 (Hinv Hcr))].
      eapply (Hmove s _ i); [exact Hcr|exact Hw|reflexivity|
                             |intros Hx; exact (proj1 (Hinv Hx))].
      intros (start' & end' & Hp & <- & -> & Hso & Hmem). exists start', end_.
      split; [exact Hp|]. split; [done|]. split; [done|].
      destruct (sorted_leaves_cons _ _ Hso) as [Hso' _].
      split; [exact Hso'|]. intros e' He'. apply Hmem. by right.
    + split; [|exact (proj2 (Hinv Hcr))].
      eapply (Hmove s _ i); [exact Hcr|exact Hw|reflexivity|
                             |intros Hx; exact (proj1 (Hinv Hx))].
      intros (start' & end' & Hp & <- & -> & Hso & Hmem). exists start', end_.
      split; [exact Hp|]. split; [done|]. split; [done|].
      destruct (sorted_leaves_cons _ _ Hso) as [Hso' _].
      split; [exact Hso'|]. split; [intros e' He'; apply Hmem; by right|].
      assert (Hsc : scan cfg0 db end_ e = ESend c) by (unfold scan; by rewrite Hscan).
      destruct (Hmem e) as [Hin Hlow]; [by left|].
      exists e. split; [exact Hin|]. split; [|exact Hsc].
      split; [exact Hlow|]. by eapply scan_send_within.
    + destruct (Hinv Hcr) as [Hall Hseen].
      destruct (Hall _ _ Hw) as (start' & end' & Hp & <- & -> & Hso & Hmem & Hfrom).
      split.
      * eapply (Hmove s _ i); [exact Hcr|exact Hw|reflexivity| |intros _; exact Hall].
        intros _. exists start', end_. done.
      * simpl. intros a. rewrite seen_collect.
        intros [->%elem_of_singleton|Ha]%elem_of_union; [|by apply Hseen].
        exists c. split; [|done]. destruct Hfrom as (e' & Hin & Hrange & Hsc).
        by exists i, start', end_, e'.
    + destruct (once_cancel_fields (set_errCh s rest) (Some err))
        as (-> & _ & -> & _). exact (Hinv Hcr).
    + exact (Hinv Hcr).
    + simpl. destruct (once_cancel_fields s None) as (-> & _ & -> & _).
      exact (Hinv Hcr).
    + exact (Hinv Hcr).
    + exact (Hinv Hcr).
    + exact (Hinv Hcr).
Qed.
End Partitions.

(** ** The further properties on the scenarios *)

Ltac run_state c ls s E Hcr :=
  let Hb := fresh "Hb" in
  assert (Hb : match final_state c ls with
               | Some s0 => match crashed s0 with None => true | Some _ => false end
               | None => false
               end = true) by (vm_compute; reflexivity);
  destruct (final_state c ls) as [s|] eqn:E; [|discriminate Hb];
  destruct (crashed s) eqn:Hcr; [discriminate Hb|]; clear Hb.

Lemma run_total_is_stored_witness :
  exists s', final_state (run_match false) schedule_match = Some s' /\
    totalFound (coll s') =
      sumZ (GetBalance (mutableDB (coll s')) <$> elements (seenAccounts (coll s'))).
Proof.
  run_state (run_match false) schedule_match s' E Hcr.
  unfold run_match, migrate in E.
  exists s'. split; [reflexivity|].
  exact (run_total_is_stored (state_two_holders [] 3) (Some (state_two_holders [] 3))
           [holderA; holderB] [mkAllowance holderA holderB] 0 false
           schedule_match s' E Hcr).
Defined.

Lemma run_store_frame_witness :
  exists s', final_state (run_missing false) schedule_missing_strict = Some s' /\
    store_frame (state_two_holders [] 3)
      (fun a => a ∈ [holderA] \/ a = sequencerEntrypointAddr) (coll s').
Proof.
  run_state (run_missing false) schedule_missing_strict s' E Hcr.
  unfold run_missing, migrate in E.
  exists s'. split; [reflexivity|].
  exact (run_store_frame (state_two_holders [] 3) (Some (state_two_holders [] 3))
           [holderA] [mkAllowance holderA holderB] 0 false
           schedule_missing_strict s' E Hcr).
Defined.

Lemma run_collector_is_fold_witness :
  exists s' cands,
    final_state (run_match false) schedule_match = Some s' /\
    coll s' =
      match main s' with
      | MReturned None =>
          supply_cleared (collect_all (new_collector (state_two_holders [] 3)) cands)
      | _ => collect_all (new_collector (state_two_holders [] 3)) cands
      end.
Proof.
  run_state (run_match false) schedule_match s' E Hcr.
  unfold run_match, migrate in E.
  destruct (run_collector_is_fold (state_two_holders [] 3)
              (Some (state_two_holders [] 3)) [holderA; holderB]
              [mkAllowance holderA holderB] 0 false schedule_match s' E Hcr)
    as (cands & _ & Hcoll).
  exists s', cands. split; [reflexivity|exact Hcoll].
Defined.


Lemma late_error_is_dropped_witness :
  let db := state_two_holders [] 1 in
  let idx := build_index [holderA] [mkAllowance holderA holderB] in
  let cfg := mkConfig false idx.1 idx.2 (Some db) 0 in
  exists s s',
    final_state run_missing_supply_1 (take 138 schedule_missing_late) = Some s /\
    errCh s <> [] /\
    exec cfg [LClose; LErr; LCancel; LFinish] s = Some s' /\
    lastErr s' = None /\
    main s' = MReturned
      (supply_check false (getOVMETHTotalSupply db) (totalFound (coll s)) 0).2.
Proof.
  intros db idx cfg.
  assert (Hp : (fun s => (crashed s, main s, collecting s,
                          forallb is_done (workers s), cancelOnce s, lastErr s,
                          match errCh s with [] => false | _ => true end))
                 <$> final_state run_missing_supply_1 (take 138 schedule_missing_late)
               = Some (None, MWait, true, true, false, None, true))
    by (vm_compute; reflexivity).
  destruct (final_state run_missing_supply_1 (take 138 schedule_missing_late))
    as [s|] eqn:E; [|discriminate Hp].
  simpl in Hp. injection Hp as Hcr Hm Hcol Hdone Honce Hl Herr.
  destruct (errCh s) as [|err rest] eqn:Hch; [discriminate Herr|].
  destruct (late_error_is_dropped cfg s err rest db Hcr Hm Hcol Hdone Hch Honce Hl
              eq_refl) as [(s' & He & _ & Hl' & _ & Hm') _].
  exists s, s'. split; [reflexivity|]. split; [by rewrite Hch|].
  split; [exact He|]. split; [exact Hl'|exact Hm'].
Defined.

Lemma first_cancel_decides_witness :
  exists s1 s2,
    final_state (run_missing false) (take 50 schedule_missing_strict) = Some s1 /\
    final_state (run_missing false)
      (take 50 schedule_missing_strict ++ drop 50 schedule_missing_strict) = Some s2 /\
    cancelOnce s1 = true /\ lastErr s2 = lastErr s1 /\ cancelCh s2 = true.
Proof.
  assert (Hc1 : cancelOnce <$> final_state (run_missing false)
                                 (take 50 schedule_missing_strict) = Some true)
    by (vm_compute; reflexivity).
  destruct (final_state (run_missing false) (take 50 schedule_missing_strict))
    as [s1|] eqn:E1; [|discriminate Hc1].
  injection Hc1 as Hc1.
  run_state (run_missing false)
    (take 50 schedule_missing_strict ++ drop 50 schedule_missing_strict) s2 E2 Hcr2.
  unfold run_missing, migrate in E1, E2.
  destruct (first_cancel_decides (state_two_holders [] 3)
              (Some (state_two_holders [] 3)) [holderA]
              [mkAllowance holderA holderB] 0 false _ _ s1 s2 E1 E2 Hcr2)
    as (_ & _ & Hkeep).
  destruct (Hkeep Hc1) as [Hl Hch].
  exists s1, s2. split; [reflexivity|]. split; [reflexivity|].
  split; [exact Hc1|]. split; [exact Hl|exact Hch].
Defined.

Lemma errCh_has_room_witness :
  exists s',
    final_state (run_missing false) (take 49 schedule_missing_strict) = Some s' /\
    (length (errCh s') <= count_done (workers s'))%nat /\
    length (workers s') = Z.to_nat checkJobs.
Proof.
  run_state (run_missing false) (take 49 schedule_missing_strict) s' E Hcr.
  unfold run_missing, migrate in E.
  destruct (errCh_has_room (state_two_holders [] 3) (Some (state_two_holders [] 3))
              [holderA] [mkAllowance holderA holderB] 0 false _ s' E Hcr)
    as (Hlen & Hws & _).
  exists s'. split; [reflexivity|]. split; [exact Hlen|exact Hws].
Defined.

Lemma returned_errors_witness :
  exists s' err,
    final_state (run_missing false) schedule_missing_strict = Some s' /\
    main s' = MReturned (Some err) /\
    (scan_error err \/
     exists delta, delta <> 0 /\ err = "supply mismatch: " +:+ pretty delta).
Proof.
  run_state (run_missing false) schedule_missing_strict s' E Hcr.
  assert (Hm : (fun s => match main s with MReturned (Some _) => true | _ => false end)
                 <$> final_state (run_missing false) schedule_missing_strict
               = Some true) by (vm_compute; reflexivity).
  rewrite E in Hm. simpl in Hm.
  destruct (main s') as [| |[err|]] eqn:Hmain; try discriminate Hm. clear Hm.
  unfold run_missing, migrate in E.
  destruct (returned_errors (state_two_holders [] 3) (Some (state_two_holders [] 3))
              [holderA] [mkAllowance holderA holderB] 0 false _ s' (Some err)
              E Hcr Hmain) as [Hnone|(_ & err' & Heq & Hkind)];
    [discriminate Hnone|].
  injection Heq as <-.
  exists s', err. split; [reflexivity|]. split; [exact Hmain|exact Hkind].
Defined.

Lemma returned_run_is_over_witness :
  exists s',
    final_state (run_match false) schedule_match = Some s' /\
    forallb is_done (workers s') = true /\
    collecting s' = false /\
    final_state (run_match false) (schedule_match ++ [LWorker 0]) = None.
Proof.
  run_state (run_match false) schedule_match s' E Hcr.
  assert (Hm : (fun s => match main s with MReturned _ => true | _ => false end)
                 <$> final_state (run_match false) schedule_match
               = Some true) by (vm_compute; reflexivity).
  rewrite E in Hm. simpl in Hm.
  destruct (main s') as [| |r] eqn:Hmain; try discriminate Hm. clear Hm.
  unfold run_match, migrate in E.
  destruct (returned_run_is_over (state_two_holders [] 3)
              (Some (state_two_holders [] 3)) [holderA; holderB]
              [mkAllowance holderA holderB] 0 false _ s' r E Hcr Hmain)
    as (Hdone & Hcol & Hover).
  exists s'. split; [reflexivity|]. split; [exact Hdone|]. split; [exact Hcol|].
  exact (Hover (LWorker 0)).
Defined.

Lemma blocked_sender_never_returns_witness :
  let ls1 := [LWorker 2; LWorker 2; LWorker 2; LWorker 20; LWorker 20; LErr; LCancel] in
  exists s1 c',
    final_state (run_missing false) ls1 = Some s1 /\
    collecting s1 = false /\
    after (run_missing false) (ls1 ++ [LWorker 0]) = Some c' /\
    is_returned c' = false.
Proof.
  intros ls1.
  assert (Hp : (fun s => (collecting s,
                          match workers s !! 2%nat with
                          | Some (WSend _ _ _ _) => true
                          | _ => false
                          end))
                 <$> final_state (run_missing false) ls1 = Some (false, true))
    by (vm_compute; reflexivity).
  run_state (run_missing false) ls1 s1 E1 Hcr1.
  simpl in Hp. injection Hp as Hcol Hw.
  destruct (workers s1 !! 2%nat) as [[| |endj dbj cj itj|]|] eqn:Hw2;
    try discriminate Hw.
  clear Hw.
  assert (Ha : match after (run_missing false) (ls1 ++ [LWorker 0]) with
               | Some _ => true | None => false end = true)
    by (vm_compute; reflexivity).
  destruct (after (run_missing false) (ls1 ++ [LWorker 0])) as [c'|] eqn:E2;
    [|discriminate Ha].
  clear Ha. unfold run_missing, migrate in E1, E2.
  exists s1, c'. split; [reflexivity|]. split; [exact Hcol|]. split; [reflexivity|].
  exact (blocked_sender_never_returns (state_two_holders [] 3)
           (Some (state_two_holders [] 3)) [holderA] [mkAllowance holderA holderB]
           0 false ls1 [LWorker 0] s1 2%nat endj dbj cj itj c' E1 Hcr1 Hcol Hw2 E2).
Defined.

Lemma relaxed_run_with_unknown_leaf_witness :
  after (run_missing true) schedule_missing_relaxed =
    Some (Exited "could not find address in map - should never happen") /\
  is_returned (Exited "could not find address in map - should never happen") = false.
Proof.
  pose proof relaxed_run_with_unknown_slot_exits as Hexit.
  split; [exact Hexit|].
  unfold run_missing, migrate in Hexit.
  apply (relaxed_run_with_unknown_leaf (state_two_holders [] 3)
           (state_two_holders [] 3) [holderA] [mkAllowance holderA holderB] 0
           (leaves_two_holders 3)
           (leaf (boundary 20 + 1) (CalcOVMETHStorageKey holderB) 2)
           (CalcOVMETHStorageKey holderB) (rlp_value 2) schedule_missing_relaxed).
  - vm_compute. reflexivity.
  - apply leaves_two_holders_sorted.
  - apply list_elem_of_In. vm_compute. tauto.
  - apply holderB_leaf_classified.
  - vm_compute. reflexivity.
  - exact Hexit.
Defined.

Lemma workers_stay_in_partition_witness :
  let db := state_two_holders [] 3 in
  let idx := build_index [holderA; holderB] [mkAllowance holderA holderB] in
  let cfg := mkConfig false idx.1 idx.2 (Some db) 0 in
  exists s',
    final_state (run_match false) schedule_match = Some s' /\
    seenAccounts (coll s') <> ∅ /\
    (forall a, a ∈ seenAccounts (coll s') ->
       exists c, scanned_in cfg db (leaves_two_holders 3) c /\ address c = a).
Proof.
  intros db idx cfg.
  assert (Hseen : (fun s => bool_decide (seenAccounts (coll s) <> ∅))
                    <$> final_state (run_match false) schedule_match = Some true)
    by (vm_compute; reflexivity).
  run_state (run_match false) schedule_match s' E Hcr.
  simpl in Hseen. injection Hseen as Hseen. apply bool_decide_eq_true_1 in Hseen.
  unfold run_match, migrate in E.
  destruct (workers_stay_in_partition (state_two_holders [] 3) (state_two_holders [] 3)
              [holderA; holderB] [mkAllowance holderA holderB] 0 false
              (leaves_two_holders 3) schedule_match s')
    as [_ Hfrom].
  - vm_compute. reflexivity.
  - apply leaves_two_holders_sorted.
  - exact E.
  - exact Hcr.
  - exists s'. split; [reflexivity|]. split; [exact Hseen|exact Hfrom].
Defined.

(** ** Further properties: a database that cannot be opened, and the log *)

Section BrokenDatabase.
Context `{Externals}.
Variables (mdb : StateDB) (dbFactory : DBFactory) (addresses : list Address)
  (allowances : list Allowance) (expDiff : Z) (noCheck : bool).

Local Abbreviation cfg0 :=
  (mkConfig noCheck (build_index addresses allowances).1
     (build_index addresses allowances).2 dbFactory expDiff).
Local Abbreviation the_call :=
  (start_doMigration mdb dbFactory addresses allowances expDiff noCheck).

(** X19: where the factory fails, or the storage trie of the legacy
    contract cannot be opened or is nil, [doMigration] never returns: no
    worker gets past its first lines, the first one to run ends the process
    through [log.Crit], and until then the caller waits in [wg.Wait()]. *)
Theorem broken_database_never_returns (ls : list label) (c : call) :
  dbFactory = None \/
  (exists db, dbFactory = Some db /\
     forall leaves, StorageTrie db LegacyERC20ETHAddr <> TrieOk leaves) ->
  after the_call ls = Some c ->
  is_returned c = false /\
  exists msg, after the_call [LWorker 0] = Some (Exited msg) /\
    (msg = "cannot get database" \/
     msg = "cannot get storage trie for LegacyERC20ETHAddr" \/
     msg = "nil storage trie for LegacyERC20ETHAddr").
Proof.
  intros Hbroken Hafter.
  destruct (spawn_returns (seqZ 0 checkJobs)) as [ws Hsp].
  { intros j Hj. apply elem_of_seqZ in Hj. lia. }
  set (s0 := mkState ws [] false false None (new_collector mdb) true MWait None []).
  assert (Hs0 : s0 = mkState ws [] false false None (new_collector mdb) true MWait None [])
    by reflexivity.
  assert (Hd : doMigration mdb dbFactory addresses allowances expDiff noCheck
               = Returns (cfg0, s0))
    by (unfold doMigration; rewrite Hsp; reflexivity).
  clearbody s0.
  assert (Hstart : forall i w, ws !! i = Some w -> exists st en, w = WStart st en).
  { intros i w Hw.
    destruct (spawn_lookup _ _ _ _ Hsp Hw) as (j & st & en & _ & _ & ->).
    by exists st, en. }
  assert (Hzero : exists st en, ws !! 0%nat = Some (WStart st en)).
  { destruct (lookup_lt_is_Some_2 ws 0%nat) as [w Hw].
    - rewrite (spawn_length _ _ Hsp), length_seqZ. unfold checkJobs. lia.
    - destruct (Hstart _ _ Hw) as (st & en & ->). by exists st, en. }
  clear Hsp. split.
  - unfold start_doMigration in Hafter. rewrite Hd in Hafter. cbn [after] in Hafter.
    clear Hd.
    destruct (exec cfg0 ls s0) as [s2|] eqn:He; [|discriminate Hafter].
    destruct (crashed s2) eqn:Hcr2; [by injection Hafter as <-|].
    assert (Hkeep : crashed s2 = None ->
              main s2 = MWait /\
              (forall i w, workers s2 !! i = Some w -> exists st en, w = WStart st en) /\
              exists st en, workers s2 !! 0%nat = Some (WStart st en)).
    { apply (exec_invariant cfg0
               (fun x => crashed x = None ->
                  main x = MWait /\
                  (forall i w, workers x !! i = Some w -> exists st en, w = WStart st en) /\
                  exists st en, workers x !! 0%nat = Some (WStart st en)))
        with (ls := ls) (s := s0);
        [|intros _; rewrite Hs0; cbn [main workers];
          split; [reflexivity|split; [exact Hstart|exact Hzero]]
         |exact He].
      clear -Hbroken. intros l x x' Hinv Ht.
      transition_cases Ht; intros Hcr1;
        try (destruct (Hinv Hcr) as (Hm' & Hall & Hz);
             destruct (Hall _ _ Hw) as (? & ? & [=]));
        try (destruct (Hinv Hcr) as (Hm' & Hall & Hz); congruence).
      - cbn [cfg_dbFactory] in Hf.
        destruct Hbroken as [->|(db' & -> & Hno)]; [discriminate Hf|].
        injection Hf as <-. by destruct (Hno leaves0).
      - destruct (Hinv Hcr) as (Hm' & Hall & Hz). simpl.
        destruct (once_cancel_fields (set_errCh s rest) (Some err))
          as (-> & _ & _ & _ & -> & _). done.
      - destruct (Hinv Hcr) as (Hm' & Hall & Hz). done.
      - destruct (Hinv Hcr) as (Hm' & Hall & (st & en & Hz)).
        by pose proof (all_done_lookup _ _ _ Hd Hz). }
    destruct (Hkeep Hcr2) as (Hm2 & _). rewrite Hm2 in Hafter.
    by injection Hafter as <-.
  - unfold start_doMigration. rewrite Hd. cbn [after exec].
    destruct Hzero as (st & en & Hz).
    unfold step, worker_step. rewrite Hs0. cbn [crashed workers]. rewrite Hz.
    cbn [cfg_dbFactory].
    destruct Hbroken as [->|(db' & -> & Hno)].
    + eexists. split; [reflexivity|]. by left.
    + destruct (StorageTrie db' LegacyERC20ETHAddr) as [| |leaves0] eqn:Htrie.
      * eexists. split; [reflexivity|]. right. by left.
      * eexists. split; [reflexivity|]. right. by right.
      * by destruct (Hno leaves0).
Qed.

(** X20: what a run that came to the supply check has logged last: "Iterated
    legacy balances", then "supply mismatch" when the delta differs from the
    expected one, and then, when it returns nil, "supply verified OK" and "Set
    the totalSupply to 0".  A relaxed run logs the mismatch and "supply
    verified OK" one after the other. *)
Theorem returned_run_log (ls : list label) (s' : state) (r : option string) :
  final_state the_call ls = Some s' ->
  crashed s' = None -> main s' = MReturned r -> lastErr s' = None ->
  exists db before,
    dbFactory = Some db /\
    logs s' =
      before ++ [(LvlInfo, "Iterated legacy balances")] ++
      (if getOVMETHTotalSupply db - totalFound (coll s') =? expDiff
       then [] else [(LvlError, "supply mismatch")]) ++
      match r with
      | None => [(LvlInfo, "supply verified OK"); (LvlInfo, "Set the totalSupply to 0")]
      | Some _ => []
      end.
Proof.
  intros Hfinal Hcr' Hm' Hl'.
  destruct (reachable_invariant mdb dbFactory addresses allowances expDiff noCheck
              (fun s => crashed s = None -> forall r, main s = MReturned r ->
                 lastErr s = None ->
                 exists db before,
                   dbFactory = Some db /\
                   logs s =
                     before ++ [(LvlInfo, "Iterated legacy balances")] ++
                     (if getOVMETHTotalSupply db - totalFound (coll s) =? expDiff
                      then [] else [(LvlError, "supply mismatch")]) ++
                     match r with
                     | None => [(LvlInfo, "supply verified OK");
                                (LvlInfo, "Set the totalSupply to 0")]
                     | Some _ => []
                     end) ls s')
    as (Hinv & _); [| |exact Hfinal|by apply Hinv].
  - intros ws _ _ r0 Hm0. discriminate Hm0.
  - clear. intros l st st' Hcaller Hinv Ht.
    assert (Hover : forall (s : state) r0, crashed s = None -> caller_inv cfg0 s ->
              main s = MReturned r0 ->
              forallb is_done (workers s) = true /\ collecting s = false).
    { intros s r0 Hcr Hci Hm. destruct (Hci Hcr) as [Hdone Hret].
      split; [apply Hdone; by rewrite Hm|by destruct (Hret r0 Hm)]. }
    transition_cases Ht; intros Hcr1 r0 Hm0 Hl0;
      try (cbn [main set_worker set_coll set_errCh add_logs] in Hm0;
           destruct (Hover s r0 Hcr Hcaller Hm0) as [Hdone Hcol'];
           by pose proof (all_done_lookup _ _ _ Hdone Hw));
      try (destruct (Hover s r0 Hcr Hcaller Hm0) as [Hdone Hcol']; congruence).
    + congruence.
    + destruct (once_cancel_fields (set_errCh s rest) (Some err))
        as (_ & _ & _ & _ & Hmain & _).
      rewrite Hmain in Hm0. cbn [main set_errCh] in Hm0.
      destruct (Hover s r0 Hcr Hcaller Hm0) as [_ Hcol']. congruence.
    + cbn [main set_main] in Hm0. discriminate Hm0.
    + cbn [main set_main] in Hm0. injection Hm0 as <-.
      cbn [lastErr set_main] in Hl0. congruence.
    + cbn [main set_main] in Hm0. injection Hm0 as <-.
      cbn [cfg_dbFactory] in Hf. exists db0, (logs s). split; [exact Hf|].
      unfold supply_check in Hs. cbn [cfg_noCheck cfg_expDiff] in Hs.
      cbn [logs set_main add_logs coll]. rewrite <- !app_assoc.
      destruct (getOVMETHTotalSupply db0 - totalFound (coll s) =? expDiff);
        cbn [negb] in Hs.
      * discriminate Hs.
      * destruct (negb noCheck); [|discriminate Hs].
        injection Hs as <- _. by rewrite app_nil_r.
    + cbn [main set_main] in Hm0. injection Hm0 as <-.
      cbn [cfg_dbFactory] in Hf. exists db0, (logs s). split; [exact Hf|].
      unfold supply_check in Hs. cbn [cfg_noCheck cfg_expDiff] in Hs.
      cbn [logs set_main add_logs set_coll coll totalFound]. rewrite <- !app_assoc.
      destruct (getOVMETHTotalSupply db0 - totalFound (coll s) =? expDiff);
        cbn [negb] in Hs.
      * injection Hs as <-. reflexivity.
      * destruct (negb noCheck); [discriminate Hs|].
        injection Hs as <-. reflexivity.
Qed.
End BrokenDatabase.

Lemma broken_database_never_returns_witness :
  after (start_doMigration (state_two_holders [] 3) None [holderA] [] 0 false)
    [LWorker 0] = Some (Exited "cannot get database") /\
  is_returned (Exited "cannot get database") = false.
Proof.
  assert (Ha : after (start_doMigration (state_two_holders [] 3) None [holderA] [] 0 false)
                 [LWorker 0] = Some (Exited "cannot get database"))
    by (vm_compute; reflexivity).
  split; [exact Ha|].
  destruct (broken_database_never_returns (state_two_holders [] 3) None [holderA] []
              0 false [LWorker 0] (Exited "cannot get database"))
    as [Hno _]; [by left|exact Ha|exact Hno].
Defined.

Lemma returned_run_log_witness :
  exists s' before,
    final_state (run_bad_supply true) schedule_bad_supply = Some s' /\
    main s' = MReturned None /\
    logs s' =
      before ++ [(LvlInfo, "Iterated legacy balances"); (LvlError, "supply mismatch");
                 (LvlInfo, "supply verified OK"); (LvlInfo, "Set the totalSupply to 0")].
Proof.
  assert (Hp : (fun s => (main s, lastErr s))
                 <$> final_state (run_bad_supply true) schedule_bad_supply
               = Some (MReturned None, None)) by (vm_compute; reflexivity).
  assert (Hdelta : (fun s => getOVMETHTotalSupply (state_two_holders [] 4)
                               - totalFound (coll s) =? 0)
                     <$> final_state (run_bad_supply true) schedule_bad_supply
                   = Some false) by (vm_compute; reflexivity).
  run_state (run_bad_supply true) schedule_bad_supply s' E Hcr.
  cbv [fmap option_fmap option_map] in Hp, Hdelta.
  injection Hp as Hm Hl. apply (inj Some) in Hdelta.
  unfold run_bad_supply, migrate in E.
  destruct (returned_run_log (state_two_holders [] 4) (Some (state_two_holders [] 4))
              [holderA; holderB] [mkAllowance holderA holderB] 0 true
              schedule_bad_supply s' None E Hcr Hm Hl)
    as (db & before & Hdb & Hlogs).
  injection Hdb as <-. rewrite Hdelta in Hlogs.
  exists s', before. split; [reflexivity|]. split; [exact Hm|exact Hlogs].
Defined.
